(** * The Kubernetes client of teresa-api: reconcile, patch and pod-run logic

    A shallow embedding of [pkg/server/k8s/client.go].  Calls that leave the
    process (the cluster's resource store, the log endpoint, timers) are
    answered by a [World]; functions of the package that are declared outside
    [client.go] are gathered in a [Package] and left open.  Every modelled
    function records the calls it makes as a list of [Event]s, in program
    order, next to the value it returns.

    The goroutine of [PodRun] is embedded as the sequential program it is.
    It talks to the caller of [PodRun] through a pipe and an unbuffered
    channel: a write to the pipe returns when the caller has read the data,
    the send on the channel returns when the caller receives, and either
    blocks the goroutine for as long as the caller does not.  The caller is a
    parameter of the model ([Consumer]), and a call that has not returned is
    [Unfinished].  Real time is replaced by the number of ticks a poller
    delivers before its timeout closes its channel; a poller without timeout
    never closes it, and such a poll is followed for a number of ticks that
    is a parameter of the model. *)

From Stdlib Require Import ZArith Ascii.
From stdpp Require Import base gmap strings list.

Local Open Scope Z_scope.
Local Open Scope string_scope.
Local Open Scope list_scope.

(** ** Errors *)

(** Reasons of an API status error ([metav1.StatusReason]). *)
Inductive StatusReason :=
| StatusReasonNotFound
| StatusReasonAlreadyExists
| StatusReasonForbidden
| StatusReasonConflict
| StatusReasonInvalid
| StatusReasonUnknown.

(** Go's [error] values met in [client.go].  A Go [error] that may be [nil]
    is an [option error]. *)
Inductive error :=
| StatusError (reason : StatusReason)      (* an error answered by the API server *)
| ErrWaitTimeout                           (* wait.ErrWaitTimeout *)
| ErrPodRunFailed                          (* package variable, declared outside client.go *)
| ErrPodStillRunning                       (* package variable, declared outside client.go *)
| ErrOther (msg : string)                  (* any other failure: transport, encoding, ... *)
| Wrapped (cause : error) (msg : string).  (* errors.Wrap(cause, msg) with cause != nil *)

(** [errors.Wrap]: wrapping [nil] gives [nil]. *)
Definition Wrap (err : option error) (msg : string) : option error :=
  match err with
  | None => None
  | Some e => Some (Wrapped e msg)
  end.

(** ** Data *)

(** [time.Duration], in nanoseconds. *)
Definition Duration := Z.
Definition Second : Duration := 1000000000.
Definition Minute : Duration := 60 * Second.

(** [k8sv1.PodPhase] is a string type. *)
Definition PodPhase := string.
Definition PodPending : PodPhase := "Pending".
Definition PodRunning : PodPhase := "Running".
Definition PodSucceeded : PodPhase := "Succeeded".
Definition PodFailed : PodPhase := "Failed".
Definition PodUnknown : PodPhase := "Unknown".

Record ContainerStateTerminated := {
  ExitCode : Z;                            (* int32 *)
  Reason : string
}.

(** [k8sv1.ContainerStatus], with [State.Terminated] (a pointer) as an option. *)
Record ContainerStatus := {
  ContainerName : string;
  Terminated : option ContainerStateTerminated
}.

Record PodStatus := {
  Phase : PodPhase;
  ContainerStatuses : list ContainerStatus
}.

(** [k8sv1.Pod]: identity and status. *)
Record Pod := {
  PodNamespace : string;
  PodName : string;
  Status : PodStatus
}.

(** [spec.Pod], [spec.Deploy], [spec.CronJob]: [client.go] reads the identity
    only and hands the rest to the converters. *)
Record PodSpec := {
  SpecNamespace : string;
  SpecName : string;
  SpecImage : string;
  SpecArgs : list string
}.

Record DeploySpec := {
  DeployNamespace : string;
  DeployName : string;
  DeployPod : PodSpec
}.

Record CronJobSpec := {
  CronJobNamespace : string;
  CronJobName : string;
  CronJobSchedule : string;
  CronJobPod : PodSpec
}.

(** [v1beta1.Deployment]: the desired replica count of the manifest and the
    replica count the control plane reports in the status. *)
Record Deployment := {
  DeploymentName : string;
  SpecReplicas : Z;                        (* Spec.Replicas, int32 *)
  DeploymentTemplate : PodSpec;
  StatusReplicas : Z                       (* Status.Replicas, int32 *)
}.

Record CronJob := {
  JobName : string;
  JobSchedule : string;
  JobTemplate : PodSpec
}.

Record Secret := {
  SecretType : string;
  SecretName : string;
  SecretNamespace : string;
  SecretData : gmap string (list Byte.byte)
}.

Record ConfigMap := {
  ConfigMapName : string;
  ConfigMapNamespace : string;
  ConfigMapData : gmap string string
}.

(** [app.Autoscale] and [app.App], as far as [newHPA] reads them. *)
Record Autoscale := {
  CPUTargetUtilization : Z;
  Min : Z;
  Max : Z
}.

Record App := {
  AppName : string;
  AppAutoscale : Autoscale
}.

Record CrossVersionObjectReference := {
  RefAPIVersion : string;
  RefKind : string;
  RefName : string
}.

(** [asv1.HorizontalPodAutoscaler]. *)
Record HorizontalPodAutoscaler := {
  HPAName : string;
  HPANamespace : string;
  ScaleTargetRef : CrossVersionObjectReference;
  TargetCPUUtilizationPercentage : option Z;
  MaxReplicas : Z;
  MinReplicas : option Z
}.

(** A manifest handed to a typed client's [Update] or [Create], with the
    namespace the typed client was opened for. *)
Inductive Resource :=
| RSecret (namespace : string) (s : Secret)
| RAutoscaler (namespace : string) (h : HorizontalPodAutoscaler)
| RConfigMap (namespace : string) (c : ConfigMap)
| RDeployment (namespace : string) (d : Deployment)
| RCronJob (namespace : string) (j : CronJob).

(** [app.LogOptions]. *)
Record LogOptions := {
  Lines : Z;
  Follow : bool;
  Previous : bool;
  Container : string
}.

(** What [req.Stream()] returns on success: the chunks a reader gets before
    the end of the stream.  The stream is taken to end, as the stream of a
    followed log does when its container terminates. *)
Record LogStream := {
  chunks : list string
}.

(** JSON documents, as [json.Marshal] and the patch templates build them. *)
#[warnings="-register-all"] Inductive JSON :=
| JNull
| JString (s : string)
| JNumber (n : Z)
| JArray (items : list JSON)
| JObject (members : list (string * JSON)).

Inductive PatchType :=
| JSONPatchType
| MergePatchType
| StrategicMergePatchType.

(** The typed client a [Patch] goes through. *)
Inductive PatchTarget :=
| ExtensionsDeployments
| BatchCronJobs
| CoreServices.

(** The site a pod read comes from. *)
Inductive Caller :=
| InWaitPodStart
| InWaitPodEnd
| InPodExitCode.

(** ** Events: the calls a function makes, in program order *)
Inductive Event :=
| ApiUpdate (r : Resource)
| ApiCreate (r : Resource)
| ApiPatch (target : PatchTarget) (namespace name : string) (pt : PatchType) (data : JSON)
| DeploymentsGet (namespace name : string)
| PodsCreate (namespace : string) (p : Pod)
| PodsGet (site : Caller) (namespace name : string)
| PodLogsOpen (namespace name : string) (opts : LogOptions)
| PipeWrite (chunk : string)               (* a write to the pipe that returned: the chunk was read *)
| ChanSend (code : Z)                      (* exitCodeChan <- exitCode that returned: it was received *)
| GoDeletePod (namespace name : string)    (* go k.DeletePod(...) *)
| PipeClose                                (* w.Close() *)
| ChanClose.                               (* close(exitCodeChan) *)

(** ** The world outside the process *)

(** [restclient.Config]. *)
Record Config := {
  Host : string
}.

Record World := {
  (* kubernetes.NewForConfig: the error it returns for a configuration *)
  newForConfig : Config → option error;
  (* the ticks a poller delivers for (interval, timeout) before its timer closes its
     channel; read for a timeout other than 0 only, as a timeout of 0 sets no timer *)
  timerTicks : Duration → Duration → nat;
  (* time.Now(), printed *)
  now : string;
  apiUpdate : Resource → option error;
  apiCreate : Resource → option error;
  apiPatch : PatchTarget → string → string → PatchType → JSON → option error;
  deploymentsGet : string → string → Deployment + error;
  podsCreate : string → Pod → Pod + error;
  (* the answer to the n-th read of a pod, counted from the start of the run *)
  podsGet : nat → string → string → Pod + error;
  podLogs : string → string → LogOptions → LogStream + error
}.

(** Functions of the package that are declared outside [client.go]. *)
Record Package := {
  IsNotFound : option error → bool;
  configMapSpec : string → string → gmap string string → ConfigMap;
  deploySpecToK8sDeploy : DeploySpec → Z → Deployment + error;
  cronJobSpecToK8sCronJob : CronJobSpec → CronJob + error;
  podSpecToK8sPod : PodSpec → Pod + error
}.

Record Client := {
  conf : Config;
  podRunTimeout : Duration;
  ingress : bool
}.

(** ** Manifests and patch payloads built in [client.go] *)

Definition newHPA (a : App) : HorizontalPodAutoscaler :=
  let tcpu := CPUTargetUtilization (AppAutoscale a) in
  let minr := Min (AppAutoscale a) in
  {| HPAName := AppName a;
     HPANamespace := AppName a;
     ScaleTargetRef := {| RefAPIVersion := "extensions/v1beta1";
                          RefKind := "Deployment";
                          RefName := AppName a |};
     TargetCPUUtilizationPercentage := Some tcpu;
     MaxReplicas := Max (AppAutoscale a);
     MinReplicas := Some minr |}.

(** [app.EnvVar]. *)
Record AppEnvVar := {
  Key : string;
  Value : string
}.

(** The local struct [EnvVar] of [convertAppEnvVar]. *)
Record SetEnvVar := {
  SetName : string;                        (* `json:"name"` *)
  SetValue : string                        (* `json:"value"` *)
}.

(** The local struct [EnvVar] of [convertAppDeleteEnvVar]. *)
Record DeleteEnvVar := {
  DeleteName : string;                     (* `json:"name"` *)
  DeletePatch : string                     (* `json:"$patch"` *)
}.

(** The [interface{}] the converters return and [json.Marshal] receives: a
    slice of one of the two local struct types. *)
Inductive EnvPayload :=
| SetEnvVars (env : list SetEnvVar)
| DeleteEnvVars (env : list DeleteEnvVar).

Definition convertAppEnvVar (evs : list AppEnvVar) : EnvPayload :=
  SetEnvVars ((λ ev, {| SetName := Key ev; SetValue := Value ev |}) <$> evs).

Definition convertAppDeleteEnvVar (evNames : list string) : EnvPayload :=
  DeleteEnvVars ((λ n, {| DeleteName := n; DeletePatch := "delete" |}) <$> evNames).

Definition marshalSetEnvVar (e : SetEnvVar) : JSON :=
  JObject [("name", JString (SetName e)); ("value", JString (SetValue e))].

Definition marshalDeleteEnvVar (e : DeleteEnvVar) : JSON :=
  JObject [("name", JString (DeleteName e)); ("$patch", JString (DeletePatch e))].

(** [json.Marshal] on the values [client.go] gives it: a slice of structs
    with string fields becomes an array of objects keyed by the fields' tags;
    no such value fails to encode. *)
Definition json_Marshal (v : EnvPayload) : JSON + error :=
  match v with
  | SetEnvVars env => inl (JArray (marshalSetEnvVar <$> env))
  | DeleteEnvVars env => inl (JArray (marshalDeleteEnvVar <$> env))
  end.

(** [json.Marshal] on a [map[string]string]: [null] for the nil map, else an
    object with one member per key. *)
Definition json_Marshal_map (m : option (gmap string string)) : JSON + error :=
  match m with
  | None => inl JNull
  | Some m => inl (JObject ((λ kv, (kv.1, JString kv.2)) <$> map_to_list m))
  end.

(** The patch templates, as the documents [fmt.Sprintf] makes of them. *)
Definition patchDeployEnvVarsTmpl (date name : string) (env : JSON) : JSON :=
  JObject [
    ("metadata", JObject [("annotations",
       JObject [("kubernetes.io/change-cause", JString "update env vars")])]);
    ("spec", JObject [("template", JObject [
       ("metadata", JObject [("annotations", JObject [("date", JString date)])]);
       ("spec", JObject [("containers",
          JArray [JObject [("name", JString name); ("env", env)]])])])])].

Definition patchCronJobEnvVarsTmpl (date name : string) (env : JSON) : JSON :=
  JObject [
    ("metadata", JObject [("annotations",
       JObject [("kubernetes.io/change-cause", JString "update env vars")])]);
    ("spec", JObject [
       ("template", JObject [("metadata",
          JObject [("annotations", JObject [("date", JString date)])])]);
       ("jobTemplate", JObject [("spec", JObject [("template", JObject [("spec",
          JObject [("containers",
             JArray [JObject [("name", JString name); ("env", env)]])])])])])])].

Definition patchServiceAnnotationsTmpl (annotations : JSON) : JSON :=
  JObject [("metadata", JObject [("annotations", annotations)])].

Definition prepareServiceAnnotations (tmpl : JSON → JSON)
    (annotations : option (gmap string string)) : JSON + error :=
  match json_Marshal_map annotations with
  | inr err => inr (Wrapped err "failed to json encode")
  | inl b => inl (tmpl b)
  end.

(** The member of an object under a key; the element of an array at an index. *)
Definition member (key : string) (j : JSON) : option JSON :=
  match j with
  | JObject members => (λ r, r.2.2) <$> list_find (λ kv, kv.1 = key) members
  | _ => None
  end.

Definition element (i : nat) (j : JSON) : option JSON :=
  match j with
  | JArray items => items !! i
  | _ => None
  end.

(** ** The control plane's side of an annotation patch *)

(** How the API server applies a strategic merge patch to a field of type
    [map[string]string] such as [metadata.annotations]: [null] for the field
    removes it; an object is merged into the stored map member by member (a
    string sets the key, [null] removes the key); stored keys the patch does
    not name are kept.  The API server is not part of this repository: this
    is the rule its strategic merge follows for such a field. *)
Definition mergeStringMap (patch : JSON) (stored : gmap string string) : gmap string string :=
  match patch with
  | JNull => ∅
  | JObject members =>
      foldr (λ kv acc,
               match kv.2 with
               | JString v => <[kv.1 := v]> acc
               | JNull => delete kv.1 acc
               | _ => acc
               end) stored members
  | _ => stored
  end.

(** The annotations of a service after the API server has applied [data]. *)
Definition patchedAnnotations (pt : PatchType) (data : JSON)
    (stored : gmap string string) : gmap string string :=
  match pt with
  | StrategicMergePatchType =>
      match member "metadata" data ≫= member "annotations" with
      | Some patch => mergeStringMap patch stored
      | None => stored
      end
  | _ => stored
  end.

(** ** Computations: a read counter threaded through, events written out *)

Record Res (A : Type) := mkRes {
  val : A;
  clk : nat;
  evs : list Event
}.
Arguments mkRes {A} _ _ _.
Arguments val {A} _.
Arguments clk {A} _.
Arguments evs {A} _.

Definition M (A : Type) : Type := nat → Res A.

#[global] Instance M_ret : MRet M := λ A a c, mkRes a c [].

#[global] Instance M_bind : MBind M := λ A B f m c,
  let r := m c in
  let r' := f (val r) (clk r) in
  mkRes (val r') (clk r') (evs r ++ evs r').

(** Record one call. *)
Definition emit (e : Event) : M unit := λ c, mkRes tt c [e].

(** Record a call and return the world's answer to it. *)
Definition call {A : Type} (e : Event) (answer : A) : M A := λ c, mkRes answer c [e].

(** ** Calls that may not return *)

(** What is known of a call when the model stops following it: it has
    returned a value, or it has not returned: it is blocked, or it is still
    polling. *)
Inductive Progress (A : Type) :=
| Returned (a : A)
| Unfinished.
Arguments Returned {A} _.
Arguments Unfinished {A}.

(** ** The caller of [PodRun] *)

(** What the holder of the pipe's read end does with it. *)
Inductive PipeReader :=
| ReadsAll                                 (* reads whatever is written *)
| StopsAfter (n : nat)                     (* reads the data of n writes and then no more *)
| ClosesAfter (n : nat).                   (* reads the data of n writes, then closes the read end *)

(** The caller of [PodRun], as the goroutine meets it.  [receives] tells
    whether it receives from the completion channel while the pipe is open; a
    caller that first reads the pipe up to the end of the stream does not. *)
Record Consumer := {
  pipeReader : PipeReader;
  receives : bool
}.

(** [io.ErrClosedPipe]. *)
Definition ErrClosedPipe : error := ErrOther "io: read/write on closed pipe".

Section Model.

Context (W : World) (P : Package).

Definition buildClient (k : Client) : unit + error :=
  match newForConfig W (conf k) with
  | Some err => inr (Wrapped err "create k8s client failed")
  | None => inl tt
  end.

(** *** The poller of [k8s.io/apimachinery/pkg/util/wait] *)

(** The receives from the channel of [poller(interval, timeout)] that find it
    open.  With a timeout the poller closes its channel when its timer fires,
    after the ticks the world delivers.  With a timeout of 0 it sets no timer
    and never closes its channel: such a poll is followed for [fuel] ticks. *)
Definition pollTicks (interval timeout : Duration) (fuel : nat) : nat :=
  if (timeout =? 0)%Z then fuel else timerTicks W interval timeout.

(** [wait.WaitFor]: after each receive from the poller's channel the condition
    is evaluated; an error stops the wait, then [true] does; once the channel
    is closed the wait ends with [ErrWaitTimeout].  [ticks] counts the
    receives that find the channel still open, and [closes] tells whether the
    channel is closed after them; when it is not, the wait is still polling
    after the last of them. *)
Fixpoint WaitFor (ticks : nat) (closes : bool) (condition : M (bool * option error))
    : M (Progress (option error)) :=
  r ← condition;
  match r with
  | (_, Some err) => mret (Returned (Some err))
  | (true, None) => mret (Returned None)
  | (false, None) =>
      match ticks with
      | O => mret (if closes then Returned (Some ErrWaitTimeout) else Unfinished)
      | S n => WaitFor n closes condition
      end
  end.

(** [wait.PollImmediate]: the condition is evaluated on entry, before any
    tick. *)
Definition PollImmediate (interval timeout : Duration) (fuel : nat)
    (condition : M (bool * option error)) : M (Progress (option error)) :=
  r ← condition;
  match r with
  | (_, Some err) => mret (Returned (Some err))
  | (true, None) => mret (Returned None)
  | (false, None) =>
      WaitFor (pollTicks interval timeout fuel) (negb (timeout =? 0)%Z) condition
  end.

(** [podsClient.Get(pod.Name, ...)]: one read of the pod. *)
Definition PodsGet_ (site : Caller) (namespace name : string) : M (Pod + error) :=
  λ c, mkRes (podsGet W c namespace name) (S c) [PodsGet site namespace name].

Definition waitPodStart (k : Client) (pod : Pod) (checkInterval timeout : Duration)
    (fuel : nat) : M (Progress (option error)) :=
  match buildClient k with
  | inr err => mret (Returned (Some err))
  | inl _ =>
      PollImmediate checkInterval timeout fuel (
        r ← PodsGet_ InWaitPodStart (PodNamespace pod) (PodName pod);
        match r with
        | inr err => mret (false, Some err)
        | inl p =>
            if bool_decide (Phase (Status p) = PodFailed) then
              mret (true, Some ErrPodRunFailed)
            else
              mret (bool_decide (Phase (Status p) = PodRunning)
                    || bool_decide (Phase (Status p) = PodSucceeded), None)
        end)
  end.

Definition waitPodEnd (k : Client) (pod : Pod) (checkInterval timeout : Duration)
    (fuel : nat) : M (Progress (option error)) :=
  match buildClient k with
  | inr err => mret (Returned (Some err))
  | inl _ =>
      PollImmediate checkInterval timeout fuel (
        r ← PodsGet_ InWaitPodEnd (PodNamespace pod) (PodName pod);
        match r with
        | inr err => mret (false, Some err)
        | inl p =>
            mret (bool_decide (Phase (Status p) = PodSucceeded)
                  || bool_decide (Phase (Status p) = PodFailed), None)
        end)
  end.

(** The loop of [podExitCode]: the exit code of the first container status
    that has a terminated state. *)
Fixpoint firstTerminated (statuses : list ContainerStatus) : Z * option error :=
  match statuses with
  | [] => (1, Some ErrPodStillRunning)
  | containerStatus :: rest =>
      match Terminated containerStatus with
      | None => firstTerminated rest
      | Some state => (ExitCode state, None)
      end
  end.

Definition podExitCode (k : Client) (pod : Pod) : M (Z * option error) :=
  match buildClient k with
  | inr err => mret (1, Some err)
  | inl _ =>
      r ← PodsGet_ InPodExitCode (PodNamespace pod) (PodName pod);
      match r with
      | inr err => mret (1, Some err)
      | inl p => mret (firstTerminated (ContainerStatuses (Status p)))
      end
  end.

Definition PodLogs (k : Client) (namespace podName : string) (opts : LogOptions)
    : M (LogStream + error) :=
  match buildClient k with
  | inr err => mret (inr err)
  | inl _ => call (PodLogsOpen namespace podName opts) (podLogs W namespace podName opts)
  end.

(** [io.Copy(w, stream)], with the pipe's writer as [w]: each chunk read from
    the stream is written to the pipe, in order.  A write returns when the
    reader has taken the chunk; it never returns when the reader has stopped
    reading and left the read end open; it fails with [io.ErrClosedPipe] when
    the read end is closed, and the copy returns that error.  At the end of
    the stream the copy returns [nil]. *)
Fixpoint io_Copy (reader : PipeReader) (stream : list string) : M (Progress (option error)) :=
  match stream with
  | [] => mret (Returned None)
  | chunk :: rest =>
      match reader with
      | ReadsAll => emit (PipeWrite chunk);; io_Copy ReadsAll rest
      | StopsAfter (S n) => emit (PipeWrite chunk);; io_Copy (StopsAfter n) rest
      | ClosesAfter (S n) => emit (PipeWrite chunk);; io_Copy (ClosesAfter n) rest
      | StopsAfter O => mret Unfinished
      | ClosesAfter O => mret (Returned (Some ErrClosedPipe))
      end
  end.

(** Which [return] ended the goroutine of [PodRun]. *)
Inductive Outcome :=
| StartFailed (err : error)
| LogsFailed (err : error)
| EndFailed (err : error)
| ExitCodeFailed (err : error)
| Delivered (exitCode : Z).

(** The function literal [PodRun] starts with [go].  The result of [io.Copy]
    is discarded.  The send on the unbuffered channel returns only if the
    caller receives.  The deferred function runs when the function literal
    returns, and only then. *)
Definition PodRun_go (k : Client) (podSpec : PodSpec) (pod : Pod) (consumer : Consumer)
    (fuel : nat) : M (Progress Outcome) :=
  out ← (
    err ← waitPodStart k pod (1 * Second) (5 * Minute) fuel;
    match err with
    | Unfinished => mret Unfinished
    | Returned (Some e) => mret (Returned (StartFailed e))
    | Returned None =>
        let opts := {| Lines := 10; Follow := true; Previous := false; Container := "" |} in
        s ← PodLogs k (SpecNamespace podSpec) (SpecName podSpec) opts;
        match s with
        | inr e => mret (Returned (LogsFailed e))
        | inl stream =>
            copied ← io_Copy (pipeReader consumer) (chunks stream);
            match copied with
            | Unfinished => mret Unfinished
            | Returned _ =>
                err ← waitPodEnd k pod (3 * Second) (podRunTimeout k) fuel;
                match err with
                | Unfinished => mret Unfinished
                | Returned (Some e) => mret (Returned (EndFailed e))
                | Returned None =>
                    r ← podExitCode k pod;
                    match r with
                    | (_, Some e) => mret (Returned (ExitCodeFailed e))
                    | (exitCode, None) =>
                        if receives consumer then
                          emit (ChanSend exitCode);;
                          emit (GoDeletePod (PodNamespace pod) (PodName pod));;
                          mret (Returned (Delivered exitCode))
                        else mret Unfinished
                    end
                end
            end
        end
    end);
  match out with
  | Returned _ => emit PipeClose;; emit ChanClose;; mret out
  | Unfinished => mret out
  end.

(** [PodRun]: on success the caller holds the pipe's reader and the channel;
    the events of the goroutine follow the creation of the pod. *)
Definition PodRun (k : Client) (podSpec : PodSpec) (consumer : Consumer) (fuel : nat)
    : M (Progress Outcome + error) :=
  match buildClient k with
  | inr err => mret (inr err)
  | inl _ =>
      match podSpecToK8sPod P podSpec with
      | inr err => mret (inr (Wrapped err "define build pod spec failed"))
      | inl podYaml =>
          r ← call (PodsCreate (SpecNamespace podSpec) podYaml)
                   (podsCreate W (SpecNamespace podSpec) podYaml);
          match r with
          | inr err => mret (inr (Wrapped err "pod create failed"))
          | inl pod => out ← PodRun_go k podSpec pod consumer fuel; mret (inl out)
          end
      end
  end.

(** *** Create or update *)

Definition CreateOrUpdateSecret (c : Client) (namespace secretName : string)
    (data : gmap string (list Byte.byte)) : M (option error) :=
  match buildClient c with
  | inr err => mret (Some err)
  | inl _ =>
      let s := {| SecretType := "Opaque"; SecretName := secretName;
                  SecretNamespace := namespace; SecretData := data |} in
      err ← call (ApiUpdate (RSecret namespace s)) (apiUpdate W (RSecret namespace s));
      if IsNotFound P err then
        call (ApiCreate (RSecret namespace s)) (apiCreate W (RSecret namespace s))
      else mret err
  end.

Definition CreateOrUpdateAutoscale (k : Client) (a : App) : M (option error) :=
  match buildClient k with
  | inr err => mret (Some err)
  | inl _ =>
      let hpa := newHPA a in
      err ← call (ApiUpdate (RAutoscaler (AppName a) hpa))
                 (apiUpdate W (RAutoscaler (AppName a) hpa));
      if IsNotFound P err then
        call (ApiCreate (RAutoscaler (AppName a) hpa))
             (apiCreate W (RAutoscaler (AppName a) hpa))
      else mret err
  end.

Definition CreateOrUpdateConfigMap (k : Client) (namespace name : string)
    (data : gmap string string) : M (option error) :=
  match buildClient k with
  | inr err => mret (Some err)
  | inl _ =>
      let cm := configMapSpec P namespace name data in
      err ← call (ApiUpdate (RConfigMap namespace cm)) (apiUpdate W (RConfigMap namespace cm));
      if IsNotFound P err then
        call (ApiCreate (RConfigMap namespace cm)) (apiCreate W (RConfigMap namespace cm))
      else mret err
  end.

Definition currentPodReplicasFromDeploy (k : Client) (namespace appName : string) : M Z :=
  match buildClient k with
  | inr _ => mret 1
  | inl _ =>
      r ← call (DeploymentsGet namespace appName) (deploymentsGet W namespace appName);
      match r with
      | inr _ => mret 1
      | inl d => if (StatusReplicas d <? 1)%Z then mret 1 else mret (StatusReplicas d)
      end
  end.

Definition CreateOrUpdateDeploy (k : Client) (deploySpec : DeploySpec) : M (option error) :=
  match buildClient k with
  | inr err => mret (Some err)
  | inl _ =>
      replicas ← currentPodReplicasFromDeploy k (DeployNamespace deploySpec)
                   (DeployName deploySpec);
      match deploySpecToK8sDeploy P deploySpec replicas with
      | inr err => mret (Some err)
      | inl deployYaml =>
          let r := RDeployment (DeployNamespace deploySpec) deployYaml in
          err ← call (ApiUpdate r) (apiUpdate W r);
          if IsNotFound P err then call (ApiCreate r) (apiCreate W r) else mret err
      end
  end.

Definition CreateOrUpdateCronJob (c : Client) (cronJobSpec : CronJobSpec) : M (option error) :=
  match buildClient c with
  | inr err => mret (Some err)
  | inl _ =>
      match cronJobSpecToK8sCronJob P cronJobSpec with
      | inr err => mret (Some err)
      | inl cronJobYaml =>
          let r := RCronJob (CronJobNamespace cronJobSpec) cronJobYaml in
          err ← call (ApiUpdate r) (apiUpdate W r);
          if IsNotFound P err then call (ApiCreate r) (apiCreate W r) else mret err
      end
  end.

(** *** Patches *)

Definition prepareEnvVarsPath (name : string) (template : string → string → JSON → JSON)
    (v : EnvPayload) : JSON + error :=
  match json_Marshal v with
  | inr err => inr (Wrapped err "failed to json encode env vars")
  | inl b => inl (template (now W) name b)
  end.

Definition patchDeployEnvVars (c : Client) (namespace name : string) (v : EnvPayload)
    : M (option error) :=
  match prepareEnvVarsPath name patchDeployEnvVarsTmpl v with
  | inr err => mret (Some err)
  | inl data =>
      match buildClient c with
      | inr err => mret (Some err)
      | inl _ =>
          err ← call (ApiPatch ExtensionsDeployments namespace name StrategicMergePatchType data)
                     (apiPatch W ExtensionsDeployments namespace name
                        StrategicMergePatchType data);
          mret (Wrap err "patch deploy failed")
      end
  end.

Definition patchCronJobEnvVars (c : Client) (namespace name : string) (v : EnvPayload)
    : M (option error) :=
  match prepareEnvVarsPath name patchCronJobEnvVarsTmpl v with
  | inr err => mret (Some err)
  | inl data =>
      match buildClient c with
      | inr err => mret (Some err)
      | inl _ =>
          err ← call (ApiPatch BatchCronJobs namespace name StrategicMergePatchType data)
                     (apiPatch W BatchCronJobs namespace name StrategicMergePatchType data);
          mret (Wrap err "patch cronjob failed")
      end
  end.

Definition CreateOrUpdateDeployEnvVars (c : Client) (namespace name : string)
    (evs : list AppEnvVar) : M (option error) :=
  patchDeployEnvVars c namespace name (convertAppEnvVar evs).

Definition CreateOrUpdateCronJobEnvVars (c : Client) (namespace name : string)
    (evs : list AppEnvVar) : M (option error) :=
  patchCronJobEnvVars c namespace name (convertAppEnvVar evs).

Definition DeleteDeployEnvVars (k : Client) (namespace name : string)
    (evNames : list string) : M (option error) :=
  patchDeployEnvVars k namespace name (convertAppDeleteEnvVar evNames).

Definition DeleteCronJobEnvVars (k : Client) (namespace name : string)
    (evNames : list string) : M (option error) :=
  patchCronJobEnvVars k namespace name (convertAppDeleteEnvVar evNames).

Definition patchServiceAnnotations (c : Client) (namespace svcName : string)
    (annotations : option (gmap string string)) : M (option error) :=
  match prepareServiceAnnotations patchServiceAnnotationsTmpl annotations with
  | inr err => mret (Some err)
  | inl data =>
      match buildClient c with
      | inr err => mret (Some err)
      | inl _ =>
          err ← call (ApiPatch CoreServices namespace svcName StrategicMergePatchType data)
                     (apiPatch W CoreServices namespace svcName StrategicMergePatchType data);
          mret (Wrap err "patch namespace failed")
      end
  end.

Definition SetServiceAnnotations (c : Client) (namespace svcName : string)
    (annotations : option (gmap string string)) : M (option error) :=
  patchServiceAnnotations c namespace svcName annotations.

End Model.

(** ** Vocabulary of the properties *)

(** A condition that makes exactly one pod read and decides on its answer. *)
Definition reads (site : Caller) (namespace name : string)
    (answer : nat → bool * option error) (condition : M (bool * option error)) : Prop :=
  ∀ c, condition c = mkRes (answer c) (S c) [PodsGet site namespace name].

(** Has the poll to go on after this answer? *)
Definition notYet (a : bool * option error) : Prop := a = (false, None).

(** What the condition of [waitPodStart] answers at the read numbered [c]. *)
Definition startAnswer (W : World) (pod : Pod) (c : nat) : bool * option error :=
  match podsGet W c (PodNamespace pod) (PodName pod) with
  | inr err => (false, Some err)
  | inl p =>
      if bool_decide (Phase (Status p) = PodFailed) then (true, Some ErrPodRunFailed)
      else (bool_decide (Phase (Status p) = PodRunning)
            || bool_decide (Phase (Status p) = PodSucceeded), None)
  end.

(** What the condition of [waitPodEnd] answers at the read numbered [c]. *)
Definition endAnswer (W : World) (pod : Pod) (c : nat) : bool * option error :=
  match podsGet W c (PodNamespace pod) (PodName pod) with
  | inr err => (false, Some err)
  | inl p =>
      (bool_decide (Phase (Status p) = PodSucceeded)
       || bool_decide (Phase (Status p) = PodFailed), None)
  end.

(** The log options of a run session. *)
Definition runLogOptions : LogOptions :=
  {| Lines := 10; Follow := true; Previous := false; Container := "" |}.

(** The values sent on the completion channel, in order. *)
Definition sends (events : list Event) : list Z :=
  omap (λ e, match e with ChanSend code => Some code | _ => None end) events.

Definition isPipeWrite (e : Event) : bool :=
  match e with PipeWrite _ => true | _ => false end.

Definition isEndRead (e : Event) : bool :=
  match e with PodsGet InWaitPodEnd _ _ => true | _ => false end.

Definition isClose (e : Event) : bool :=
  match e with PipeClose | ChanClose => true | _ => false end.

Definition isWrite (e : Event) : bool :=
  match e with ApiUpdate _ | ApiCreate _ => true | _ => false end.

(** The store writes among the events, in order. *)
Definition writes (events : list Event) : list Event := filter (λ e, isWrite e = true) events.

(** Some chunk of output reaches the pipe after the end-wait has made a read:
    the copy is still going on while the end-wait polls. *)
Definition copyDuringEndWait (events : list Event) : Prop :=
  ∃ i j namespace name chunk,
    (i < j)%nat
    ∧ events !! i = Some (PodsGet InWaitPodEnd namespace name)
    ∧ events !! j = Some (PipeWrite chunk).

(** An event of the streaming, end-wait or delivery part of a run. *)
Definition isStreaming (e : Event) : bool :=
  match e with
  | PodLogsOpen _ _ _ | PipeWrite _ | ChanSend _ | GoDeletePod _ _ => true
  | PodsGet InWaitPodEnd _ _ | PodsGet InPodExitCode _ _ => true
  | _ => false
  end.

(** The phase the read numbered [c] of the pod shows, when the read succeeds. *)
Definition phaseAt (W : World) (pod : Pod) (c : nat) : option PodPhase :=
  match podsGet W c (PodNamespace pod) (PodName pod) with
  | inl p => Some (Phase (Status p))
  | inr _ => None
  end.

(** What follows the exit code on the success path. *)
Definition delivery (pod : Pod) (out : Progress Outcome) : list Event :=
  match out with
  | Returned (Delivered exitCode) =>
      [ChanSend exitCode; GoDeletePod (PodNamespace pod) (PodName pod)]
  | _ => []
  end.

(** The deferred closes of a goroutine that has returned. *)
Definition closing (out : Progress Outcome) : list Event :=
  match out with
  | Returned _ => [PipeClose; ChanClose]
  | Unfinished => []
  end.

(** The events of a goroutine of [PodRun] that made [nStart] start-wait reads,
    the log calls [logs], wrote the chunks [written], made [nEnd] end-wait
    reads and [nExit] exit-code reads, and has got to [out]. *)
Definition sessionEvents (pod : Pod) (nStart : nat) (logs : list Event)
    (written : list string) (nEnd nExit : nat) (out : Progress Outcome) : list Event :=
  replicate nStart (PodsGet InWaitPodStart (PodNamespace pod) (PodName pod))
  ++ logs
  ++ (PipeWrite <$> written)
  ++ replicate nEnd (PodsGet InWaitPodEnd (PodNamespace pod) (PodName pod))
  ++ replicate nExit (PodsGet InPodExitCode (PodNamespace pod) (PodName pod))
  ++ delivery pod out
  ++ closing out.

(** The events end with the close of the pipe and then of the channel, and
    nothing is closed before. *)
Definition closedAtEnd (events : list Event) : Prop :=
  ∃ body, events = body ++ [PipeClose; ChanClose] ∧ Forall (λ e, isClose e = false) body.

(** Neither the pipe nor the channel is closed. *)
Definition notClosed (events : list Event) : Prop :=
  Forall (λ e, isClose e = false) events.

(** The chunks a reader takes from the pipe. *)
Definition accepted (reader : PipeReader) (stream : list string) : list string :=
  match reader with
  | ReadsAll => stream
  | StopsAfter n | ClosesAfter n => take n stream
  end.

(** What a copy of [stream] to the pipe comes to with a reader. *)
Definition copyResult (reader : PipeReader) (stream : list string) : Progress (option error) :=
  match reader with
  | ReadsAll => Returned None
  | StopsAfter n =>
      if bool_decide (length stream ≤ n)%nat then Returned None else Unfinished
  | ClosesAfter n =>
      if bool_decide (length stream ≤ n)%nat then Returned None
      else Returned (Some ErrClosedPipe)
  end.

(** The five create-or-update operations. *)
Inductive Reconcile :=
| ReconcileSecret (namespace secretName : string) (data : gmap string (list Byte.byte))
| ReconcileAutoscale (a : App)
| ReconcileConfigMap (namespace name : string) (data : gmap string string)
| ReconcileDeploy (deploySpec : DeploySpec)
| ReconcileCronJob (cronJobSpec : CronJobSpec).

Definition reconcile (W : World) (P : Package) (k : Client) (op : Reconcile) : M (option error) :=
  match op with
  | ReconcileSecret namespace secretName data => CreateOrUpdateSecret W P k namespace secretName data
  | ReconcileAutoscale a => CreateOrUpdateAutoscale W P k a
  | ReconcileConfigMap namespace name data => CreateOrUpdateConfigMap W P k namespace name data
  | ReconcileDeploy deploySpec => CreateOrUpdateDeploy W P k deploySpec
  | ReconcileCronJob cronJobSpec => CreateOrUpdateCronJob W P k cronJobSpec
  end.

(** The failure of a create-or-update operation before any call to the store:
    the client cannot be built, or the manifest cannot be converted. *)
Definition failedLocally (W : World) (P : Package) (k : Client) (op : Reconcile)
    (err : error) : Prop :=
  (∃ e, newForConfig W (conf k) = Some e ∧ err = Wrapped e "create k8s client failed")
  ∨ match op with
    | ReconcileDeploy deploySpec => ∃ n, deploySpecToK8sDeploy P deploySpec n = inr err
    | ReconcileCronJob cronJobSpec => cronJobSpecToK8sCronJob P cronJobSpec = inr err
    | _ => False
    end.

(** [CreateOrUpdateDeploy] reads the live deployment first and then goes on
    with the manifest converted for the replica count [n]: the update carries
    that manifest, or the conversion error is returned. *)
Definition appliedWith (W : World) (P : Package) (k : Client) (deploySpec : DeploySpec)
    (c : nat) (n : Z) : Prop :=
  match deploySpecToK8sDeploy P deploySpec n with
  | inl deployYaml =>
      ∃ rest,
        evs (CreateOrUpdateDeploy W P k deploySpec c)
        = DeploymentsGet (DeployNamespace deploySpec) (DeployName deploySpec)
          :: ApiUpdate (RDeployment (DeployNamespace deploySpec) deployYaml) :: rest
  | inr err =>
      CreateOrUpdateDeploy W P k deploySpec c
      = mkRes (Some err) c
          [DeploymentsGet (DeployNamespace deploySpec) (DeployName deploySpec)]
  end.

(** The entry a delete patch carries for a variable name. *)
Definition deleteEntry (name : string) : JSON :=
  JObject [("name", JString name); ("$patch", JString "delete")].

(** A step into a document: the member under a key, or the element at an
    index. *)
Inductive Step :=
| AtKey (key : string)
| AtIndex (i : nat).

Fixpoint along (path : list Step) (j : JSON) : option JSON :=
  match path with
  | [] => Some j
  | AtKey key :: rest => member key j ≫= along rest
  | AtIndex i :: rest => element i j ≫= along rest
  end.

(** Where the [env] array sits in a deployment patch and in a cron job patch. *)
Definition deployEnvPath : list Step :=
  [AtKey "spec"; AtKey "template"; AtKey "spec"; AtKey "containers"; AtIndex 0; AtKey "env"].

Definition cronJobEnvPath : list Step :=
  [AtKey "spec"; AtKey "jobTemplate"; AtKey "spec"; AtKey "template"; AtKey "spec";
   AtKey "containers"; AtIndex 0; AtKey "env"].

(** ** Sample cluster answers, used to run the model on concrete inputs *)

Module Sample.

Definition client : Client :=
  {| conf := {| Host := "https://10.0.0.1" |}; podRunTimeout := 30 * Minute; ingress := false |}.

Definition package : Package :=
  {| IsNotFound := λ err,
       match err with
       | Some (StatusError StatusReasonNotFound) => true
       | _ => false
       end;
     configMapSpec := λ namespace name data,
       {| ConfigMapName := name; ConfigMapNamespace := namespace; ConfigMapData := data |};
     deploySpecToK8sDeploy := λ d replicas,
       inl {| DeploymentName := DeployName d; SpecReplicas := replicas;
              DeploymentTemplate := DeployPod d; StatusReplicas := 0 |};
     cronJobSpecToK8sCronJob := λ j,
       inl {| JobName := CronJobName j; JobSchedule := CronJobSchedule j;
              JobTemplate := CronJobPod j |};
     podSpecToK8sPod := λ p,
       inl {| PodNamespace := SpecNamespace p; PodName := SpecName p;
              Status := {| Phase := ""; ContainerStatuses := [] |} |} |}.

Definition podSpec : PodSpec :=
  {| SpecNamespace := "myapp"; SpecName := "release-myapp-1";
     SpecImage := "luizalabs/slugrunner"; SpecArgs := ["start"; "release"] |}.

Definition deploySpec : DeploySpec :=
  {| DeployNamespace := "myapp"; DeployName := "myapp"; DeployPod := podSpec |}.

Definition podIn (st : PodStatus) : Pod :=
  {| PodNamespace := "myapp"; PodName := "release-myapp-1"; Status := st |}.

Definition pending : PodStatus := {| Phase := PodPending; ContainerStatuses := [] |}.

Definition running : PodStatus :=
  {| Phase := PodRunning;
     ContainerStatuses := [{| ContainerName := "release-myapp-1"; Terminated := None |}] |}.

Definition ended (phase : PodPhase) (code : Z) : PodStatus :=
  {| Phase := phase;
     ContainerStatuses :=
       [{| ContainerName := "release-myapp-1";
           Terminated := Some {| ExitCode := code; Reason := "Completed" |} |}] |}.

(** A terminal phase reported while no container status shows a terminated
    state. *)
Definition endedUnreported (phase : PodPhase) : PodStatus :=
  {| Phase := phase;
     ContainerStatuses := [{| ContainerName := "release-myapp-1"; Terminated := None |}] |}.

(** A cluster whose successive pod reads follow [script] (and repeat its last
    entry), whose log endpoint answers [logs], whose deployment read answers
    [live], and whose [Update] answers [updated]. *)
Definition world (script : list PodStatus) (logs : LogStream + error)
    (live : Deployment + error) (updated : option error) : World :=
  {| newForConfig := λ _, None;
     timerTicks := λ interval timeout, Z.to_nat (timeout / interval);
     now := "2017-10-02 15:04:05.000000000 -0300 -03";
     apiUpdate := λ _, updated;
     apiCreate := λ _, None;
     apiPatch := λ _ _ _ _ _, None;
     deploymentsGet := λ _ _, live;
     podsCreate := λ _ p, inl p;
     podsGet := λ n _ _, inl (podIn (default (default pending (last script)) (script !! n)));
     podLogs := λ _ _ _, logs |}.

Definition liveDeployment (replicas : Z) : Deployment + error :=
  inl {| DeploymentName := "myapp"; SpecReplicas := replicas;
         DeploymentTemplate := podSpec; StatusReplicas := replicas |}.

Definition notFound : error := StatusError StatusReasonNotFound.

(** A run that prints two chunks and exits with code 0: pending, then running
    for two reads, then succeeded. *)
Definition helloWorld : World :=
  world [pending; running; running; ended PodSucceeded 0]
        (inl {| chunks := ["hello"; "world"] |}) (liveDeployment 3) None.

(** A pod that fails before it runs. *)
Definition failedStart : World :=
  world [pending; pending; endedUnreported PodFailed]
        (inl {| chunks := ["never read"] |}) (liveDeployment 3) None.

(** A pod reported as succeeded while its container shows no terminated
    state. *)
Definition unreported : World :=
  world [running; endedUnreported PodSucceeded]
        (inl {| chunks := ["done"] |}) (liveDeployment 3) None.

(** A namespace without a deployment: the read and the update answer
    not-found. *)
Definition fresh : World :=
  world [] (inr (ErrOther "no pod")) (inr notFound) (Some notFound).

(** A cluster that refuses the update. *)
Definition forbidden : World :=
  world [] (inr (ErrOther "no pod")) (liveDeployment 2)
        (Some (StatusError StatusReasonForbidden)).

(** A deployment whose status reports no replica. *)
Definition scaledToZero : World :=
  world [] (inr (ErrOther "no pod")) (liveDeployment 0) None.

(** A service's stored annotations, and annotations a caller supplies. *)
Definition storedAnnotations : gmap string string :=
  {[ "service.beta.kubernetes.io/aws-load-balancer-ssl-cert" := "arn:aws:acm:cert" ]}.

Definition suppliedAnnotations : gmap string string :=
  {[ "teresa.io/owner" := "team-a" ]}.

(** A pod that runs and then fails with exit code 137. *)
Definition killed : World :=
  world [pending; running; ended PodFailed 137]
        (inl {| chunks := [] |}) (liveDeployment 3) None.

(** A pod that starts, prints one chunk and then runs for ever. *)
Definition hanging : World :=
  world [pending; running] (inl {| chunks := ["tick"] |}) (liveDeployment 3) None.

(** A client without run timeout, as [newInClusterK8sClient] builds it. *)
Definition inCluster : Client :=
  {| conf := {| Host := "https://10.0.0.1" |}; podRunTimeout := 0; ingress := true |}.

(** A caller that copies the pipe to its own output while it waits for the
    exit code. *)
Definition attentive : Consumer := {| pipeReader := ReadsAll; receives := true |}.

(** A caller that reads the pipe up to the end of the stream before it
    receives from the channel. *)
Definition eofFirst : Consumer := {| pipeReader := ReadsAll; receives := false |}.

(** A caller that reads one chunk, closes the read end and waits for the
    exit code. *)
Definition hasty : Consumer := {| pipeReader := ClosesAfter 1; receives := true |}.

(** A caller that reads one chunk and goes away. *)
Definition gone : Consumer := {| pipeReader := StopsAfter 1; receives := false |}.

End Sample.

(** ** Further functions of [client.go] *)

Definition patchDeployReplicasTmpl (replicas : Z) : JSON :=
  JObject [("spec", JObject [("replicas", JNumber replicas)])].

Definition DeploySetReplicas (W : World) (k : Client) (namespace name : string)
    (replicas : Z) : M (option error) :=
  match buildClient W k with
  | inr err => mret (Some err)
  | inl _ =>
      let data := patchDeployReplicasTmpl replicas in
      err ← call (ApiPatch ExtensionsDeployments namespace name StrategicMergePatchType data)
                 (apiPatch W ExtensionsDeployments namespace name StrategicMergePatchType data);
      mret (Wrap err "patch deploy failed")
  end.

(** Where an env-var patch carries its time stamp and its change cause. *)
Definition datePath : list Step :=
  [AtKey "spec"; AtKey "template"; AtKey "metadata"; AtKey "annotations"; AtKey "date"].

Definition changeCausePath : list Step :=
  [AtKey "metadata"; AtKey "annotations"; AtKey "kubernetes.io/change-cause"].

(** The entry a set patch carries for a variable. *)
Definition setEntry (ev : AppEnvVar) : JSON :=
  JObject [("name", JString (Key ev)); ("value", JString (Value ev))].

(** *** Namespaces, nodes, services, ingresses and autoscalers *)

(** [k8sv1.Namespace]: a Go map that may be [nil] is an option. *)
Record Namespace := {
  NamespaceName : string;
  Labels : option (gmap string string);
  Annotations : option (gmap string string)
}.

Record Node := {
  ProviderID : string
}.

Record LoadBalancerIngress := {
  IP : string;
  Hostname : string
}.

(** [k8sv1.Service], as far as [AddressList] reads it. *)
Record Service := {
  ServiceName : string;
  Ingress : list LoadBalancerIngress
}.

(** [k8sv1.ContainerStatus], as far as [PodList] reads it: the reasons of the
    waiting and terminated states when these are set, whether the running
    state is set, the restart count and the readiness. *)
Record ContainerView := {
  WaitingReason : option string;
  TerminatedReason : option string;
  IsRunning : bool;
  RestartCount : Z;
  IsReady : bool
}.

(** An item of a pod list: name, start time if set, container statuses. *)
Record PodItem := {
  ItemName : string;
  StartTime : option Z;
  ItemStatuses : list ContainerView
}.

(** [app.Pod]. *)
Record AppPod := {
  Name : string;
  Age : Z;
  State : string;
  Restarts : Z;
  Ready : bool
}.

(** [app.Status]. *)
Record AppStatus := {
  CPU : Z;
  Pods : list AppPod
}.

(** The further calls, in program order. *)
Inductive Call :=
| NamespacesGet (name : string)
| NamespacesUpdate (ns : Namespace)
| NamespacesList (labelSelector : string)
| NodesList (labelSelector : string)
| ServicesGet (namespace name : string)
| ServicesCreate (namespace : string) (manifest : JSON)
| ServicesList (namespace : string)
| IngressesGet (namespace name : string)
| IngressesCreate (namespace : string) (manifest : JSON)
| AutoscalersGet (namespace name : string)
| PodsList (namespace : string)
| Fprintln (line : string).              (* fmt.Fprintln(w, line) *)

(** The answers of the cluster to these calls.  An autoscaler is answered
    with its manifest and the current CPU utilisation of its status, if set;
    the object a failed read returns beside its error has no status.  A
    service read is answered with its error only, the one part [hasService]
    looks at. *)
Record Cluster := {
  namespacesGet : string → Namespace + error;
  namespacesUpdate : Namespace → option error;
  namespacesList : string → list Namespace + error;
  nodesList : string → list Node + error;
  servicesGet : string → string → option error;
  servicesCreate : string → JSON → option error;
  servicesList : string → list Service + error;
  ingressesGet : string → string → option error;
  ingressesCreate : string → JSON → option error;
  autoscalersGet : string → string → (HorizontalPodAutoscaler * option Z) + error
}.

(** The manifest builders of the package that are declared outside
    [client.go]; a manifest is the document it encodes to. *)
Record Builders := {
  serviceSpec : string → string → string → JSON;
  ingressSpec : string → string → string → JSON
}.

(** A computation that returns a value and the calls it made. *)
Definition Log (A : Type) : Type := (A * list Call)%type.

#[global] Instance Log_ret : MRet Log := λ A a, (a, []).

#[global] Instance Log_bind : MBind Log := λ A B f m,
  (fst (f (fst m)), snd m ++ snd (f (fst m))).

Definition ask {A : Type} (c : Call) (answer : A) : Log A := (answer, [c]).

(** How a Go function ends: it returns its error, or it panics. *)
Inductive Finish :=
| Returns (err : option error)
| Panics.

(** [m[key]] on a Go map: the zero value for a missing key, and for every key
    of the [nil] map. *)
Definition mapIndex (m : option (gmap string string)) (key : string) : string :=
  default "" (m ≫= (λ entries, entries !! key)).

(** [for key, value := range src { target[key] = value }], one entry after
    the other: an assignment to an entry of the [nil] map panics ([None]). *)
Fixpoint assignEach (entries : list (string * string)) (target : option (gmap string string))
    : option (option (gmap string string)) :=
  match entries with
  | [] => Some target
  | (key, value) :: rest =>
      match target with
      | None => None
      | Some t => assignEach rest (Some (<[key := value]> t))
      end
  end.

(** [strings.Index]: the byte index of the first occurrence, or -1. *)
Definition strings_Index (s substr : string) : Z :=
  match String.index 0 substr s with
  | Some n => Z.of_nat n
  | None => -1
  end.

(** The state text [PodList] takes from one container status. *)
Definition stateOf (status : ContainerView) : string :=
  match WaitingReason status with
  | Some reason => reason
  | None =>
      match TerminatedReason status with
      | Some reason => reason
      | None => if IsRunning status then "Running" else ""
      end
  end.

(** The loop of [PodList] over the container statuses of one pod, with its
    [break]. *)
Fixpoint scanStatuses (statuses : list ContainerView) (p : AppPod) : AppPod :=
  match statuses with
  | [] => p
  | status :: rest =>
      let p1 :=
        match WaitingReason status with
        | Some reason =>
            {| Name := Name p; Age := Age p; State := reason;
               Restarts := Restarts p; Ready := Ready p |}
        | None =>
            match TerminatedReason status with
            | Some reason =>
                {| Name := Name p; Age := Age p; State := reason;
                   Restarts := Restarts p; Ready := Ready p |}
            | None =>
                if IsRunning status then
                  {| Name := Name p; Age := Age p; State := "Running";
                     Restarts := Restarts p; Ready := Ready p |}
                else p
            end
        end in
      let p2 := {| Name := Name p1; Age := Age p1; State := State p1;
                   Restarts := RestartCount status; Ready := IsReady status |} in
      if bool_decide (State p2 ≠ "") then p2 else scanStatuses rest p2
  end.

Section MoreModel.

Context (W : World) (P : Package) (C : Cluster) (B : Builders).

Definition getNamespace (k : Client) (namespace : string) : Log (Namespace + error) :=
  match buildClient W k with
  | inr err => mret (inr err)
  | inl _ =>
      r ← ask (NamespacesGet namespace) (namespacesGet C namespace);
      match r with
      | inr err => mret (inr err)
      | inl ns => mret (inl ns)
      end
  end.

Definition NamespaceAnnotation (k : Client) (namespace annotation : string)
    : Log (string * option error) :=
  r ← getNamespace k namespace;
  match r with
  | inr err => mret ("", Some (Wrapped err "get annotation failed"))
  | inl ns => mret (mapIndex (Annotations ns) annotation, None)
  end.

Definition NamespaceLabel (k : Client) (namespace label : string)
    : Log (string * option error) :=
  r ← getNamespace k namespace;
  match r with
  | inr err => mret ("", Some (Wrapped err "get label failed"))
  | inl ns => mret (mapIndex (Labels ns) label, None)
  end.

Definition SetNamespaceAnnotations (k : Client) (namespace : string)
    (annotations : gmap string string) : Log Finish :=
  match buildClient W k with
  | inr err => mret (Returns (Some err))
  | inl _ =>
      r ← getNamespace k namespace;
      match r with
      | inr err => mret (Returns (Some err))
      | inl ns =>
          match assignEach (map_to_list annotations) (Annotations ns) with
          | None => mret Panics
          | Some merged =>
              let ns' := {| NamespaceName := NamespaceName ns; Labels := Labels ns;
                            Annotations := merged |} in
              err ← ask (NamespacesUpdate ns') (namespacesUpdate C ns');
              mret (Returns err)
          end
      end
  end.

Definition SetNamespaceLabels (k : Client) (namespace : string)
    (labels : gmap string string) : Log Finish :=
  match buildClient W k with
  | inr err => mret (Returns (Some err))
  | inl _ =>
      r ← getNamespace k namespace;
      match r with
      | inr err => mret (Returns (Some err))
      | inl ns =>
          match assignEach (map_to_list labels) (Labels ns) with
          | None => mret Panics
          | Some merged =>
              let ns' := {| NamespaceName := NamespaceName ns; Labels := merged;
                            Annotations := Annotations ns |} in
              err ← ask (NamespacesUpdate ns') (namespacesUpdate C ns');
              mret (Returns err)
          end
      end
  end.

Definition NamespaceListByLabel (k : Client) (label value : string)
    : Log (option (list string) * option error) :=
  match buildClient W k with
  | inr err => mret (None, Some err)
  | inl _ =>
      let labelSelector :=
        if bool_decide (value = "") then label else label +:+ "=" +:+ value in
      r ← ask (NamespacesList labelSelector) (namespacesList C labelSelector);
      match r with
      | inr err => mret (None, Some err)
      | inl items => mret (Some (NamespaceName <$> items), None)
      end
  end.

Definition CloudProviderName (c : Client) : Log (string * option error) :=
  match buildClient W c with
  | inr err => mret ("", Some err)
  | inl _ =>
      let ls := "kubernetes.io/role=master" in
      r ← ask (NodesList ls) (nodesList C ls);
      match r with
      | inr err => mret ("", Some (Wrapped err "node list failed"))
      | inl [] => mret ("", Some (ErrOther "empty cluster"))
      | inl (first :: _) =>
          let id := ProviderID first in
          let idx := strings_Index id "://" in
          if (idx <=? 0)%Z then mret ("", Some (ErrOther "invalid provider id"))
          else mret (String.substring 0 (Z.to_nat idx) id, None)
      end
  end.

(** An [app.Address] is written as its one field, the host name. *)
Definition AddressList (k : Client) (namespace : string)
    : Log (option (list string) * option error) :=
  match buildClient W k with
  | inr err => mret (None, Some err)
  | inl _ =>
      r ← ask (ServicesList namespace) (servicesList C namespace);
      match r with
      | inr err => mret (None, Some (Wrapped err "get addr list failed"))
      | inl srvs =>
          mret (Some (srv ← srvs;
                      (λ i, if bool_decide (Hostname i = "") then IP i else Hostname i)
                        <$> Ingress srv), None)
      end
  end.

Definition Autoscale_ (k : Client) (namespace : string)
    : Log (option Autoscale * option error) :=
  match buildClient W k with
  | inr err => mret (None, Some err)
  | inl _ =>
      r ← ask (AutoscalersGet namespace namespace) (autoscalersGet C namespace namespace);
      match r with
      | inr err =>
          if IsNotFound P (Some err) then mret (None, None)
          else mret (None, Some (Wrapped err "get autoscale failed"))
      | inl (hpa, _) =>
          let cpu := default 0 (TargetCPUUtilizationPercentage hpa) in
          let min := default 0 (MinReplicas hpa) in
          mret (Some {| CPUTargetUtilization := cpu; Min := min; Max := MaxReplicas hpa |},
                None)
      end
  end.

Definition hasService (k : Client) (namespace appName : string) : Log (bool * option error) :=
  match buildClient W k with
  | inr err => mret (false, Some err)
  | inl _ =>
      err ← ask (ServicesGet namespace appName) (servicesGet C namespace appName);
      match err with
      | Some e =>
          if IsNotFound P err then mret (false, None)
          else mret (false, Some (Wrapped e "get service failed"))
      | None => mret (true, None)
      end
  end.

Definition createService (k : Client) (namespace appName svcType : string)
    : Log (option error) :=
  match buildClient W k with
  | inr err => mret (Some err)
  | inl _ =>
      let srvSpec := serviceSpec B namespace appName svcType in
      err ← ask (ServicesCreate namespace srvSpec) (servicesCreate C namespace srvSpec);
      mret (Wrap err "create service failed")
  end.

Definition HasIngress (k : Client) (namespace appName : string) : Log (bool * option error) :=
  match buildClient W k with
  | inr err => mret (false, Some err)
  | inl _ =>
      err ← ask (IngressesGet namespace appName) (ingressesGet C namespace appName);
      match err with
      | Some e =>
          if IsNotFound P err then mret (false, None)
          else mret (false, Some (Wrapped e "get ingress failed"))
      | None => mret (true, None)
      end
  end.

Definition createIngress (k : Client) (namespace appName vHost : string)
    : Log (option error) :=
  match buildClient W k with
  | inr err => mret (Some err)
  | inl _ =>
      let igsSpec := ingressSpec B namespace appName vHost in
      err ← ask (IngressesCreate namespace igsSpec) (ingressesCreate C namespace igsSpec);
      mret (Wrap err "create ingress failed")
  end.

Definition ExposeDeploy (k : Client) (namespace appName vHost svcType : string)
    : Log (option error) :=
  r ← hasService k namespace appName;
  match r with
  | (_, Some err) => mret (Some err)
  | (hasSrv, None) =>
      err ← (if negb hasSrv then
               ask (Fprintln "Exposing service") tt;;
               createService k namespace appName svcType
             else mret None);
      match err with
      | Some e => mret (Some e)
      | None =>
          if negb (ingress k) then mret None
          else
            r ← HasIngress k namespace appName;
            match r with
            | (_, Some err) => mret (Some err)
            | (hasIgs, None) =>
                if negb hasIgs then
                  ask (Fprintln "Creating ingress") tt;;
                  createIngress k namespace appName vHost
                else mret None
            end
      end
  end.

End MoreModel.

(** *** Pod lists *)

Section Pods.

(** [app.PodListOptions], the list options of the API and the converter
    between them are declared outside [client.go]; [time.Since] reads the
    clock. *)
Context {PodListOptions K8sListOptions : Type}
        (appPodListOptsToK8s : PodListOptions → K8sListOptions)
        (noOptions : PodListOptions)
        (podsList : string → K8sListOptions → list PodItem + error)
        (since : Z → Z).
Context (W : World) (P : Package) (C : Cluster).

(** The body of the outer loop of [PodList]. *)
Definition appPodOf (pod : PodItem) : AppPod :=
  let p := {| Name := ItemName pod; Age := 0; State := ""; Restarts := 0; Ready := false |} in
  let p := match StartTime pod with
           | Some t => {| Name := Name p; Age := since t; State := State p;
                          Restarts := Restarts p; Ready := Ready p |}
           | None => p
           end in
  scanStatuses (ItemStatuses pod) p.

Definition PodList (k : Client) (namespace : string) (opts : PodListOptions)
    : Log (option (list AppPod) * option error) :=
  match buildClient W k with
  | inr err => mret (None, Some err)
  | inl _ =>
      let k8sOpts := appPodListOptsToK8s opts in
      r ← ask (PodsList namespace) (podsList namespace k8sOpts);
      match r with
      | inr err => mret (None, Some err)
      | inl items => mret (Some (appPodOf <$> items), None)
      end
  end.

Definition Status_ (k : Client) (namespace : string) : Log (option AppStatus * option error) :=
  match buildClient W k with
  | inr err => mret (None, Some err)
  | inl _ =>
      r ← PodList k namespace noOptions;
      match r with
      | (_, Some err) => mret (None, Some (Wrapped err "get status failed"))
      | (pods, None) =>
          h ← ask (AutoscalersGet namespace namespace) (autoscalersGet C namespace namespace);
          match h with
          | inr err =>
              if negb (IsNotFound P (Some err))
              then mret (None, Some (Wrapped err "get status failed"))
              else mret (Some {| CPU := -1; Pods := default [] pods |}, None)
          | inl (_, current) =>
              mret (Some {| CPU := default (-1) current; Pods := default [] pods |}, None)
          end
      end
  end.

End Pods.

(** ** Further sample answers *)

Module More.

Definition ns (labels annotations : option (gmap string string)) : Namespace :=
  {| NamespaceName := "myapp"; Labels := labels; Annotations := annotations |}.

Definition builders : Builders :=
  {| serviceSpec := λ namespace appName svcType,
       JObject [("metadata", JObject [("name", JString appName);
                                      ("namespace", JString namespace)]);
                ("spec", JObject [("type", JString svcType)])];
     ingressSpec := λ namespace appName vHost,
       JObject [("metadata", JObject [("name", JString appName);
                                      ("namespace", JString namespace)]);
                ("spec", JObject [("host", JString vHost)])] |}.

(** A cluster that holds the namespace [stored], whose first master node has
    the provider id [id], and that answers a service read with [service], an
    ingress read with [ingressAnswer] and an autoscaler read with [hpa]. *)
Definition cluster (stored : Namespace) (id : string) (service ingressAnswer : option error)
    (hpa : (HorizontalPodAutoscaler * option Z) + error) : Cluster :=
  {| namespacesGet := λ _, inl stored;
     namespacesUpdate := λ _, None;
     namespacesList := λ _, inl [stored];
     nodesList := λ _, inl [{| ProviderID := id |}; {| ProviderID := "gce://other" |}];
     servicesGet := λ _ _, service;
     servicesCreate := λ _ _, None;
     servicesList := λ _,
       inl [{| ServiceName := "myapp";
               Ingress := [{| IP := "10.1.2.3"; Hostname := "" |};
                           {| IP := "10.1.2.4"; Hostname := "lb.example.com" |}] |};
            {| ServiceName := "internal"; Ingress := [] |}];
     ingressesGet := λ _ _, ingressAnswer;
     ingressesCreate := λ _ _, None;
     autoscalersGet := λ _ _, hpa |}.

Definition noAutoscaler : (HorizontalPodAutoscaler * option Z) + error :=
  inr Sample.notFound.

Definition withIngress : Client :=
  {| conf := {| Host := "https://10.0.0.1" |}; podRunTimeout := 30 * Minute; ingress := true |}.

(** A cluster in which the third read of the pod fails. *)
Definition flaky : World :=
  {| newForConfig := λ _, None;
     timerTicks := λ interval timeout, Z.to_nat (timeout / interval);
     now := "2017-10-02 15:04:05.000000000 -0300 -03";
     apiUpdate := λ _, None;
     apiCreate := λ _, None;
     apiPatch := λ _ _ _ _ _, Some (StatusError StatusReasonForbidden);
     deploymentsGet := λ _ _, inr Sample.notFound;
     podsCreate := λ _ p, inl p;
     podsGet := λ n _ _,
       if bool_decide (n = 2%nat) then inr (ErrOther "connection refused")
       else inl (Sample.podIn Sample.pending);
     podLogs := λ _ _ _, inr (ErrOther "no logs") |}.

Definition crashLoop : ContainerView :=
  {| WaitingReason := Some "CrashLoopBackOff"; TerminatedReason := Some "Error";
     IsRunning := false; RestartCount := 12; IsReady := false |}.

Definition starting : ContainerView :=
  {| WaitingReason := None; TerminatedReason := None;
     IsRunning := false; RestartCount := 0; IsReady := false |}.

Definition serving : ContainerView :=
  {| WaitingReason := None; TerminatedReason := None;
     IsRunning := true; RestartCount := 1; IsReady := true |}.

(** A pod whose first container gives no state, whose second is waiting in a
    crash loop and whose third is running. *)
Definition podItems : list PodItem :=
  [{| ItemName := "myapp-5d8f-abcde"; StartTime := Some 100;
      ItemStatuses := [starting; crashLoop; serving] |};
   {| ItemName := "myapp-5d8f-fghij"; StartTime := None; ItemStatuses := [] |}].

Definition podsList (namespace : string) (opts : unit) : list PodItem + error :=
  inl podItems.

Definition since (t : Z) : Z := 1000 - t.

Definition app : App :=
  {| AppName := "myapp";
     AppAutoscale := {| CPUTargetUtilization := 70; Min := 2; Max := 10 |} |}.

End More.

(** ** Further vocabulary *)

(** The chunks written to the pipe, in order. *)
Definition written (events : list Event) : list string :=
  omap (λ e, match e with PipeWrite chunk => Some chunk | _ => None end) events.

(** The pods whose deletion was started. *)
Definition deletions (events : list Event) : list (string * string) :=
  omap (λ e, match e with GoDeletePod namespace name => Some (namespace, name) | _ => None end)
       events.

(** A call that concerns an ingress: its read, its creation, or the line that
    announces the creation. *)
Definition isIngressCall (c : Call) : bool :=
  match c with
  | IngressesGet _ _ | IngressesCreate _ _ => true
  | Fprintln line => bool_decide (line = "Creating ingress")
  | _ => false
  end.

(** The restart count and the readiness [PodList] is left with when no
    container status gives a state: those of the last status, if any. *)
Definition lastRestarts (statuses : list ContainerView) : Z :=
  default 0 (RestartCount <$> last statuses).

Definition lastReady (statuses : list ContainerView) : bool :=
  default false (IsReady <$> last statuses).

(** The address [AddressList] gives for one ingress point of a load
    balancer. *)
Definition addressOf (i : LoadBalancerIngress) : string :=
  if bool_decide (Hostname i = "") then IP i else Hostname i.

(** A phase on which a start-wait goes on polling. *)
Definition startPending (ph : PodPhase) : Prop :=
  ph ≠ PodFailed ∧ ph ≠ PodRunning ∧ ph ≠ PodSucceeded.

(** A phase on which an end-wait goes on polling. *)
Definition endPending (ph : PodPhase) : Prop :=
  ph ≠ PodSucceeded ∧ ph ≠ PodFailed.

(** * Properties *)

(** ** Running a computation *)

Lemma run_bind {A B : Type} (m : M A) (f : A → M B) (c : nat) :
  (m ≫= f) c =
  mkRes (val (f (val (m c)) (clk (m c)))) (clk (f (val (m c)) (clk (m c))))
        (evs (m c) ++ evs (f (val (m c)) (clk (m c)))).
Proof. reflexivity. Qed.

Lemma Res_eta {A : Type} (r : Res A) : r = mkRes (val r) (clk r) (evs r).
Proof. by destruct r. Qed.

(** ** The poller *)

Section Poller.

Context (W : World).

Lemma WaitFor_step ticks closes condition c :
  WaitFor ticks closes condition c =
  (let r := condition c in
   match val r with
   | (_, Some err) => mkRes (Returned (Some err)) (clk r) (evs r)
   | (true, None) => mkRes (Returned None) (clk r) (evs r)
   | (false, None) =>
       match ticks with
       | O => mkRes (if closes then Returned (Some ErrWaitTimeout) else Unfinished)
                (clk r) (evs r)
       | S n => mkRes (val (WaitFor n closes condition (clk r)))
                  (clk (WaitFor n closes condition (clk r)))
                  (evs r ++ evs (WaitFor n closes condition (clk r)))
       end
   end).
Proof.
  destruct ticks; cbn; unfold mbind, M_bind; cbn;
    destruct (val (condition c)) as [[] []]; cbn; by rewrite ?app_nil_r.
Qed.

Lemma PollImmediate_WaitFor interval timeout fuel condition c :
  PollImmediate W interval timeout fuel condition c =
  WaitFor (S (pollTicks W interval timeout fuel)) (negb (timeout =? 0)%Z) condition c.
Proof.
  rewrite WaitFor_step. unfold PollImmediate. rewrite run_bind.
  destruct (val (condition c)) as [[] []]; cbn; by rewrite ?app_nil_r.
Qed.

(** With a timeout the budget of a poll is the world's, whatever the fuel;
    without one it is the fuel. *)
Lemma pollTicks_timeout interval timeout fuel :
  timeout ≠ 0 →
  pollTicks W interval timeout fuel = timerTicks W interval timeout
  ∧ negb (timeout =? 0)%Z = true.
Proof.
  intros Ht. unfold pollTicks. by destruct (Z.eqb_spec timeout 0).
Qed.

Lemma pollTicks_unlimited interval fuel : pollTicks W interval 0 fuel = fuel.
Proof. reflexivity. Qed.

(** While the answers say "not yet" the poll reads again, up to the budget. *)
Lemma WaitFor_skip site namespace name answer condition closes :
  reads site namespace name answer condition →
  ∀ j ticks c,
    (j ≤ ticks)%nat →
    (∀ i, (i < j)%nat → notYet (answer (c + i)%nat)) →
    WaitFor ticks closes condition c =
    mkRes (val (WaitFor (ticks - j) closes condition (c + j)%nat))
          (clk (WaitFor (ticks - j) closes condition (c + j)%nat))
          (replicate j (PodsGet site namespace name)
             ++ evs (WaitFor (ticks - j) closes condition (c + j)%nat)).
Proof.
  intros Hc j. induction j as [|j IH]; intros ticks c Hj Hskip.
  - rewrite Nat.sub_0_r, Nat.add_0_r. cbn. apply Res_eta.
  - destruct ticks as [|ticks]; [lia|].
    rewrite WaitFor_step, Hc. cbn [val clk evs].
    pose proof (Hskip 0%nat ltac:(lia)) as H0. rewrite Nat.add_0_r in H0.
    rewrite H0.
    rewrite (IH ticks (S c)) by
      (try lia; intros i Hi; replace (S c + i)%nat with (c + S i)%nat by lia;
       apply Hskip; lia).
    cbn [val clk evs]. replace (S c + j)%nat with (c + S j)%nat by lia.
    reflexivity.
Qed.

(** The poll stops at the first answer that is an error or [true]. *)
Lemma WaitFor_decided site namespace name answer condition ticks closes c b err :
  reads site namespace name answer condition →
  answer c = (b, err) →
  (b = true ∨ err ≠ None) →
  WaitFor ticks closes condition c =
  mkRes (Returned err) (S c) [PodsGet site namespace name].
Proof.
  intros Hc Ha Hd. rewrite WaitFor_step, Hc. cbn [val clk evs]. rewrite Ha.
  destruct b, err as [e|]; try reflexivity.
  destruct Hd; congruence.
Qed.

(** A poll whose first [j] answers are "not yet" and whose next answer
    decides, within the budget, makes [S j] reads and returns that answer's
    error. *)
Lemma PollImmediate_decided site namespace name answer condition interval timeout fuel
    c j b err :
  reads site namespace name answer condition →
  (j ≤ S (pollTicks W interval timeout fuel))%nat →
  (∀ i, (i < j)%nat → notYet (answer (c + i)%nat)) →
  answer (c + j)%nat = (b, err) →
  (b = true ∨ err ≠ None) →
  PollImmediate W interval timeout fuel condition c =
  mkRes (Returned err) (c + S j)%nat (replicate (S j) (PodsGet site namespace name)).
Proof.
  intros Hc Hj Hskip Ha Hd. rewrite PollImmediate_WaitFor.
  rewrite (WaitFor_skip _ _ _ _ _ _ Hc j) by assumption.
  rewrite (WaitFor_decided _ _ _ _ _ _ _ _ _ _ Hc Ha Hd). cbn [val clk evs].
  f_equal; [lia|].
  replace (S j) with (j + 1)%nat by lia. by rewrite replicate_add.
Qed.

(** A poll whose every answer within the budget is "not yet" reads until the
    budget is spent: it then returns the timeout error if the poller closes
    its channel, and is still polling if it does not. *)
Lemma WaitFor_timeout site namespace name answer condition ticks closes c :
  reads site namespace name answer condition →
  (∀ i, (i ≤ ticks)%nat → notYet (answer (c + i)%nat)) →
  WaitFor ticks closes condition c
  = mkRes (if closes then Returned (Some ErrWaitTimeout) else Unfinished)
      (c + S ticks)%nat (replicate (S ticks) (PodsGet site namespace name)).
Proof.
  intros Hr Hskip.
  rewrite (WaitFor_skip _ _ _ _ _ _ Hr ticks) by (try lia; intros i Hi; apply Hskip; lia).
  rewrite Nat.sub_diag, WaitFor_step, Hr. cbn [val clk evs].
  pose proof (Hskip ticks ltac:(lia)) as Hlast. unfold notYet in Hlast.
  rewrite Hlast. cbn [val clk evs].
  replace (S ticks) with (ticks + 1)%nat at 2 by lia. rewrite replicate_add.
  f_equal. lia.
Qed.

(** Whatever the answers, a poll only reads the pod, at least once, and
    advances the counter by the number of its reads. *)
Lemma WaitFor_events site namespace name answer condition closes :
  reads site namespace name answer condition →
  ∀ ticks c, ∃ n,
    evs (WaitFor ticks closes condition c) = replicate (S n) (PodsGet site namespace name)
    ∧ clk (WaitFor ticks closes condition c) = (c + S n)%nat.
Proof.
  intros Hc ticks. induction ticks as [|ticks IH]; intros c;
    rewrite WaitFor_step, Hc; cbn [val clk evs].
  - exists 0%nat. destruct (answer c) as [[] []]; cbn; split; (reflexivity || lia).
  - destruct (answer c) as [[] []]; cbn [val clk evs];
      try (exists 0%nat; cbn; split; (reflexivity || lia)).
    destruct (IH (S c)) as (n & -> & ->). exists (S n). split; [reflexivity|lia].
Qed.

(** The reads of a poll never exceed its budget. *)
Lemma WaitFor_reads_bound site namespace name answer condition closes :
  reads site namespace name answer condition →
  ∀ ticks c, (clk (WaitFor ticks closes condition c) ≤ c + S ticks)%nat.
Proof.
  intros Hc ticks. induction ticks as [|ticks IH]; intros c;
    rewrite WaitFor_step, Hc; cbn [val clk evs].
  - destruct (answer c) as [[] []]; cbn; lia.
  - destruct (answer c) as [[] []]; cbn [val clk evs]; try lia.
    specialize (IH (S c)). lia.
Qed.

(** A poll whose poller closes its channel returns. *)
Lemma WaitFor_returns condition ticks c :
  ∃ err, val (WaitFor ticks true condition c) = Returned err.
Proof.
  revert c. induction ticks as [|ticks IH]; intros c; rewrite WaitFor_step; cbn zeta;
    destruct (val (condition c)) as [[] []]; cbn [val]; eauto.
Qed.

(** A poll that is still polling has spent its budget on reads. *)
Lemma WaitFor_unfinished site namespace name answer condition closes :
  reads site namespace name answer condition →
  ∀ ticks c,
    val (WaitFor ticks closes condition c) = Unfinished →
    closes = false ∧ clk (WaitFor ticks closes condition c) = (c + S ticks)%nat.
Proof.
  intros Hc ticks. induction ticks as [|ticks IH]; intros c;
    rewrite WaitFor_step, Hc; cbn [val clk evs].
  - destruct (answer c) as [[] []]; cbn [val clk]; try discriminate.
    destruct closes; [discriminate|]. intros _. split; [done|lia].
  - destruct (answer c) as [[] []]; cbn [val clk]; try discriminate.
    intros Hu. destruct (IH (S c) Hu) as (-> & ->). split; [done|lia].
Qed.

End Poller.

(** ** The two waits and the exit code *)

Section Waits.

Context (W : World).

Lemma waitPodStart_poll k pod checkInterval timeout fuel :
  newForConfig W (conf k) = None →
  ∃ condition,
    reads InWaitPodStart (PodNamespace pod) (PodName pod) (startAnswer W pod) condition
    ∧ waitPodStart W k pod checkInterval timeout fuel
      = PollImmediate W checkInterval timeout fuel condition.
Proof.
  intros Hk. unfold waitPodStart, buildClient. rewrite Hk.
  eexists. split; [|reflexivity].
  intros c. rewrite run_bind. unfold PodsGet_, startAnswer. cbn [val clk evs].
  destruct (podsGet W c _ _) as [p|err]; [|reflexivity].
  destruct (bool_decide (Phase (Status p) = PodFailed)); reflexivity.
Qed.

Lemma waitPodEnd_poll k pod checkInterval timeout fuel :
  newForConfig W (conf k) = None →
  ∃ condition,
    reads InWaitPodEnd (PodNamespace pod) (PodName pod) (endAnswer W pod) condition
    ∧ waitPodEnd W k pod checkInterval timeout fuel
      = PollImmediate W checkInterval timeout fuel condition.
Proof.
  intros Hk. unfold waitPodEnd, buildClient. rewrite Hk.
  eexists. split; [|reflexivity].
  intros c. rewrite run_bind. unfold PodsGet_, endAnswer. cbn [val clk evs].
  destruct (podsGet W c _ _) as [p|err]; reflexivity.
Qed.

(** A wait makes pod reads from its own site and nothing else. *)
Lemma waitPodStart_events k pod checkInterval timeout fuel c :
  ∃ n, evs (waitPodStart W k pod checkInterval timeout fuel c)
       = replicate n (PodsGet InWaitPodStart (PodNamespace pod) (PodName pod))
       ∧ clk (waitPodStart W k pod checkInterval timeout fuel c) = (c + n)%nat.
Proof.
  destruct (newForConfig W (conf k)) as [e|] eqn:Hk.
  - exists 0%nat. unfold waitPodStart, buildClient. rewrite Hk. cbn. split; [done|lia].
  - destruct (waitPodStart_poll k pod checkInterval timeout fuel Hk) as (cond & Hr & ->).
    rewrite PollImmediate_WaitFor.
    destruct (WaitFor_events _ _ _ _ _ (negb (timeout =? 0)%Z) Hr
                (S (pollTicks W checkInterval timeout fuel)) c) as (n & -> & ->).
    by exists (S n).
Qed.

Lemma waitPodEnd_events k pod checkInterval timeout fuel c :
  ∃ n, evs (waitPodEnd W k pod checkInterval timeout fuel c)
       = replicate n (PodsGet InWaitPodEnd (PodNamespace pod) (PodName pod))
       ∧ clk (waitPodEnd W k pod checkInterval timeout fuel c) = (c + n)%nat.
Proof.
  destruct (newForConfig W (conf k)) as [e|] eqn:Hk.
  - exists 0%nat. unfold waitPodEnd, buildClient. rewrite Hk. cbn. split; [done|lia].
  - destruct (waitPodEnd_poll k pod checkInterval timeout fuel Hk) as (cond & Hr & ->).
    rewrite PollImmediate_WaitFor.
    destruct (WaitFor_events _ _ _ _ _ (negb (timeout =? 0)%Z) Hr
                (S (pollTicks W checkInterval timeout fuel)) c) as (n & -> & ->).
    by exists (S n).
Qed.

(** The start-wait within its budget: [j] reads that show neither running nor
    a terminal phase, then a read that decides. *)
Lemma waitPodStart_decided k pod checkInterval timeout fuel c j b err :
  newForConfig W (conf k) = None →
  (j ≤ S (pollTicks W checkInterval timeout fuel))%nat →
  (∀ i, (i < j)%nat → notYet (startAnswer W pod (c + i)%nat)) →
  startAnswer W pod (c + j)%nat = (b, err) →
  (b = true ∨ err ≠ None) →
  waitPodStart W k pod checkInterval timeout fuel c =
  mkRes (Returned err) (c + S j)%nat
    (replicate (S j) (PodsGet InWaitPodStart (PodNamespace pod) (PodName pod))).
Proof.
  intros Hk Hj Hskip Ha Hd.
  destruct (waitPodStart_poll k pod checkInterval timeout fuel Hk) as (cond & Hr & ->).
  by eapply PollImmediate_decided.
Qed.

Lemma waitPodEnd_decided k pod checkInterval timeout fuel c j b err :
  newForConfig W (conf k) = None →
  (j ≤ S (pollTicks W checkInterval timeout fuel))%nat →
  (∀ i, (i < j)%nat → notYet (endAnswer W pod (c + i)%nat)) →
  endAnswer W pod (c + j)%nat = (b, err) →
  (b = true ∨ err ≠ None) →
  waitPodEnd W k pod checkInterval timeout fuel c =
  mkRes (Returned err) (c + S j)%nat
    (replicate (S j) (PodsGet InWaitPodEnd (PodNamespace pod) (PodName pod))).
Proof.
  intros Hk Hj Hskip Ha Hd.
  destruct (waitPodEnd_poll k pod checkInterval timeout fuel Hk) as (cond & Hr & ->).
  by eapply PollImmediate_decided.
Qed.

(** A wait with a timeout returns, and the fuel plays no part in it. *)
Lemma waitPodStart_returns k pod checkInterval timeout fuel c :
  timeout ≠ 0 →
  ∃ err, val (waitPodStart W k pod checkInterval timeout fuel c) = Returned err.
Proof.
  intros Ht. unfold waitPodStart. destruct (buildClient W k); [|by eexists].
  rewrite PollImmediate_WaitFor.
  destruct (pollTicks_timeout W checkInterval timeout fuel Ht) as (_ & ->).
  apply WaitFor_returns.
Qed.

Lemma waitPodEnd_returns k pod checkInterval timeout fuel c :
  timeout ≠ 0 →
  ∃ err, val (waitPodEnd W k pod checkInterval timeout fuel c) = Returned err.
Proof.
  intros Ht. unfold waitPodEnd. destruct (buildClient W k); [|by eexists].
  rewrite PollImmediate_WaitFor.
  destruct (pollTicks_timeout W checkInterval timeout fuel Ht) as (_ & ->).
  apply WaitFor_returns.
Qed.

Lemma waitPodStart_fuel k pod checkInterval timeout fuel fuel' :
  timeout ≠ 0 →
  waitPodStart W k pod checkInterval timeout fuel
  = waitPodStart W k pod checkInterval timeout fuel'.
Proof.
  intros Ht. unfold waitPodStart, PollImmediate.
  destruct (pollTicks_timeout W checkInterval timeout fuel Ht) as (-> & _).
  by destruct (pollTicks_timeout W checkInterval timeout fuel' Ht) as (-> & _).
Qed.

Lemma waitPodEnd_fuel k pod checkInterval timeout fuel fuel' :
  timeout ≠ 0 →
  waitPodEnd W k pod checkInterval timeout fuel
  = waitPodEnd W k pod checkInterval timeout fuel'.
Proof.
  intros Ht. unfold waitPodEnd, PollImmediate.
  destruct (pollTicks_timeout W checkInterval timeout fuel Ht) as (-> & _).
  by destruct (pollTicks_timeout W checkInterval timeout fuel' Ht) as (-> & _).
Qed.

(** The timeout of the start-wait of a run session is not 0. *)
Lemma startTimeout : (5 * Minute)%Z ≠ 0.
Proof. by vm_compute. Qed.

(** The copy writes the chunks its reader takes and comes to what
    [copyResult] says; it reads no pod. *)
Lemma io_Copy_run reader stream c :
  io_Copy reader stream c
  = mkRes (copyResult reader stream) c (PipeWrite <$> accepted reader stream).
Proof.
  revert reader c. induction stream as [|chunk rest IH]; intros reader c.
  - destruct reader as [|n|n]; cbn; try reflexivity.
    + rewrite bool_decide_eq_true_2 by lia. by rewrite take_nil.
    + rewrite bool_decide_eq_true_2 by lia. by rewrite take_nil.
  - destruct reader as [|[|n]|[|n]]; cbn [io_Copy]; try reflexivity;
      rewrite run_bind; cbn [emit val clk evs]; rewrite IH; cbn [val clk evs];
      unfold copyResult; cbn [length accepted take fmap list_fmap]; try reflexivity.
    + f_equal. destruct (decide (length rest ≤ n)%nat).
      * by rewrite !bool_decide_eq_true_2 by lia.
      * by rewrite !bool_decide_eq_false_2 by lia.
    + f_equal. destruct (decide (length rest ≤ n)%nat).
      * by rewrite !bool_decide_eq_true_2 by lia.
      * by rewrite !bool_decide_eq_false_2 by lia.
Qed.

Lemma PodLogs_run k namespace podName opts c :
  PodLogs W k namespace podName opts c =
  match newForConfig W (conf k) with
  | Some err => mkRes (inr (Wrapped err "create k8s client failed")) c []
  | None => mkRes (podLogs W namespace podName opts) c [PodLogsOpen namespace podName opts]
  end.
Proof. unfold PodLogs, buildClient. by destruct (newForConfig W (conf k)). Qed.

Lemma podExitCode_run k pod c :
  podExitCode W k pod c =
  match newForConfig W (conf k) with
  | Some err => mkRes (1, Some (Wrapped err "create k8s client failed")) c []
  | None =>
      mkRes (match podsGet W c (PodNamespace pod) (PodName pod) with
             | inr err => (1, Some err)
             | inl p => firstTerminated (ContainerStatuses (Status p))
             end)
            (S c) [PodsGet InPodExitCode (PodNamespace pod) (PodName pod)]
  end.
Proof.
  unfold podExitCode, buildClient. destruct (newForConfig W (conf k)); [reflexivity|].
  rewrite run_bind. unfold PodsGet_. cbn [val clk evs].
  by destruct (podsGet W c _ _).
Qed.

(** [firstTerminated] on a list without a terminated state, and on a list
    whose first terminated state is known. *)
Lemma firstTerminated_none statuses :
  Forall (λ s, Terminated s = None) statuses →
  firstTerminated statuses = (1, Some ErrPodStillRunning).
Proof.
  induction 1 as [|s rest Hs _ IH]; [reflexivity|]. cbn. by rewrite Hs.
Qed.

Lemma firstTerminated_some before s state after :
  Forall (λ s, Terminated s = None) before →
  Terminated s = Some state →
  firstTerminated (before ++ s :: after) = (ExitCode state, None).
Proof.
  induction 1 as [|s' rest Hs' _ IH]; intros Hs; cbn.
  - by rewrite Hs.
  - rewrite Hs'. by apply IH.
Qed.

End Waits.

(** ** The run session *)

Section Session.

Context (W : World) (P : Package).

(** The goroutine of [PodRun], phase by phase. *)
Lemma PodRun_go_run k podSpec pod consumer fuel c :
  PodRun_go W k podSpec pod consumer fuel c =
  let ws := waitPodStart W k pod (1 * Second) (5 * Minute) fuel c in
  match val ws with
  | Unfinished => mkRes Unfinished (clk ws) (evs ws)
  | Returned (Some e) =>
      mkRes (Returned (StartFailed e)) (clk ws) (evs ws ++ [PipeClose; ChanClose])
  | Returned None =>
      let pl := PodLogs W k (SpecNamespace podSpec) (SpecName podSpec) runLogOptions (clk ws) in
      match val pl with
      | inr e =>
          mkRes (Returned (LogsFailed e)) (clk pl) (evs ws ++ evs pl ++ [PipeClose; ChanClose])
      | inl stream =>
          let copied := PipeWrite <$> accepted (pipeReader consumer) (chunks stream) in
          match copyResult (pipeReader consumer) (chunks stream) with
          | Unfinished => mkRes Unfinished (clk pl) (evs ws ++ evs pl ++ copied)
          | Returned _ =>
              let we := waitPodEnd W k pod (3 * Second) (podRunTimeout k) fuel (clk pl) in
              match val we with
              | Unfinished =>
                  mkRes Unfinished (clk we) (evs ws ++ evs pl ++ copied ++ evs we)
              | Returned (Some e) =>
                  mkRes (Returned (EndFailed e)) (clk we)
                    (evs ws ++ evs pl ++ copied ++ evs we ++ [PipeClose; ChanClose])
              | Returned None =>
                  let ec := podExitCode W k pod (clk we) in
                  match val ec with
                  | (_, Some e) =>
                      mkRes (Returned (ExitCodeFailed e)) (clk ec)
                        (evs ws ++ evs pl ++ copied ++ evs we ++ evs ec
                           ++ [PipeClose; ChanClose])
                  | (exitCode, None) =>
                      if receives consumer then
                        mkRes (Returned (Delivered exitCode)) (clk ec)
                          (evs ws ++ evs pl ++ copied ++ evs we ++ evs ec
                             ++ [ChanSend exitCode;
                                 GoDeletePod (PodNamespace pod) (PodName pod);
                                 PipeClose; ChanClose])
                      else
                        mkRes Unfinished (clk ec)
                          (evs ws ++ evs pl ++ copied ++ evs we ++ evs ec)
                  end
              end
          end
      end
  end.
Proof.
  unfold PodRun_go. rewrite run_bind. rewrite (run_bind (waitPodStart _ _ _ _ _ _)).
  cbn zeta. destruct (val (waitPodStart W k pod (1 * Second) (5 * Minute) fuel c)) as [[e|]|].
  { cbn. by rewrite ?app_nil_r. }
  2:{ cbn. by rewrite ?app_nil_r. }
  rewrite (run_bind (PodLogs _ _ _ _ _)). fold runLogOptions.
  destruct (val (PodLogs W k _ _ runLogOptions _)) as [stream|e].
  2:{ cbn. by rewrite app_nil_r, <- ?app_assoc. }
  rewrite (run_bind (io_Copy _ _)), io_Copy_run. cbn [val clk evs].
  destruct (copyResult (pipeReader consumer) (chunks stream)) as [copied|].
  2:{ cbn. by rewrite ?app_nil_r, <- ?app_assoc. }
  rewrite (run_bind (waitPodEnd _ _ _ _ _ _)).
  destruct (val (waitPodEnd W k pod (3 * Second) (podRunTimeout k) fuel _)) as [[e|]|].
  { cbn. by rewrite app_nil_r, <- ?app_assoc. }
  2:{ cbn. by rewrite ?app_nil_r, <- ?app_assoc. }
  rewrite (run_bind (podExitCode _ _ _)).
  destruct (val (podExitCode W k pod _)) as [code [e|]].
  { cbn. by rewrite app_nil_r, <- ?app_assoc. }
  destruct (receives consumer).
  - cbn. by rewrite <- ?app_assoc.
  - cbn. by rewrite ?app_nil_r, <- ?app_assoc.
Qed.

(** How far the goroutine gets is decided by its calls, in order: the
    start-wait, the log call, the copy, the end-wait, the exit-code read and
    the send.  It returns at the first of the waits, the log call and the
    exit-code read that returns an error, and after the send; it does not
    return while a wait is still polling, the copy is blocked or the exit
    code is not received. *)
Lemma PodRun_go_outcome k podSpec pod consumer fuel c :
  let ws := waitPodStart W k pod (1 * Second) (5 * Minute) fuel c in
  let pl := PodLogs W k (SpecNamespace podSpec) (SpecName podSpec) runLogOptions (clk ws) in
  let we := waitPodEnd W k pod (3 * Second) (podRunTimeout k) fuel (clk ws) in
  let ec := podExitCode W k pod (clk we) in
  val (PodRun_go W k podSpec pod consumer fuel c)
  = match val ws with
    | Unfinished => Unfinished
    | Returned (Some e) => Returned (StartFailed e)
    | Returned None =>
        match val pl with
        | inr e => Returned (LogsFailed e)
        | inl stream =>
            match val (io_Copy (pipeReader consumer) (chunks stream) (clk ws)) with
            | Unfinished => Unfinished
            | Returned _ =>
                match val we with
                | Unfinished => Unfinished
                | Returned (Some e) => Returned (EndFailed e)
                | Returned None =>
                    match val ec with
                    | (_, Some e) => Returned (ExitCodeFailed e)
                    | (exitCode, None) =>
                        if receives consumer then Returned (Delivered exitCode)
                        else Unfinished
                    end
                end
            end
        end
    end.
Proof.
  rewrite PodRun_go_run. cbn zeta.
  destruct (val (waitPodStart W k pod (1 * Second) (5 * Minute) fuel c)) as [[e|]|];
    [done| |done].
  assert (Hclk : clk (PodLogs W k (SpecNamespace podSpec) (SpecName podSpec) runLogOptions
                        (clk (waitPodStart W k pod (1 * Second) (5 * Minute) fuel c)))
                 = clk (waitPodStart W k pod (1 * Second) (5 * Minute) fuel c)).
  { rewrite PodLogs_run. by destruct (newForConfig W (conf k)). }
  rewrite Hclk.
  destruct (val (PodLogs W k _ _ runLogOptions _)) as [stream|]; [|done].
  rewrite io_Copy_run. cbn [val].
  destruct (copyResult (pipeReader consumer) (chunks stream)); [|done].
  destruct (val (waitPodEnd W k pod (3 * Second) (podRunTimeout k) fuel _)) as [[e|]|];
    [done| |done].
  destruct (val (podExitCode W k pod _)) as [code [e|]]; [done|].
  by destruct (receives consumer).
Qed.

(** On every path the events of the goroutine have the shape of
    [sessionEvents]: start-wait reads, at most one log call, the chunks the
    reader took, end-wait reads, at most one exit-code read, the delivery, and
    the two closes if the goroutine has returned. *)
Lemma PodRun_go_shape k podSpec pod consumer fuel c :
  ∃ nStart logs written nEnd nExit,
    evs (PodRun_go W k podSpec pod consumer fuel c)
    = sessionEvents pod nStart logs written nEnd nExit
        (val (PodRun_go W k podSpec pod consumer fuel c))
    ∧ (logs = []
       ∨ logs = [PodLogsOpen (SpecNamespace podSpec) (SpecName podSpec) runLogOptions])
    ∧ (logs = [] → written = [] ∧ nEnd = 0%nat).
Proof.
  rewrite PodRun_go_run. cbn zeta.
  destruct (waitPodStart_events W k pod (1 * Second) (5 * Minute) fuel c) as (n1 & E1 & C1).
  remember (waitPodStart W k pod (1 * Second) (5 * Minute) fuel c) as ws eqn:Hws. clear Hws.
  destruct ws as [v1 c1 e1]. cbn [val clk evs] in *. subst.
  destruct v1 as [[e|]|].
  { exists n1, [], [], 0%nat, 0%nat. cbn. eauto. }
  2:{ exists n1, [], [], 0%nat, 0%nat. unfold sessionEvents; cbn; rewrite ?app_nil_r. eauto. }
  rewrite PodLogs_run. destruct (newForConfig W (conf k)) as [e|] eqn:Hk; cbn [val clk evs].
  { exists n1, [], [], 0%nat, 0%nat. cbn. eauto. }
  destruct (podLogs W _ _ runLogOptions) as [stream|e].
  2:{ exists n1, [PodLogsOpen (SpecNamespace podSpec) (SpecName podSpec) runLogOptions],
        [], 0%nat, 0%nat. cbn. split; [done|]. split; [by right|done]. }
  destruct (copyResult (pipeReader consumer) (chunks stream)) as [copied|].
  2:{ exists n1, [PodLogsOpen (SpecNamespace podSpec) (SpecName podSpec) runLogOptions],
        (accepted (pipeReader consumer) (chunks stream)), 0%nat, 0%nat.
      unfold sessionEvents; cbn; rewrite ?app_nil_r. split; [done|]. split; [by right|done]. }
  destruct (waitPodEnd_events W k pod (3 * Second) (podRunTimeout k) fuel (c + n1)%nat)
    as (n2 & E2 & C2).
  remember (waitPodEnd W k pod (3 * Second) (podRunTimeout k) fuel (c + n1)%nat) as we eqn:Hwe.
  clear Hwe. destruct we as [v2 c2 e2]. cbn [val clk evs] in *. subst.
  destruct v2 as [[e|]|].
  { exists n1, [PodLogsOpen (SpecNamespace podSpec) (SpecName podSpec) runLogOptions],
      (accepted (pipeReader consumer) (chunks stream)), n2, 0%nat.
    cbn. split; [done|]. split; [by right|done]. }
  2:{ exists n1, [PodLogsOpen (SpecNamespace podSpec) (SpecName podSpec) runLogOptions],
        (accepted (pipeReader consumer) (chunks stream)), n2, 0%nat.
      unfold sessionEvents; cbn; rewrite ?app_nil_r. split; [done|]. split; [by right|done]. }
  rewrite podExitCode_run, Hk. cbn [val clk evs].
  exists n1, [PodLogsOpen (SpecNamespace podSpec) (SpecName podSpec) runLogOptions],
    (accepted (pipeReader consumer) (chunks stream)), n2, 1%nat.
  split; [|split; [by right|done]].
  destruct (match podsGet W _ _ _ with inl _ => _ | inr _ => _ end) as [code [e|]];
    [reflexivity|].
  destruct (receives consumer); [reflexivity|]. unfold sessionEvents; cbn; by rewrite ?app_nil_r.
Qed.

(** A successful [PodRun] has created the pod and started the goroutine. *)
Lemma PodRun_started k podSpec consumer fuel c out :
  val (PodRun W P k podSpec consumer fuel c) = inl out →
  ∃ podYaml pod,
    podSpecToK8sPod P podSpec = inl podYaml
    ∧ podsCreate W (SpecNamespace podSpec) podYaml = inl pod
    ∧ out = val (PodRun_go W k podSpec pod consumer fuel c)
    ∧ evs (PodRun W P k podSpec consumer fuel c)
      = PodsCreate (SpecNamespace podSpec) podYaml
        :: evs (PodRun_go W k podSpec pod consumer fuel c).
Proof.
  unfold PodRun. destruct (buildClient W k); [|discriminate].
  destruct (podSpecToK8sPod P podSpec) as [podYaml|] eqn:Hy; [|discriminate].
  rewrite run_bind. unfold call. cbn [val clk evs].
  destruct (podsCreate W (SpecNamespace podSpec) podYaml) as [pod|] eqn:Hp; [|discriminate].
  rewrite run_bind. cbn [val clk evs mret M_ret]. intros [= <-].
  exists podYaml, pod. rewrite app_nil_r. repeat split; done.
Qed.

Lemma PodRun_run k podSpec consumer fuel c podYaml pod :
  newForConfig W (conf k) = None →
  podSpecToK8sPod P podSpec = inl podYaml →
  podsCreate W (SpecNamespace podSpec) podYaml = inl pod →
  PodRun W P k podSpec consumer fuel c =
  mkRes (inl (val (PodRun_go W k podSpec pod consumer fuel c)))
        (clk (PodRun_go W k podSpec pod consumer fuel c))
        (PodsCreate (SpecNamespace podSpec) podYaml
         :: evs (PodRun_go W k podSpec pod consumer fuel c)).
Proof.
  intros Hk Hy Hp. unfold PodRun, buildClient. rewrite Hk, Hy.
  rewrite run_bind. unfold call. cbn [val clk evs]. rewrite Hp.
  rewrite run_bind. cbn [val clk evs mret M_ret]. by rewrite app_nil_r.
Qed.

(** With a run timeout, the fuel plays no part in a session. *)
Lemma PodRun_go_fuel k podSpec pod consumer fuel fuel' :
  podRunTimeout k ≠ 0 →
  PodRun_go W k podSpec pod consumer fuel = PodRun_go W k podSpec pod consumer fuel'.
Proof.
  intros Ht. unfold PodRun_go.
  rewrite (waitPodStart_fuel W k _ _ _ fuel fuel' startTimeout).
  by rewrite (waitPodEnd_fuel W k _ _ _ fuel fuel' Ht).
Qed.

Lemma PodRun_fuel k podSpec consumer fuel fuel' c :
  podRunTimeout k ≠ 0 →
  PodRun W P k podSpec consumer fuel c = PodRun W P k podSpec consumer fuel' c.
Proof.
  intros Ht. unfold PodRun.
  destruct (buildClient W k); [|done].
  destruct (podSpecToK8sPod P podSpec) as [podYaml|]; [|done].
  rewrite !run_bind. unfold call. cbn [val clk evs].
  destruct (podsCreate W (SpecNamespace podSpec) podYaml) as [pod|]; [|done].
  by rewrite (PodRun_go_fuel k podSpec pod consumer fuel fuel' Ht).
Qed.

End Session.

(** ** Facts about event lists *)

Lemma sends_app l1 l2 : sends (l1 ++ l2) = sends l1 ++ sends l2.
Proof. apply omap_app. Qed.

Lemma sends_replicate_get n site namespace name :
  sends (replicate n (PodsGet site namespace name)) = [].
Proof. induction n; [done|]. cbn. apply IHn. Qed.

Lemma sends_copied written : sends (PipeWrite <$> written) = [].
Proof. induction written; [done|]. cbn. apply IHwritten. Qed.

Lemma written_app l1 l2 : written (l1 ++ l2) = written l1 ++ written l2.
Proof. apply omap_app. Qed.

Lemma written_replicate_get n site namespace name :
  written (replicate n (PodsGet site namespace name)) = [].
Proof. induction n; [done|]. cbn. apply IHn. Qed.

Lemma written_copied stream : written (PipeWrite <$> stream) = stream.
Proof. induction stream as [|chunk rest IH]; [done|]. cbn. by rewrite <- IH at 2. Qed.

Lemma deletions_app l1 l2 : deletions (l1 ++ l2) = deletions l1 ++ deletions l2.
Proof. apply omap_app. Qed.

Lemma deletions_replicate_get n site namespace name :
  deletions (replicate n (PodsGet site namespace name)) = [].
Proof. induction n; [done|]. cbn. apply IHn. Qed.

Lemma deletions_copied stream : deletions (PipeWrite <$> stream) = [].
Proof. induction stream; [done|]. cbn. done. Qed.

Lemma Forall_copied (Q : Event → Prop) written :
  (∀ chunk, Q (PipeWrite chunk)) → Forall Q (PipeWrite <$> written).
Proof. intros HQ. apply Forall_fmap, Forall_forall. intros; apply HQ. Qed.

(** In a list split in two, an element found only in the second part comes
    after an element found only in the first. *)
Lemma split_order (l1 l2 : list Event) (inFirst inSecond : Event → bool) i j x y :
  Forall (λ e, inSecond e = false) l1 →
  Forall (λ e, inFirst e = false) l2 →
  (l1 ++ l2) !! i = Some x → inSecond x = true →
  (l1 ++ l2) !! j = Some y → inFirst y = true →
  (j < i)%nat.
Proof.
  intros H1 H2 Hi Hx Hj Hy.
  destruct (decide (i < length l1)%nat) as [Hlt|Hge].
  - rewrite lookup_app_l in Hi by done.
    rewrite Forall_lookup in H1. specialize (H1 _ _ Hi). congruence.
  - destruct (decide (j < length l1)%nat) as [Hlt'|Hge']; [lia|].
    rewrite lookup_app_r in Hj by lia.
    rewrite Forall_lookup in H2. specialize (H2 _ _ Hj). congruence.
Qed.

Lemma closedAtEnd_cons e events :
  isClose e = false → closedAtEnd events → closedAtEnd (e :: events).
Proof.
  intros He (body & -> & Hbody). exists (e :: body). split; [done|]. by constructor.
Qed.

(** A list that is closed at its end holds a close; one that is not closed
    holds none. *)
Lemma closedAtEnd_not_open events : closedAtEnd events → ¬ notClosed events.
Proof.
  intros (body & -> & _) Hopen. apply Forall_app in Hopen as (_ & Hopen).
  by inversion Hopen.
Qed.

(** ** The events of a session, by how far its goroutine got *)

Section SessionEvents.

Context (W : World) (P : Package).

(** The part of the goroutine's events that is neither delivery nor close. *)
Lemma PodRun_go_split k podSpec pod consumer fuel c :
  ∃ calls,
    evs (PodRun_go W k podSpec pod consumer fuel c)
    = calls ++ delivery pod (val (PodRun_go W k podSpec pod consumer fuel c))
        ++ closing (val (PodRun_go W k podSpec pod consumer fuel c))
    ∧ sends calls = [] ∧ deletions calls = [] ∧ notClosed calls.
Proof.
  destruct (PodRun_go_shape W k podSpec pod consumer fuel c)
    as (n1 & logs & copied & n2 & n3 & -> & Hlogs & _).
  unfold sessionEvents.
  exists (replicate n1 (PodsGet InWaitPodStart (PodNamespace pod) (PodName pod))
          ++ logs ++ (PipeWrite <$> copied)
          ++ replicate n2 (PodsGet InWaitPodEnd (PodNamespace pod) (PodName pod))
          ++ replicate n3 (PodsGet InPodExitCode (PodNamespace pod) (PodName pod))).
  split; [by rewrite <- !app_assoc|].
  rewrite !sends_app, !deletions_app, !sends_replicate_get, !deletions_replicate_get,
    sends_copied, deletions_copied.
  assert (sends logs = [] ∧ deletions logs = [] ∧ notClosed logs) as (-> & -> & Hl)
    by (destruct Hlogs as [->| ->]; repeat split; by repeat constructor).
  split; [done|]. split; [done|]. unfold notClosed.
  repeat (apply Forall_app; split); try done;
    (by apply Forall_replicate) || (by apply Forall_copied).
Qed.

Lemma PodRun_go_sends k podSpec pod consumer fuel c :
  sends (evs (PodRun_go W k podSpec pod consumer fuel c))
  = match val (PodRun_go W k podSpec pod consumer fuel c) with
    | Returned (Delivered exitCode) => [exitCode]
    | _ => []
    end.
Proof.
  destruct (PodRun_go_split k podSpec pod consumer fuel c) as (calls & -> & Hs & _).
  rewrite !sends_app, Hs.
  by destruct (val (PodRun_go W k podSpec pod consumer fuel c)) as [[]|].
Qed.

Lemma PodRun_go_deletions k podSpec pod consumer fuel c :
  deletions (evs (PodRun_go W k podSpec pod consumer fuel c))
  = match val (PodRun_go W k podSpec pod consumer fuel c) with
    | Returned (Delivered _) => [(PodNamespace pod, PodName pod)]
    | _ => []
    end.
Proof.
  destruct (PodRun_go_split k podSpec pod consumer fuel c) as (calls & -> & _ & Hd & _).
  rewrite !deletions_app, Hd.
  by destruct (val (PodRun_go W k podSpec pod consumer fuel c)) as [[]|].
Qed.

(** The closes are the last two events of a goroutine that has returned, and
    a goroutine that has not returned has closed nothing. *)
Lemma PodRun_go_closes k podSpec pod consumer fuel c :
  match val (PodRun_go W k podSpec pod consumer fuel c) with
  | Returned _ => closedAtEnd (evs (PodRun_go W k podSpec pod consumer fuel c))
  | Unfinished => notClosed (evs (PodRun_go W k podSpec pod consumer fuel c))
  end.
Proof.
  destruct (PodRun_go_split k podSpec pod consumer fuel c) as (calls & -> & _ & _ & Hc).
  destruct (val (PodRun_go W k podSpec pod consumer fuel c)) as [out|]; cbn [closing].
  - rewrite app_assoc. eexists. split; [reflexivity|].
    apply Forall_app. split; [done|]. destruct out; by repeat constructor.
  - cbn. by rewrite !app_nil_r.
Qed.


(** The events of a session, by how far its goroutine got. *)
Lemma PodRun_by_outcome k podSpec podYaml pod consumer fuel c :
  newForConfig W (conf k) = None →
  podSpecToK8sPod P podSpec = inl podYaml →
  podsCreate W (SpecNamespace podSpec) podYaml = inl pod →
  let events := evs (PodRun W P k podSpec consumer fuel c) in
  match val (PodRun_go W k podSpec pod consumer fuel c) with
  | Returned (Delivered exitCode) =>
      closedAtEnd events ∧ sends events = [exitCode]
      ∧ deletions events = [(PodNamespace pod, PodName pod)]
  | Returned _ => closedAtEnd events ∧ sends events = [] ∧ deletions events = []
  | Unfinished => notClosed events ∧ sends events = [] ∧ deletions events = []
  end.
Proof.
  intros Hk Hy Hp. cbn zeta.
  rewrite (PodRun_run W P k podSpec consumer fuel c podYaml pod Hk Hy Hp). cbn [evs].
  change (sends (?e :: ?l)) with (sends l).
  change (deletions (?e :: ?l)) with (deletions l).
  rewrite PodRun_go_sends, PodRun_go_deletions.
  pose proof (PodRun_go_closes k podSpec pod consumer fuel c) as Hc.
  destruct (val (PodRun_go W k podSpec pod consumer fuel c)) as [out|].
  - destruct out; (split; [by apply closedAtEnd_cons|done]).
  - split; [by constructor|done].
Qed.

Lemma PodRun_failed_events k podSpec consumer fuel c err :
  val (PodRun W P k podSpec consumer fuel c) = inr err →
  Forall (λ e, isPipeWrite e = false) (evs (PodRun W P k podSpec consumer fuel c)).
Proof.
  unfold PodRun. destruct (buildClient W k); [|by constructor].
  destruct (podSpecToK8sPod P podSpec) as [podYaml|]; [|by constructor].
  rewrite run_bind. unfold call. cbn [val clk evs].
  destruct (podsCreate W (SpecNamespace podSpec) podYaml) as [pod|].
  - rewrite run_bind. cbn [val clk evs mret M_ret]. discriminate.
  - intros _. cbn. by repeat constructor.
Qed.

(** Every chunk is written to the pipe before the end-wait makes its first
    read. *)
Lemma copy_then_end_wait k podSpec consumer fuel c i j x y :
  evs (PodRun W P k podSpec consumer fuel c) !! i = Some x → isEndRead x = true →
  evs (PodRun W P k podSpec consumer fuel c) !! j = Some y → isPipeWrite y = true →
  (j < i)%nat.
Proof.
  intros Hi Hx Hj Hy.
  destruct (val (PodRun W P k podSpec consumer fuel c)) as [out|err] eqn:Hv.
  - destruct (PodRun_started W P k podSpec consumer fuel c out Hv)
      as (podYaml & pod & _ & _ & _ & Hev).
    destruct (PodRun_go_shape W k podSpec pod consumer fuel c)
      as (n1 & logs & written & n2 & n3 & Hshape & Hlogs & _).
    rewrite Hev, Hshape in Hi, Hj. unfold sessionEvents in Hi, Hj.
    rewrite app_comm_cons, 2!app_assoc in Hi, Hj.
    eapply (split_order _ _ isPipeWrite isEndRead); [| |exact Hi|exact Hx|exact Hj|exact Hy].
    + rewrite <- !app_assoc, <- app_comm_cons. constructor; [done|].
      repeat (apply Forall_app; split).
      * by apply Forall_replicate.
      * destruct Hlogs as [->| ->]; by repeat constructor.
      * by apply Forall_copied.
    + repeat (apply Forall_app; split).
      * by apply Forall_replicate.
      * by apply Forall_replicate.
      * destruct (val (PodRun_go W k podSpec pod consumer fuel c)) as [[]|];
          by repeat constructor.
      * destruct (val (PodRun_go W k podSpec pod consumer fuel c)) as [[]|];
          by repeat constructor.
  - pose proof (PodRun_failed_events k podSpec consumer fuel c err Hv) as Hf.
    rewrite Forall_lookup in Hf. specialize (Hf _ _ Hj). congruence.
Qed.

End SessionEvents.

(** What a start-wait answers to a read that shows a phase. *)
Lemma startAnswer_phase W pod c ph :
  phaseAt W pod c = Some ph →
  startAnswer W pod c =
  if bool_decide (ph = PodFailed) then (true, Some ErrPodRunFailed)
  else (bool_decide (ph = PodRunning) || bool_decide (ph = PodSucceeded), None).
Proof.
  unfold phaseAt, startAnswer.
  destruct (podsGet W c _ _) as [p|]; [|discriminate]. by intros [= <-].
Qed.

Lemma endAnswer_phase W pod c ph :
  phaseAt W pod c = Some ph →
  endAnswer W pod c =
  (bool_decide (ph = PodSucceeded) || bool_decide (ph = PodFailed), None).
Proof.
  unfold phaseAt, endAnswer.
  destruct (podsGet W c _ _) as [p|]; [|discriminate]. by intros [= <-].
Qed.

Lemma startAnswer_pending W pod c ph :
  phaseAt W pod c = Some ph → startPending ph → notYet (startAnswer W pod c).
Proof.
  intros Hph (Hf & Hr & Hs). unfold notYet.
  rewrite (startAnswer_phase _ _ _ _ Hph). by rewrite !bool_decide_eq_false_2.
Qed.

Lemma endAnswer_pending W pod c ph :
  phaseAt W pod c = Some ph → endPending ph → notYet (endAnswer W pod c).
Proof.
  intros Hph (Hs & Hf). unfold notYet.
  rewrite (endAnswer_phase _ _ _ _ Hph). by rewrite !bool_decide_eq_false_2.
Qed.

Lemma startAnswer_error W pod c err :
  podsGet W c (PodNamespace pod) (PodName pod) = inr err →
  startAnswer W pod c = (false, Some err).
Proof. unfold startAnswer. by intros ->. Qed.

Lemma endAnswer_error W pod c err :
  podsGet W c (PodNamespace pod) (PodName pod) = inr err →
  endAnswer W pod c = (false, Some err).
Proof. unfold endAnswer. by intros ->. Qed.

(** * The claims *)

(** C1, as stated, fails: the pod of the sample run prints its two chunks and
    succeeds, every call of the goroutine returns without error and the exit
    code 0 is read, yet with a caller that reads the pipe up to the end of the
    stream before it receives from the channel, neither the pipe nor the
    channel is ever closed and no value is emitted: the goroutine is blocked
    in the send, which comes before the deferred closes. *)
Lemma PodRun_open_until_received :
  val (podExitCode Sample.helloWorld Sample.client (Sample.podIn Sample.pending) 4%nat)
  = (0, None)
  ∧ ∀ fuel,
      PodRun Sample.helloWorld Sample.package Sample.client Sample.podSpec
        Sample.eofFirst fuel 0%nat
      = mkRes (inl Unfinished) 5%nat
          [ PodsCreate "myapp" (Sample.podIn {| Phase := ""; ContainerStatuses := [] |});
            PodsGet InWaitPodStart "myapp" "release-myapp-1";
            PodsGet InWaitPodStart "myapp" "release-myapp-1";
            PodLogsOpen "myapp" "release-myapp-1" runLogOptions;
            PipeWrite "hello";
            PipeWrite "world";
            PodsGet InWaitPodEnd "myapp" "release-myapp-1";
            PodsGet InWaitPodEnd "myapp" "release-myapp-1";
            PodsGet InPodExitCode "myapp" "release-myapp-1" ]
      ∧ ¬ closedAtEnd
            (evs (PodRun Sample.helloWorld Sample.package Sample.client Sample.podSpec
                    Sample.eofFirst fuel 0%nat)).
Proof.
  split; [by vm_compute|]. intros fuel.
  assert (Hrun : PodRun Sample.helloWorld Sample.package Sample.client Sample.podSpec
                   Sample.eofFirst fuel 0%nat
                 = PodRun Sample.helloWorld Sample.package Sample.client Sample.podSpec
                     Sample.eofFirst 0%nat 0%nat)
    by (by apply PodRun_fuel).
  rewrite Hrun. split; [by vm_compute|].
  intros Hclosed. apply (closedAtEnd_not_open _ Hclosed).
  vm_compute. by repeat constructor.
Qed.

(** C1, amended. In every run session that [PodRun] starts, at most one value
    is sent on the completion channel, and the pipe and then the channel are
    closed when the goroutine returns, as its last two events and not
    before.  It returns, and so closes both without a value, when the
    start-wait, the log call, the end-wait or the exit-code read returns an
    error; on the success path it returns, and closes both after the one
    value, once the caller has received the exit code.  As long as it has not
    returned (the copy is blocked, the end-wait is still polling, or the
    caller does not receive) nothing is closed and no value is sent. *)
Theorem PodRun_closes_stream_and_channel W P k podSpec podYaml pod consumer fuel c :
  newForConfig W (conf k) = None →
  podSpecToK8sPod P podSpec = inl podYaml →
  podsCreate W (SpecNamespace podSpec) podYaml = inl pod →
  let ws := waitPodStart W k pod (1 * Second) (5 * Minute) fuel c in
  let logs := podLogs W (SpecNamespace podSpec) (SpecName podSpec) runLogOptions in
  let we := waitPodEnd W k pod (3 * Second) (podRunTimeout k) fuel (clk ws) in
  let ec := podExitCode W k pod (clk we) in
  let events := evs (PodRun W P k podSpec consumer fuel c) in
  (length (sends events) ≤ 1)%nat
  ∧ (closedAtEnd events ∨ notClosed events)
  ∧ (sends events ≠ [] → closedAtEnd events)
  ∧ (∀ e, val ws = Returned (Some e) → closedAtEnd events ∧ sends events = [])
  ∧ (val ws = Returned None →
     (∀ e, logs = inr e → closedAtEnd events ∧ sends events = [])
     ∧ (∀ stream, logs = inl stream →
        match val (io_Copy (pipeReader consumer) (chunks stream) (clk ws)) with
        | Unfinished => notClosed events ∧ sends events = []
        | Returned _ =>
            match val we with
            | Unfinished => notClosed events ∧ sends events = []
            | Returned (Some e) => closedAtEnd events ∧ sends events = []
            | Returned None =>
                match val ec with
                | (_, Some e) => closedAtEnd events ∧ sends events = []
                | (exitCode, None) =>
                    if receives consumer
                    then closedAtEnd events ∧ sends events = [exitCode]
                    else notClosed events ∧ sends events = []
                end
            end
        end)).
Proof.
  intros Hk Hy Hp ws logs we ec events.
  pose proof (PodRun_by_outcome W P k podSpec podYaml pod consumer fuel c Hk Hy Hp) as Hby.
  pose proof (PodRun_go_outcome W k podSpec pod consumer fuel c) as Hout.
  cbn zeta in Hby, Hout. rewrite PodLogs_run, Hk in Hout. cbn [val] in Hout.
  subst ws logs we ec events.
  assert (H123 :
    (length (sends (evs (PodRun W P k podSpec consumer fuel c))) ≤ 1)%nat
    ∧ (closedAtEnd (evs (PodRun W P k podSpec consumer fuel c))
       ∨ notClosed (evs (PodRun W P k podSpec consumer fuel c)))
    ∧ (sends (evs (PodRun W P k podSpec consumer fuel c)) ≠ []
       → closedAtEnd (evs (PodRun W P k podSpec consumer fuel c)))).
  { clear Hout.
    destruct (val (PodRun_go W k podSpec pod consumer fuel c)) as [[]|];
      destruct Hby as (Hc & Hs & _); rewrite Hs; repeat split; cbn; try lia; eauto; done. }
  destruct H123 as (H1 & H2 & H3). split; [done|]. split; [done|]. split; [done|].
  rewrite Hout in Hby. clear Hout. split.
  - intros e Hws. rewrite Hws in Hby. cbv beta iota in Hby.
    destruct Hby as (Hc & Hs & _). by split.
  - intros Hws. rewrite Hws in Hby. cbv beta iota in Hby. split.
    + intros e Hl. rewrite Hl in Hby. cbv beta iota in Hby.
      destruct Hby as (Hc & Hs & _). by split.
    + intros stream Hl. rewrite Hl in Hby. cbv beta iota in Hby.
      destruct (val (io_Copy (pipeReader consumer) (chunks stream) _)) as [r|];
        [|destruct Hby as (Hc & Hs & _); by split].
      destruct (val (waitPodEnd W k pod (3 * Second) (podRunTimeout k) fuel _)) as [[e|]|];
        [destruct Hby as (Hc & Hs & _); by split| |destruct Hby as (Hc & Hs & _); by split].
      destruct (val (podExitCode W k pod _)) as [code [e|]];
        [destruct Hby as (Hc & Hs & _); by split|].
      destruct (receives consumer); destruct Hby as (Hc & Hs & _); by split.
Qed.

Lemma PodRun_closes_stream_and_channel_witness :
  (closedAtEnd (evs (PodRun Sample.helloWorld Sample.package Sample.client Sample.podSpec
                       Sample.attentive 0%nat 0%nat))
   ∧ sends (evs (PodRun Sample.helloWorld Sample.package Sample.client Sample.podSpec
                   Sample.attentive 0%nat 0%nat)) = [0])
  ∧ (closedAtEnd (evs (PodRun Sample.failedStart Sample.package Sample.client Sample.podSpec
                         Sample.attentive 0%nat 0%nat))
     ∧ sends (evs (PodRun Sample.failedStart Sample.package Sample.client Sample.podSpec
                     Sample.attentive 0%nat 0%nat)) = []).
Proof.
  split.
  - pose proof (PodRun_closes_stream_and_channel
                  Sample.helloWorld Sample.package Sample.client Sample.podSpec
                  (Sample.podIn {| Phase := ""; ContainerStatuses := [] |})
                  (Sample.podIn {| Phase := ""; ContainerStatuses := [] |})
                  Sample.attentive 0%nat 0%nat eq_refl eq_refl eq_refl) as H.
    cbn zeta in H. destruct H as (_ & _ & _ & _ & H).
    destruct (H ltac:(by vm_compute)) as (_ & Hstream).
    exact (Hstream {| chunks := ["hello"; "world"] |} eq_refl).
  - pose proof (PodRun_closes_stream_and_channel
                  Sample.failedStart Sample.package Sample.client Sample.podSpec
                  (Sample.podIn {| Phase := ""; ContainerStatuses := [] |})
                  (Sample.podIn {| Phase := ""; ContainerStatuses := [] |})
                  Sample.attentive 0%nat 0%nat eq_refl eq_refl eq_refl) as H.
    cbn zeta in H. destruct H as (_ & _ & _ & H & _).
    apply (H ErrPodRunFailed). by vm_compute.
Defined.

(** The events of the sample run, in order. *)
Lemma helloWorld_events :
  evs (PodRun Sample.helloWorld Sample.package Sample.client Sample.podSpec
         Sample.attentive 0%nat 0%nat) =
  [ PodsCreate "myapp" (Sample.podIn {| Phase := ""; ContainerStatuses := [] |});
    PodsGet InWaitPodStart "myapp" "release-myapp-1";
    PodsGet InWaitPodStart "myapp" "release-myapp-1";
    PodLogsOpen "myapp" "release-myapp-1" runLogOptions;
    PipeWrite "hello";
    PipeWrite "world";
    PodsGet InWaitPodEnd "myapp" "release-myapp-1";
    PodsGet InWaitPodEnd "myapp" "release-myapp-1";
    PodsGet InPodExitCode "myapp" "release-myapp-1";
    ChanSend 0;
    GoDeletePod "myapp" "release-myapp-1";
    PipeClose;
    ChanClose ].
Proof. by vm_compute. Qed.

(** C2, as stated, fails: in the sample run the pod prints two chunks and the
    end-wait needs two reads, yet no chunk reaches the pipe once the end-wait
    has begun; the copy has returned before the end-wait starts. *)
Lemma copy_not_concurrent_with_end_wait :
  sends (evs (PodRun Sample.helloWorld Sample.package Sample.client Sample.podSpec
                Sample.attentive 0%nat 0%nat))
  = [0]
  ∧ ¬ copyDuringEndWait
        (evs (PodRun Sample.helloWorld Sample.package Sample.client Sample.podSpec
                Sample.attentive 0%nat 0%nat)).
Proof.
  split; [by vm_compute|].
  intros (i & j & namespace & name & chunk & Hij & Hi & Hj).
  pose proof (copy_then_end_wait _ _ _ _ _ _ _ _ _ _ _ Hi eq_refl Hj eq_refl). lia.
Qed.

(** C2, amended. In every run session the copy of the log stream to the pipe
    comes before the end-wait: every chunk is written before the first
    end-wait read, and none after it. *)
Theorem PodRun_copy_precedes_end_wait W P k podSpec consumer fuel c i j namespace name chunk :
  evs (PodRun W P k podSpec consumer fuel c) !! i
  = Some (PodsGet InWaitPodEnd namespace name) →
  evs (PodRun W P k podSpec consumer fuel c) !! j = Some (PipeWrite chunk) →
  (j < i)%nat.
Proof. intros Hi Hj. by eapply copy_then_end_wait. Qed.

Lemma PodRun_copy_precedes_end_wait_witness :
  evs (PodRun Sample.helloWorld Sample.package Sample.client Sample.podSpec
         Sample.attentive 0%nat 0%nat) !! 6%nat
  = Some (PodsGet InWaitPodEnd "myapp" "release-myapp-1")
  ∧ evs (PodRun Sample.helloWorld Sample.package Sample.client Sample.podSpec
           Sample.attentive 0%nat 0%nat) !! 5%nat
    = Some (PipeWrite "world")
  ∧ (5 < 6)%nat.
Proof.
  split; [by vm_compute|]. split; [by vm_compute|].
  apply (PodRun_copy_precedes_end_wait
           Sample.helloWorld Sample.package Sample.client Sample.podSpec
           Sample.attentive 0%nat 0%nat 6%nat 5%nat
           "myapp" "release-myapp-1" "world"); by vm_compute.
Defined.

(** C3. When the start-wait of a run session reads, within its budget, the
    failed phase after reads that showed neither running nor a terminal
    phase, [waitPodStart] returns [ErrPodRunFailed], which is not the poller's
    timeout error, right at that read; the goroutine ends there: the session
    makes no log call, copies nothing, makes no end-wait or exit-code read and
    sends nothing. *)
Theorem PodRun_failed_before_running W P k podSpec podYaml pod consumer fuel c j :
  newForConfig W (conf k) = None →
  podSpecToK8sPod P podSpec = inl podYaml →
  podsCreate W (SpecNamespace podSpec) podYaml = inl pod →
  (j ≤ S (timerTicks W (1 * Second)%Z (5 * Minute)%Z))%nat →
  (∀ i, (i < j)%nat →
        ∃ ph, phaseAt W pod (c + i)%nat = Some ph
              ∧ ph ≠ PodFailed ∧ ph ≠ PodRunning ∧ ph ≠ PodSucceeded) →
  phaseAt W pod (c + j)%nat = Some PodFailed →
  waitPodStart W k pod (1 * Second) (5 * Minute) fuel c
  = mkRes (Returned (Some ErrPodRunFailed)) (c + S j)%nat
      (replicate (S j) (PodsGet InWaitPodStart (PodNamespace pod) (PodName pod)))
  ∧ ErrPodRunFailed ≠ ErrWaitTimeout
  ∧ val (PodRun W P k podSpec consumer fuel c) = inl (Returned (StartFailed ErrPodRunFailed))
  ∧ evs (PodRun W P k podSpec consumer fuel c)
    = PodsCreate (SpecNamespace podSpec) podYaml
      :: replicate (S j) (PodsGet InWaitPodStart (PodNamespace pod) (PodName pod))
      ++ [PipeClose; ChanClose]
  ∧ Forall (λ e, isStreaming e = false) (evs (PodRun W P k podSpec consumer fuel c)).
Proof.
  intros Hk Hy Hp Hj Hbefore Hfailed.
  assert (Hws : waitPodStart W k pod (1 * Second) (5 * Minute) fuel c
    = mkRes (Returned (Some ErrPodRunFailed)) (c + S j)%nat
        (replicate (S j) (PodsGet InWaitPodStart (PodNamespace pod) (PodName pod)))).
  { apply waitPodStart_decided with (b := true); try done.
    - intros i Hi. destruct (Hbefore i Hi) as (ph & Hph & Hf & Hr & Hs).
      unfold notYet. rewrite (startAnswer_phase _ _ _ _ Hph).
      by rewrite !bool_decide_eq_false_2.
    - by rewrite (startAnswer_phase _ _ _ _ Hfailed).
    - by left. }
  assert (Hev : evs (PodRun W P k podSpec consumer fuel c)
    = PodsCreate (SpecNamespace podSpec) podYaml
      :: replicate (S j) (PodsGet InWaitPodStart (PodNamespace pod) (PodName pod))
      ++ [PipeClose; ChanClose]).
  { rewrite (PodRun_run W P k podSpec consumer fuel c podYaml pod Hk Hy Hp). cbn [evs].
    by rewrite PodRun_go_run, Hws. }
  split; [done|]. split; [done|]. split; [|split; [done|]].
  - rewrite (PodRun_run W P k podSpec consumer fuel c podYaml pod Hk Hy Hp). cbn [val].
    by rewrite PodRun_go_run, Hws.
  - rewrite Hev. constructor; [done|]. apply Forall_app. split.
    + by apply Forall_replicate.
    + by repeat constructor.
Qed.

Lemma PodRun_failed_before_running_witness :
  val (PodRun Sample.failedStart Sample.package Sample.client Sample.podSpec
         Sample.attentive 0%nat 0%nat)
  = inl (Returned (StartFailed ErrPodRunFailed))
  ∧ evs (PodRun Sample.failedStart Sample.package Sample.client Sample.podSpec
           Sample.attentive 0%nat 0%nat)
    = [ PodsCreate "myapp" (Sample.podIn {| Phase := ""; ContainerStatuses := [] |});
        PodsGet InWaitPodStart "myapp" "release-myapp-1";
        PodsGet InWaitPodStart "myapp" "release-myapp-1";
        PodsGet InWaitPodStart "myapp" "release-myapp-1";
        PipeClose; ChanClose ].
Proof.
  destruct (PodRun_failed_before_running
              Sample.failedStart Sample.package Sample.client Sample.podSpec
              (Sample.podIn {| Phase := ""; ContainerStatuses := [] |})
              (Sample.podIn {| Phase := ""; ContainerStatuses := [] |})
              Sample.attentive 0%nat 0%nat 2%nat)
    as (_ & _ & Hv & He & _).
  - reflexivity.
  - reflexivity.
  - reflexivity.
  - vm_compute. lia.
  - intros i Hi. exists PodPending.
    destruct i as [|[|i]]; [by vm_compute|by vm_compute|lia].
  - by vm_compute.
  - split; [exact Hv|exact He].
Defined.

(** C6. When the end-wait reads, within its budget, the succeeded or the
    failed phase after reads that showed neither, [waitPodEnd] returns no
    error at that very read; both phases end it.  On the same answers the
    start-wait, if the phase is failed and no earlier read showed running,
    returns [ErrPodRunFailed] instead.  The budget is the poller's when the
    wait has a timeout, and the fuel when it has none. *)
Theorem waitPodEnd_ends_on_succeeded_or_failed W k pod checkInterval timeout fuel c j ph :
  newForConfig W (conf k) = None →
  (j ≤ S (pollTicks W checkInterval timeout fuel))%nat →
  (∀ i, (i < j)%nat →
        ∃ q, phaseAt W pod (c + i)%nat = Some q ∧ q ≠ PodSucceeded ∧ q ≠ PodFailed) →
  phaseAt W pod (c + j)%nat = Some ph →
  ph = PodSucceeded ∨ ph = PodFailed →
  waitPodEnd W k pod checkInterval timeout fuel c
  = mkRes (Returned None) (c + S j)%nat
      (replicate (S j) (PodsGet InWaitPodEnd (PodNamespace pod) (PodName pod)))
  ∧ (ph = PodFailed →
     (∀ i, (i < j)%nat → phaseAt W pod (c + i)%nat ≠ Some PodRunning) →
     waitPodStart W k pod checkInterval timeout fuel c
     = mkRes (Returned (Some ErrPodRunFailed)) (c + S j)%nat
         (replicate (S j) (PodsGet InWaitPodStart (PodNamespace pod) (PodName pod)))).
Proof.
  intros Hk Hj Hbefore Hph Hterminal. split.
  - apply waitPodEnd_decided with (b := true); try done.
    + intros i Hi. destruct (Hbefore i Hi) as (q & Hq & Hs & Hf).
      unfold notYet. rewrite (endAnswer_phase _ _ _ _ Hq).
      by rewrite !bool_decide_eq_false_2.
    + rewrite (endAnswer_phase _ _ _ _ Hph). by destruct Hterminal as [-> | ->].
    + by left.
  - intros -> Hnorun. apply waitPodStart_decided with (b := true); try done.
    + intros i Hi. destruct (Hbefore i Hi) as (q & Hq & Hs & Hf).
      unfold notYet. rewrite (startAnswer_phase _ _ _ _ Hq).
      rewrite !bool_decide_eq_false_2; try done.
      intros ->. by apply (Hnorun i Hi).
    + by rewrite (startAnswer_phase _ _ _ _ Hph).
    + by left.
Qed.

Lemma waitPodEnd_ends_on_succeeded_or_failed_witness :
  waitPodEnd Sample.failedStart Sample.client (Sample.podIn Sample.pending)
    (3 * Second) (30 * Minute) 0%nat 0%nat
  = mkRes (Returned None) 3%nat (replicate 3 (PodsGet InWaitPodEnd "myapp" "release-myapp-1"))
  ∧ waitPodStart Sample.failedStart Sample.client (Sample.podIn Sample.pending)
      (3 * Second) (30 * Minute) 0%nat 0%nat
    = mkRes (Returned (Some ErrPodRunFailed)) 3%nat
        (replicate 3 (PodsGet InWaitPodStart "myapp" "release-myapp-1"))
  ∧ waitPodEnd Sample.failedStart Sample.inCluster (Sample.podIn Sample.pending)
      (3 * Second) 0 1%nat 0%nat
    = mkRes (Returned None) 3%nat
        (replicate 3 (PodsGet InWaitPodEnd "myapp" "release-myapp-1")).
Proof.
  destruct (waitPodEnd_ends_on_succeeded_or_failed
              Sample.failedStart Sample.client (Sample.podIn Sample.pending)
              (3 * Second) (30 * Minute) 0%nat 0%nat 2%nat PodFailed) as (He & Hs).
  - reflexivity.
  - vm_compute. lia.
  - intros i Hi. exists PodPending.
    destruct i as [|[|i]]; [by vm_compute|by vm_compute|lia].
  - by vm_compute.
  - by right.
  - split; [exact He|]. split.
    + apply Hs; [reflexivity|].
      intros i Hi. destruct i as [|[|i]]; [by vm_compute|by vm_compute|lia].
    + apply (waitPodEnd_ends_on_succeeded_or_failed
               Sample.failedStart Sample.inCluster (Sample.podIn Sample.pending)
               (3 * Second) 0 1%nat 0%nat 2%nat PodFailed).
      * reflexivity.
      * vm_compute. lia.
      * intros i Hi. exists PodPending.
        destruct i as [|[|i]]; [by vm_compute|by vm_compute|lia].
      * by vm_compute.
      * by right.
Defined.

(** C7. [podExitCode] on a pod whose container statuses show no terminated
    state returns [ErrPodStillRunning], and a run session whose exit-code read
    gets such a pod sends no value on the channel and, unless its copy is
    blocked, ends there; on a pod with a terminated state [podExitCode]
    returns the exit code of the first such state and no error. *)
Theorem podExitCode_terminated_or_still_running W k pod c p :
  newForConfig W (conf k) = None →
  podsGet W c (PodNamespace pod) (PodName pod) = inl p →
  (Forall (λ s, Terminated s = None) (ContainerStatuses (Status p)) →
   val (podExitCode W k pod c) = (1, Some ErrPodStillRunning)
   ∧ ∀ podSpec consumer fuel c0 stream,
       val (waitPodStart W k pod (1 * Second) (5 * Minute) fuel c0) = Returned None →
       podLogs W (SpecNamespace podSpec) (SpecName podSpec) runLogOptions = inl stream →
       val (waitPodEnd W k pod (3 * Second) (podRunTimeout k) fuel
              (clk (waitPodStart W k pod (1 * Second) (5 * Minute) fuel c0)))
       = Returned None →
       clk (waitPodEnd W k pod (3 * Second) (podRunTimeout k) fuel
              (clk (waitPodStart W k pod (1 * Second) (5 * Minute) fuel c0))) = c →
       sends (evs (PodRun_go W k podSpec pod consumer fuel c0)) = []
       ∧ (∀ r, val (io_Copy (pipeReader consumer) (chunks stream)
                      (clk (waitPodStart W k pod (1 * Second) (5 * Minute) fuel c0)))
               = Returned r →
               val (PodRun_go W k podSpec pod consumer fuel c0)
               = Returned (ExitCodeFailed ErrPodStillRunning)))
  ∧ (∀ before s state after,
       ContainerStatuses (Status p) = before ++ s :: after →
       Forall (λ s, Terminated s = None) before →
       Terminated s = Some state →
       val (podExitCode W k pod c) = (ExitCode state, None)).
Proof.
  intros Hk Hp. split.
  - intros Hnone.
    assert (Hec : val (podExitCode W k pod c) = (1, Some ErrPodStillRunning)).
    { rewrite podExitCode_run, Hk. cbn [val]. rewrite Hp. by apply firstTerminated_none. }
    split; [done|]. intros podSpec consumer fuel c0 stream Hws Hlogs Hwe Hclk.
    pose proof (PodRun_go_outcome W k podSpec pod consumer fuel c0) as Hout.
    cbn zeta in Hout. rewrite Hws, PodLogs_run, Hk in Hout. cbn [val] in Hout.
    rewrite Hlogs, Hwe, Hclk, Hec in Hout.
    split.
    + rewrite PodRun_go_sends, Hout.
      by destruct (val (io_Copy (pipeReader consumer) (chunks stream) _)).
    + intros r Hr. by rewrite Hout, Hr.
  - intros before s state after Hl Hbefore Hs.
    rewrite podExitCode_run, Hk. cbn [val]. rewrite Hp, Hl.
    by apply firstTerminated_some.
Qed.

Lemma podExitCode_terminated_or_still_running_witness :
  val (podExitCode Sample.unreported Sample.client (Sample.podIn Sample.pending) 2%nat)
  = (1, Some ErrPodStillRunning)
  ∧ val (PodRun_go Sample.unreported Sample.client Sample.podSpec
           (Sample.podIn Sample.pending) Sample.attentive 0%nat 0%nat)
    = Returned (ExitCodeFailed ErrPodStillRunning)
  ∧ sends (evs (PodRun_go Sample.unreported Sample.client Sample.podSpec
                  (Sample.podIn Sample.pending) Sample.attentive 0%nat 0%nat)) = []
  ∧ val (podExitCode Sample.killed Sample.client (Sample.podIn Sample.pending) 2%nat)
    = (137, None).
Proof.
  destruct (podExitCode_terminated_or_still_running
              Sample.unreported Sample.client (Sample.podIn Sample.pending) 2%nat
              (Sample.podIn (Sample.endedUnreported PodSucceeded)) eq_refl eq_refl)
    as (Hnone & _).
  destruct Hnone as (Hec & Hrun); [by repeat constructor|].
  destruct (Hrun Sample.podSpec Sample.attentive 0%nat 0%nat {| chunks := ["done"] |})
    as (Hsends & Hout); [by vm_compute..|].
  destruct (podExitCode_terminated_or_still_running
              Sample.killed Sample.client (Sample.podIn Sample.pending) 2%nat
              (Sample.podIn (Sample.ended PodFailed 137)) eq_refl eq_refl)
    as (_ & Hsome).
  split; [exact Hec|]. split; [exact (Hout None eq_refl)|]. split; [exact Hsends|].
  exact (Hsome [] {| ContainerName := "release-myapp-1";
                     Terminated := Some {| ExitCode := 137; Reason := "Completed" |} |}
           {| ExitCode := 137; Reason := "Completed" |} [] eq_refl (Forall_nil_2 _) eq_refl).
Defined.

(** ** Create or update *)

Lemma currentPodReplicasFromDeploy_run W k namespace appName c :
  newForConfig W (conf k) = None →
  currentPodReplicasFromDeploy W k namespace appName c
  = mkRes (match deploymentsGet W namespace appName with
           | inl d => if (StatusReplicas d <? 1)%Z then 1 else StatusReplicas d
           | inr _ => 1
           end) c [DeploymentsGet namespace appName].
Proof.
  intros Hk. unfold currentPodReplicasFromDeploy, buildClient. rewrite Hk.
  rewrite run_bind. unfold call. cbn [val clk evs].
  destruct (deploymentsGet W namespace appName) as [d|]; [|reflexivity].
  by destruct (StatusReplicas d <? 1)%Z.
Qed.

Lemma CreateOrUpdateDeploy_run W P k deploySpec c :
  newForConfig W (conf k) = None →
  CreateOrUpdateDeploy W P k deploySpec c
  = let get := DeploymentsGet (DeployNamespace deploySpec) (DeployName deploySpec) in
    let replicas :=
      val (currentPodReplicasFromDeploy W k (DeployNamespace deploySpec)
             (DeployName deploySpec) c) in
    match deploySpecToK8sDeploy P deploySpec replicas with
    | inr err => mkRes (Some err) c [get]
    | inl deployYaml =>
        let r := RDeployment (DeployNamespace deploySpec) deployYaml in
        if IsNotFound P (apiUpdate W r)
        then mkRes (apiCreate W r) c [get; ApiUpdate r; ApiCreate r]
        else mkRes (apiUpdate W r) c [get; ApiUpdate r]
    end.
Proof.
  intros Hk. unfold CreateOrUpdateDeploy. unfold buildClient at 1. rewrite Hk.
  rewrite run_bind, (currentPodReplicasFromDeploy_run W k _ _ c Hk). cbn [val clk evs].
  destruct (deploySpecToK8sDeploy P deploySpec _) as [deployYaml|err]; [|reflexivity].
  rewrite run_bind. unfold call. cbn [val clk evs].
  by destruct (IsNotFound P (apiUpdate W _)).
Qed.

(** C4. Each of the five create-or-update operations ends in one of three
    ways: it fails before any call to the store (no client, or no manifest);
    or its only write is an update whose answer is not a not-found error, and
    it returns that answer as it is; or its writes are an update answered by
    a not-found error followed by a create of the same manifest, and it
    returns the answer of the create.  So no create comes without an update
    before it, and a create is made exactly when the update was answered by
    not-found. *)
Theorem reconcile_update_first_create_on_not_found W P k op c :
  (writes (evs (reconcile W P k op c)) = []
   ∧ ∃ err, val (reconcile W P k op c) = Some err ∧ failedLocally W P k op err)
  ∨ (∃ r, writes (evs (reconcile W P k op c)) = [ApiUpdate r]
          ∧ IsNotFound P (apiUpdate W r) = false
          ∧ val (reconcile W P k op c) = apiUpdate W r)
  ∨ (∃ r, writes (evs (reconcile W P k op c)) = [ApiUpdate r; ApiCreate r]
          ∧ IsNotFound P (apiUpdate W r) = true
          ∧ val (reconcile W P k op c) = apiCreate W r).
Proof.
  destruct (newForConfig W (conf k)) as [e|] eqn:Hk.
  { left. destruct op; cbn [reconcile];
      unfold CreateOrUpdateSecret, CreateOrUpdateAutoscale, CreateOrUpdateConfigMap,
        CreateOrUpdateDeploy, CreateOrUpdateCronJob, buildClient; rewrite Hk;
      (split; [reflexivity|]); eexists; (split; [reflexivity|]); left; eauto. }
  destruct op as [namespace secretName data|a|namespace name data|deploySpec|cronJobSpec];
    cbn [reconcile].
  - unfold CreateOrUpdateSecret, buildClient. rewrite Hk, run_bind. unfold call.
    cbn [val clk evs].
    destruct (IsNotFound P (apiUpdate W _)) eqn:Hnf; right; [right|left];
      eexists; (split; [reflexivity|]); by split.
  - unfold CreateOrUpdateAutoscale, buildClient. rewrite Hk, run_bind. unfold call.
    cbn [val clk evs].
    destruct (IsNotFound P (apiUpdate W _)) eqn:Hnf; right; [right|left];
      eexists; (split; [reflexivity|]); by split.
  - unfold CreateOrUpdateConfigMap, buildClient. rewrite Hk, run_bind. unfold call.
    cbn [val clk evs].
    destruct (IsNotFound P (apiUpdate W _)) eqn:Hnf; right; [right|left];
      eexists; (split; [reflexivity|]); by split.
  - rewrite (CreateOrUpdateDeploy_run W P k deploySpec c Hk). cbn zeta.
    destruct (deploySpecToK8sDeploy P deploySpec _) as [deployYaml|err] eqn:Hy.
    + destruct (IsNotFound P (apiUpdate W _)) eqn:Hnf; right; [right|left];
        eexists; (split; [reflexivity|]); by split.
    + left. split; [reflexivity|]. exists err. split; [reflexivity|]. right. eauto.
  - unfold CreateOrUpdateCronJob, buildClient. rewrite Hk.
    destruct (cronJobSpecToK8sCronJob P cronJobSpec) as [cronJobYaml|err] eqn:Hy.
    + rewrite run_bind. unfold call. cbn [val clk evs].
      destruct (IsNotFound P (apiUpdate W _)) eqn:Hnf; right; [right|left];
        eexists; (split; [reflexivity|]); by split.
    + left. split; [reflexivity|]. exists err. split; [reflexivity|]. by right.
Qed.

(** The two store answers on a sample: not-found leads to a create of the
    same manifest; a refusal is returned as it is and nothing is created. *)
Lemma reconcile_fresh_creates :
  CreateOrUpdateDeploy Sample.fresh Sample.package Sample.client Sample.deploySpec 0%nat
  = let deployYaml := {| DeploymentName := "myapp"; SpecReplicas := 1;
                         DeploymentTemplate := Sample.podSpec; StatusReplicas := 0 |} in
    mkRes None 0%nat
      [ DeploymentsGet "myapp" "myapp";
        ApiUpdate (RDeployment "myapp" deployYaml);
        ApiCreate (RDeployment "myapp" deployYaml) ].
Proof. by vm_compute. Qed.

Lemma reconcile_forbidden_surfaces :
  CreateOrUpdateDeploy Sample.forbidden Sample.package Sample.client Sample.deploySpec 0%nat
  = mkRes (Some (StatusError StatusReasonForbidden)) 0%nat
      [ DeploymentsGet "myapp" "myapp";
        ApiUpdate (RDeployment "myapp"
                     {| DeploymentName := "myapp"; SpecReplicas := 2;
                        DeploymentTemplate := Sample.podSpec; StatusReplicas := 0 |}) ].
Proof. by vm_compute. Qed.

(** C5, as stated, fails: the deployment is live and its status reports 0
    replicas; the read succeeds, yet the manifest is converted for 1 replica
    and not for the live count. *)
Lemma CreateOrUpdateDeploy_live_zero_gets_one :
  deploymentsGet Sample.scaledToZero "myapp" "myapp" = Sample.liveDeployment 0
  ∧ appliedWith Sample.scaledToZero Sample.package Sample.client Sample.deploySpec 0%nat 1
  ∧ ¬ appliedWith Sample.scaledToZero Sample.package Sample.client Sample.deploySpec 0%nat 0.
Proof.
  split; [reflexivity|]. split.
  - unfold appliedWith. cbn. by exists [].
  - unfold appliedWith. cbn. intros (rest & Hrest). vm_compute in Hrest. discriminate.
Qed.

(** C5, amended. [CreateOrUpdateDeploy] first reads the live deployment and
    converts the manifest for a replica count taken from that read: the count
    the status reports when that is at least 1, and 1 when the status reports
    fewer than 1 replica; when the read fails, whatever the error, the
    manifest is converted for 1 replica. *)
Theorem CreateOrUpdateDeploy_seeds_replicas W P k deploySpec c :
  newForConfig W (conf k) = None →
  (∀ d, deploymentsGet W (DeployNamespace deploySpec) (DeployName deploySpec) = inl d →
        val (currentPodReplicasFromDeploy W k (DeployNamespace deploySpec)
               (DeployName deploySpec) c) = Z.max 1 (StatusReplicas d)
        ∧ appliedWith W P k deploySpec c (Z.max 1 (StatusReplicas d))
        ∧ ((1 ≤ StatusReplicas d)%Z → appliedWith W P k deploySpec c (StatusReplicas d))
        ∧ ((StatusReplicas d < 1)%Z → appliedWith W P k deploySpec c 1))
  ∧ (∀ err, deploymentsGet W (DeployNamespace deploySpec) (DeployName deploySpec) = inr err →
        val (currentPodReplicasFromDeploy W k (DeployNamespace deploySpec)
               (DeployName deploySpec) c) = 1
        ∧ appliedWith W P k deploySpec c 1).
Proof.
  intros Hk.
  pose proof (CreateOrUpdateDeploy_run W P k deploySpec c Hk) as Hrun. cbn zeta in Hrun.
  rewrite (currentPodReplicasFromDeploy_run W k _ _ c Hk) in Hrun |- *.
  cbn [val] in Hrun |- *. unfold appliedWith.
  split.
  - intros d Hd. rewrite Hd in Hrun |- *.
    assert (Hmax : (if (StatusReplicas d <? 1)%Z then 1 else StatusReplicas d)
                   = Z.max 1 (StatusReplicas d))
      by (destruct (Z.ltb_spec (StatusReplicas d) 1); lia).
    rewrite Hmax in Hrun |- *.
    assert (Happlied :
      match deploySpecToK8sDeploy P deploySpec (Z.max 1 (StatusReplicas d)) with
      | inl deployYaml =>
          ∃ rest,
            evs (CreateOrUpdateDeploy W P k deploySpec c)
            = DeploymentsGet (DeployNamespace deploySpec) (DeployName deploySpec)
              :: ApiUpdate (RDeployment (DeployNamespace deploySpec) deployYaml) :: rest
      | inr err =>
          CreateOrUpdateDeploy W P k deploySpec c
          = mkRes (Some err) c
              [DeploymentsGet (DeployNamespace deploySpec) (DeployName deploySpec)]
      end).
    { rewrite Hrun.
      destruct (deploySpecToK8sDeploy P deploySpec (Z.max 1 (StatusReplicas d)));
        [|reflexivity].
      destruct (IsNotFound P (apiUpdate W _)); eauto. }
    split; [reflexivity|]. split; [exact Happlied|]. split.
    + intros Hge.
      replace (Z.max 1 (StatusReplicas d)) with (StatusReplicas d) in Happlied by lia.
      exact Happlied.
    + intros Hlt. replace (Z.max 1 (StatusReplicas d)) with 1 in Happlied by lia.
      exact Happlied.
  - intros err Hd. rewrite Hd in Hrun |- *.
    split; [reflexivity|]. rewrite Hrun.
    destruct (deploySpecToK8sDeploy P deploySpec 1); [|reflexivity].
    destruct (IsNotFound P (apiUpdate W _)); eauto.
Qed.

(** C10. [currentPodReplicasFromDeploy] never returns less than 1: it returns
    1 when the client cannot be built, when the read fails, and when the
    deployment is read and its status reports fewer than 1 replica; so a
    deployment whose status reports 0 replicas is applied again with a
    manifest converted for 1 replica. *)
Theorem currentPodReplicasFromDeploy_at_least_one W P k namespace appName c :
  (1 ≤ val (currentPodReplicasFromDeploy W k namespace appName c))%Z
  ∧ (newForConfig W (conf k) ≠ None →
     val (currentPodReplicasFromDeploy W k namespace appName c) = 1)
  ∧ (∀ err, deploymentsGet W namespace appName = inr err →
     val (currentPodReplicasFromDeploy W k namespace appName c) = 1)
  ∧ (∀ d, deploymentsGet W namespace appName = inl d → (StatusReplicas d < 1)%Z →
     val (currentPodReplicasFromDeploy W k namespace appName c) = 1)
  ∧ (∀ deploySpec d,
       newForConfig W (conf k) = None →
       deploymentsGet W (DeployNamespace deploySpec) (DeployName deploySpec) = inl d →
       StatusReplicas d = 0 →
       appliedWith W P k deploySpec c 1).
Proof.
  assert (Hfail : newForConfig W (conf k) ≠ None →
                  val (currentPodReplicasFromDeploy W k namespace appName c) = 1).
  { intros Hk. unfold currentPodReplicasFromDeploy, buildClient.
    by destruct (newForConfig W (conf k)). }
  destruct (newForConfig W (conf k)) as [e|] eqn:Hk.
  - rewrite Hfail by done. repeat split; try done; try lia.
  - rewrite (currentPodReplicasFromDeploy_run W k _ _ c Hk). cbn [val].
    split; [|split; [done|split; [|split]]].
    + destruct (deploymentsGet W namespace appName) as [d|]; [|lia].
      destruct (Z.ltb_spec (StatusReplicas d) 1); lia.
    + by intros err ->.
    + intros d -> Hlt. destruct (Z.ltb_spec (StatusReplicas d) 1); [done|lia].
    + intros deploySpec d _ Hd Hzero. unfold appliedWith.
      rewrite (CreateOrUpdateDeploy_run W P k deploySpec c Hk). cbn zeta.
      rewrite (currentPodReplicasFromDeploy_run W k _ _ c Hk). cbn [val].
      rewrite Hd, Hzero. cbn.
      destruct (deploySpecToK8sDeploy P deploySpec 1); [|reflexivity].
      destruct (IsNotFound P (apiUpdate W _)); eauto.
Qed.

Lemma CreateOrUpdateDeploy_seeds_replicas_witness :
  (val (currentPodReplicasFromDeploy Sample.helloWorld Sample.client "myapp" "myapp" 0%nat) = 3
   ∧ appliedWith Sample.helloWorld Sample.package Sample.client Sample.deploySpec 0%nat 3)
  ∧ (val (currentPodReplicasFromDeploy Sample.fresh Sample.client "myapp" "myapp" 0%nat) = 1
     ∧ appliedWith Sample.fresh Sample.package Sample.client Sample.deploySpec 0%nat 1)
  ∧ appliedWith Sample.scaledToZero Sample.package Sample.client Sample.deploySpec 0%nat 1.
Proof.
  split; [|split].
  - destruct (CreateOrUpdateDeploy_seeds_replicas
                Sample.helloWorld Sample.package Sample.client Sample.deploySpec 0%nat
                eq_refl) as (Hlive & _).
    destruct (Hlive {| DeploymentName := "myapp"; SpecReplicas := 3;
                       DeploymentTemplate := Sample.podSpec; StatusReplicas := 3 |}
                eq_refl) as (Hval & _ & Hsame & _).
    split; [exact Hval|]. apply Hsame. by vm_compute.
  - destruct (CreateOrUpdateDeploy_seeds_replicas
                Sample.fresh Sample.package Sample.client Sample.deploySpec 0%nat
                eq_refl) as (_ & Hnone).
    apply (Hnone Sample.notFound). reflexivity.
  - destruct (CreateOrUpdateDeploy_seeds_replicas
                Sample.scaledToZero Sample.package Sample.client Sample.deploySpec 0%nat
                eq_refl) as (Hlive & _).
    destruct (Hlive {| DeploymentName := "myapp"; SpecReplicas := 0;
                       DeploymentTemplate := Sample.podSpec; StatusReplicas := 0 |}
                eq_refl) as (_ & _ & _ & Hlow).
    apply Hlow. by vm_compute.
Defined.

Lemma currentPodReplicasFromDeploy_at_least_one_witness :
  val (currentPodReplicasFromDeploy Sample.scaledToZero Sample.client "myapp" "myapp" 0%nat)
  = 1
  ∧ appliedWith Sample.scaledToZero Sample.package Sample.client Sample.deploySpec 0%nat 1.
Proof.
  destruct (currentPodReplicasFromDeploy_at_least_one
              Sample.scaledToZero Sample.package Sample.client "myapp" "myapp" 0%nat)
    as (_ & _ & _ & Hlow & Happly).
  split.
  - apply (Hlow {| DeploymentName := "myapp"; SpecReplicas := 0;
                   DeploymentTemplate := Sample.podSpec; StatusReplicas := 0 |});
      [reflexivity|by vm_compute].
  - apply (Happly Sample.deploySpec
             {| DeploymentName := "myapp"; SpecReplicas := 0;
                DeploymentTemplate := Sample.podSpec; StatusReplicas := 0 |});
      reflexivity.
Defined.

(** The events of re-applying a deployment that is scaled to zero. *)
Lemma scaledToZero_events :
  evs (CreateOrUpdateDeploy Sample.scaledToZero Sample.package Sample.client
         Sample.deploySpec 0%nat)
  = [ DeploymentsGet "myapp" "myapp";
      ApiUpdate (RDeployment "myapp"
                   {| DeploymentName := "myapp"; SpecReplicas := 1;
                      DeploymentTemplate := Sample.podSpec; StatusReplicas := 0 |}) ].
Proof. by vm_compute. Qed.

(** ** Patches *)

Lemma member_deleteEntry name :
  member "$patch" (deleteEntry name) = Some (JString "delete")
  ∧ member "value" (deleteEntry name) = None
  ∧ member "name" (deleteEntry name) = Some (JString name).
Proof. by vm_compute. Qed.

(** C9. For every list of variable names, the payload that
    [DeleteDeployEnvVars] and [DeleteCronJobEnvVars] build carries as the
    container's [env] an array with one entry per name, in order; every entry
    names its variable and has the member [$patch] set to ["delete"], and no
    [value] member; when the client can be built, that payload is what the
    one patch call sends, as a strategic merge patch. *)
Theorem delete_env_vars_marks_each_variable W k namespace name evNames c :
  let env := JArray (deleteEntry <$> evNames) in
  prepareEnvVarsPath W name patchDeployEnvVarsTmpl (convertAppDeleteEnvVar evNames)
  = inl (patchDeployEnvVarsTmpl (now W) name env)
  ∧ prepareEnvVarsPath W name patchCronJobEnvVarsTmpl (convertAppDeleteEnvVar evNames)
    = inl (patchCronJobEnvVarsTmpl (now W) name env)
  ∧ along deployEnvPath (patchDeployEnvVarsTmpl (now W) name env) = Some env
  ∧ along cronJobEnvPath (patchCronJobEnvVarsTmpl (now W) name env) = Some env
  ∧ (∀ i n, evNames !! i = Some n →
       (deleteEntry <$> evNames) !! i = Some (deleteEntry n)
       ∧ member "name" (deleteEntry n) = Some (JString n)
       ∧ member "$patch" (deleteEntry n) = Some (JString "delete")
       ∧ member "value" (deleteEntry n) = None)
  ∧ length (deleteEntry <$> evNames) = length evNames
  ∧ (newForConfig W (conf k) = None →
       evs (DeleteDeployEnvVars W k namespace name evNames c)
       = [ApiPatch ExtensionsDeployments namespace name StrategicMergePatchType
            (patchDeployEnvVarsTmpl (now W) name env)]
       ∧ evs (DeleteCronJobEnvVars W k namespace name evNames c)
         = [ApiPatch BatchCronJobs namespace name StrategicMergePatchType
              (patchCronJobEnvVarsTmpl (now W) name env)]).
Proof.
  intros env.
  assert (Hm : json_Marshal (convertAppDeleteEnvVar evNames) = inl env).
  { unfold convertAppDeleteEnvVar, json_Marshal, env. f_equal. f_equal.
    rewrite <- list_fmap_compose. by apply list_fmap_ext. }
  assert (Hd : prepareEnvVarsPath W name patchDeployEnvVarsTmpl
                 (convertAppDeleteEnvVar evNames)
               = inl (patchDeployEnvVarsTmpl (now W) name env)).
  { unfold prepareEnvVarsPath. by rewrite Hm. }
  assert (Hc : prepareEnvVarsPath W name patchCronJobEnvVarsTmpl
                 (convertAppDeleteEnvVar evNames)
               = inl (patchCronJobEnvVarsTmpl (now W) name env)).
  { unfold prepareEnvVarsPath. by rewrite Hm. }
  split; [done|]. split; [done|]. split; [by vm_compute|]. split; [by vm_compute|].
  split; [|split].
  - intros i n Hi. rewrite list_lookup_fmap, Hi. split; [done|].
    destruct (member_deleteEntry n) as (? & ? & ?). done.
  - by rewrite length_fmap.
  - intros Hk. unfold DeleteDeployEnvVars, DeleteCronJobEnvVars,
      patchDeployEnvVars, patchCronJobEnvVars, buildClient.
    rewrite Hd, Hc, Hk. by rewrite !run_bind.
Qed.

Lemma delete_env_vars_marks_each_variable_witness :
  evs (DeleteDeployEnvVars Sample.helloWorld Sample.client "myapp" "myapp"
         ["DEBUG"; "TOKEN"] 0%nat)
  = [ApiPatch ExtensionsDeployments "myapp" "myapp" StrategicMergePatchType
       (patchDeployEnvVarsTmpl (now Sample.helloWorld) "myapp"
          (JArray [JObject [("name", JString "DEBUG"); ("$patch", JString "delete")];
                   JObject [("name", JString "TOKEN"); ("$patch", JString "delete")]]))].
Proof.
  destruct (delete_env_vars_marks_each_variable
              Sample.helloWorld Sample.client "myapp" "myapp" ["DEBUG"; "TOKEN"] 0%nat)
    as (_ & _ & _ & _ & _ & _ & Hsent).
  destruct (Hsent eq_refl) as (Hdeploy & _). exact Hdeploy.
Defined.

(** Merging the object [json.Marshal] makes of a map: supplied keys are set,
    stored keys the map does not hold are kept. *)
Lemma mergeStringMap_pairs (l : list (string * string)) (stored : gmap string string) :
  mergeStringMap (JObject ((λ kv, (kv.1, JString kv.2)) <$> l)) stored
  = list_to_map l ∪ stored.
Proof.
  cbn. induction l as [|[key v] l IH]; cbn.
  - by rewrite (left_id_L ∅ (∪)).
  - rewrite IH. by rewrite insert_union_l.
Qed.

Lemma mergeStringMap_marshalled (annotations stored : gmap string string) :
  mergeStringMap (JObject ((λ kv, (kv.1, JString kv.2)) <$> map_to_list annotations)) stored
  = annotations ∪ stored.
Proof. by rewrite mergeStringMap_pairs, list_to_map_to_list. Qed.

(** What [json.Marshal] makes of the map a caller supplies. *)
Lemma SetServiceAnnotations_run W c namespace svcName annotations n :
  newForConfig W (conf c) = None →
  evs (SetServiceAnnotations W c namespace svcName annotations n)
  = [ApiPatch CoreServices namespace svcName StrategicMergePatchType
       (patchServiceAnnotationsTmpl
          match annotations with
          | Some m => JObject ((λ kv, (kv.1, JString kv.2)) <$> map_to_list m)
          | None => JNull
          end)].
Proof.
  intros Hk. unfold SetServiceAnnotations, patchServiceAnnotations, buildClient.
  destruct annotations; cbn [prepareServiceAnnotations json_Marshal_map];
    rewrite Hk; by rewrite run_bind.
Qed.

(** C8, as stated, fails: a caller supplies one annotation for a service that
    already has another; the patch that is sent, once the control plane has
    merged it, leaves both keys on the service, which is not the map the
    caller supplied. *)
Lemma annotations_patch_keeps_stored_keys :
  evs (SetServiceAnnotations Sample.helloWorld Sample.client "myapp" "myapp"
         (Some Sample.suppliedAnnotations) 0%nat)
  = [ApiPatch CoreServices "myapp" "myapp" StrategicMergePatchType
       (JObject [("metadata", JObject [("annotations",
          JObject [("teresa.io/owner", JString "team-a")])])])]
  ∧ patchedAnnotations StrategicMergePatchType
      (JObject [("metadata", JObject [("annotations",
         JObject [("teresa.io/owner", JString "team-a")])])])
      Sample.storedAnnotations
    ≠ Sample.suppliedAnnotations.
Proof.
  split; [by vm_compute|].
  intros Heq.
  assert (H : patchedAnnotations StrategicMergePatchType
      (JObject [("metadata", JObject [("annotations",
         JObject [("teresa.io/owner", JString "team-a")])])])
      Sample.storedAnnotations
      !! "service.beta.kubernetes.io/aws-load-balancer-ssl-cert"
    = Some "arn:aws:acm:cert") by (by vm_compute).
  rewrite Heq in H. by vm_compute in H.
Qed.

(** C8, amended. [SetServiceAnnotations] sends the caller's map whole, under
    [metadata.annotations], as one strategic merge patch.  For a map that is
    not nil the payload is an object with the supplied keys; merged by the
    control plane it sets every supplied key to the supplied value and keeps
    every stored key the caller did not supply, so the annotations of the
    service are the supplied map laid over the stored one.  For the nil map
    the payload is [null], which removes the stored annotations. *)
Theorem SetServiceAnnotations_merges_per_key W c namespace svcName
    (annotations : option (gmap string string)) (stored : gmap string string) n :
  newForConfig W (conf c) = None →
  ∃ data,
    evs (SetServiceAnnotations W c namespace svcName annotations n)
    = [ApiPatch CoreServices namespace svcName StrategicMergePatchType data]
    ∧ along [AtKey "metadata"; AtKey "annotations"] data
      = Some match annotations with
             | Some m => JObject ((λ kv, (kv.1, JString kv.2)) <$> map_to_list m)
             | None => JNull
             end
    ∧ patchedAnnotations StrategicMergePatchType data stored
      = match annotations with
        | Some m => m ∪ stored
        | None => ∅
        end
    ∧ (∀ m, annotations = Some m →
         (∀ key v, m !! key = Some v →
            patchedAnnotations StrategicMergePatchType data stored !! key = Some v)
         ∧ (∀ key, m !! key = None →
              patchedAnnotations StrategicMergePatchType data stored !! key = stored !! key))
    ∧ (annotations = None →
         ∀ key, patchedAnnotations StrategicMergePatchType data stored !! key = None).
Proof.
  intros Hk. eexists. split; [by apply SetServiceAnnotations_run|].
  split; [by vm_compute|].
  assert (Hp : patchedAnnotations StrategicMergePatchType
      (patchServiceAnnotationsTmpl
         match annotations with
         | Some m => JObject ((λ kv, (kv.1, JString kv.2)) <$> map_to_list m)
         | None => JNull
         end) stored
    = match annotations with
      | Some m => m ∪ stored
      | None => ∅
      end).
  { destruct annotations as [m|]; [|reflexivity].
    rewrite <- mergeStringMap_marshalled. reflexivity. }
  rewrite Hp. split; [done|]. split.
  - intros m ->. split.
    + intros key v Hv. by apply lookup_union_Some_l.
    + intros key Hnone. by apply lookup_union_r.
  - intros -> key. apply lookup_empty.
Qed.

Lemma SetServiceAnnotations_merges_per_key_witness :
  (∃ data,
     evs (SetServiceAnnotations Sample.helloWorld Sample.client "myapp" "myapp"
            (Some Sample.suppliedAnnotations) 0%nat)
     = [ApiPatch CoreServices "myapp" "myapp" StrategicMergePatchType data]
     ∧ patchedAnnotations StrategicMergePatchType data Sample.storedAnnotations
       = Sample.suppliedAnnotations ∪ Sample.storedAnnotations)
  ∧ (∃ data,
       evs (SetServiceAnnotations Sample.helloWorld Sample.client "myapp" "myapp" None 0%nat)
       = [ApiPatch CoreServices "myapp" "myapp" StrategicMergePatchType data]
       ∧ along [AtKey "metadata"; AtKey "annotations"] data = Some JNull
       ∧ patchedAnnotations StrategicMergePatchType data Sample.storedAnnotations = ∅).
Proof.
  split.
  - destruct (SetServiceAnnotations_merges_per_key
                Sample.helloWorld Sample.client "myapp" "myapp"
                (Some Sample.suppliedAnnotations) Sample.storedAnnotations 0%nat eq_refl)
      as (data & Hsent & _ & Hmerged & _).
    exists data. split; [exact Hsent|exact Hmerged].
  - destruct (SetServiceAnnotations_merges_per_key
                Sample.helloWorld Sample.client "myapp" "myapp"
                None Sample.storedAnnotations 0%nat eq_refl)
      as (data & Hsent & Hpayload & Hmerged & _).
    exists data. split; [exact Hsent|]. split; [exact Hpayload|exact Hmerged].
Defined.

(** * Further properties of [client.go] *)

(** ** The waits *)

(** X1. A start-wait with a timeout whose every read within the budget shows
    a phase other than running, succeeded and failed returns the poller's
    timeout error, after the immediate read, one read per tick and the read
    made when the poller closes its channel. *)
Theorem waitPodStart_times_out W k pod checkInterval timeout fuel c :
  newForConfig W (conf k) = None →
  timeout ≠ 0 →
  (∀ i, (i ≤ S (timerTicks W checkInterval timeout))%nat →
        ∃ ph, phaseAt W pod (c + i)%nat = Some ph ∧ startPending ph) →
  waitPodStart W k pod checkInterval timeout fuel c
  = mkRes (Returned (Some ErrWaitTimeout)) (c + S (S (timerTicks W checkInterval timeout)))%nat
      (replicate (S (S (timerTicks W checkInterval timeout)))
         (PodsGet InWaitPodStart (PodNamespace pod) (PodName pod))).
Proof.
  intros Hk Ht Hpending.
  destruct (waitPodStart_poll W k pod checkInterval timeout fuel Hk) as (cond & Hr & ->).
  rewrite PollImmediate_WaitFor.
  destruct (pollTicks_timeout W checkInterval timeout fuel Ht) as (-> & ->).
  apply (WaitFor_timeout _ _ _ _ _ _ true _ Hr).
  intros i Hi. destruct (Hpending i Hi) as (ph & Hph & Hp).
  by eapply startAnswer_pending.
Qed.

Lemma waitPodStart_times_out_witness :
  waitPodStart (Sample.world [Sample.pending] (inr (ErrOther "no logs"))
                  (Sample.liveDeployment 1) None)
    Sample.client (Sample.podIn Sample.pending) (1 * Second) (2 * Second) 0%nat 0%nat
  = mkRes (Returned (Some ErrWaitTimeout)) 4%nat
      (replicate 4 (PodsGet InWaitPodStart "myapp" "release-myapp-1")).
Proof.
  apply (waitPodStart_times_out
           (Sample.world [Sample.pending] (inr (ErrOther "no logs"))
              (Sample.liveDeployment 1) None)
           Sample.client (Sample.podIn Sample.pending) (1 * Second) (2 * Second)
           0%nat 0%nat).
  - reflexivity.
  - by vm_compute.
  - intros i _. exists PodPending. split; [|by vm_compute].
    unfold phaseAt. cbn. by destruct i.
Defined.

(** X2. An end-wait whose every read within the budget shows a phase other
    than succeeded and failed, the running phase included: with a timeout it
    returns the poller's timeout error after all the reads of its budget;
    with a timeout of 0, for which the poller never closes its channel, it
    does not time out: however long it is followed, it has read the pod that
    long and is still polling. *)
Theorem waitPodEnd_times_out W k pod checkInterval timeout fuel c :
  newForConfig W (conf k) = None →
  (∀ i, (i ≤ S (pollTicks W checkInterval timeout fuel))%nat →
        ∃ ph, phaseAt W pod (c + i)%nat = Some ph ∧ endPending ph) →
  (timeout ≠ 0 →
   waitPodEnd W k pod checkInterval timeout fuel c
   = mkRes (Returned (Some ErrWaitTimeout))
       (c + S (S (timerTicks W checkInterval timeout)))%nat
       (replicate (S (S (timerTicks W checkInterval timeout)))
          (PodsGet InWaitPodEnd (PodNamespace pod) (PodName pod))))
  ∧ (timeout = 0 →
     waitPodEnd W k pod checkInterval timeout fuel c
     = mkRes Unfinished (c + S (S fuel))%nat
         (replicate (S (S fuel)) (PodsGet InWaitPodEnd (PodNamespace pod) (PodName pod)))).
Proof.
  intros Hk Hpending.
  destruct (waitPodEnd_poll W k pod checkInterval timeout fuel Hk) as (cond & Hr & ->).
  rewrite PollImmediate_WaitFor.
  assert (Hrun :
    WaitFor (S (pollTicks W checkInterval timeout fuel)) (negb (timeout =? 0)%Z) cond c
    = mkRes (if negb (timeout =? 0)%Z then Returned (Some ErrWaitTimeout) else Unfinished)
        (c + S (S (pollTicks W checkInterval timeout fuel)))%nat
        (replicate (S (S (pollTicks W checkInterval timeout fuel)))
           (PodsGet InWaitPodEnd (PodNamespace pod) (PodName pod)))).
  { apply (WaitFor_timeout _ _ _ _ _ _ _ _ Hr).
    intros i Hi. destruct (Hpending i Hi) as (ph & Hph & Hp).
    by eapply endAnswer_pending. }
  rewrite Hrun. split.
  - intros Ht. by destruct (pollTicks_timeout W checkInterval timeout fuel Ht) as (-> & ->).
  - intros ->. reflexivity.
Qed.

Lemma waitPodEnd_times_out_witness :
  waitPodEnd Sample.hanging Sample.client (Sample.podIn Sample.pending)
    (3 * Second) (6 * Second) 0%nat 0%nat
  = mkRes (Returned (Some ErrWaitTimeout)) 4%nat
      (replicate 4 (PodsGet InWaitPodEnd "myapp" "release-myapp-1"))
  ∧ waitPodEnd Sample.hanging Sample.inCluster (Sample.podIn Sample.pending)
      (3 * Second) (podRunTimeout Sample.inCluster) 7%nat 0%nat
    = mkRes Unfinished 9%nat (replicate 9 (PodsGet InWaitPodEnd "myapp" "release-myapp-1")).
Proof.
  split.
  - apply (waitPodEnd_times_out
             Sample.hanging Sample.client (Sample.podIn Sample.pending)
             (3 * Second) (6 * Second) 0%nat 0%nat).
    + reflexivity.
    + intros i _. destruct i as [|i].
      * exists PodPending. split; by vm_compute.
      * exists PodRunning. split; [|by vm_compute].
        unfold phaseAt. cbn. by destruct i.
    + by vm_compute.
  - apply (waitPodEnd_times_out
             Sample.hanging Sample.inCluster (Sample.podIn Sample.pending)
             (3 * Second) (podRunTimeout Sample.inCluster) 7%nat 0%nat).
    + reflexivity.
    + intros i _. destruct i as [|i].
      * exists PodPending. split; by vm_compute.
      * exists PodRunning. split; [|by vm_compute].
        unfold phaseAt. cbn. by destruct i.
    + reflexivity.
Defined.

(** X3. A pod read that fails ends a wait at once: after reads on which the
    wait went on polling, the first failed read within the budget makes
    [waitPodStart], and likewise [waitPodEnd], return the error of that read
    as it is, without another read. *)
Theorem waits_stop_on_read_error W k pod checkInterval timeout fuel c j err :
  newForConfig W (conf k) = None →
  (j ≤ S (pollTicks W checkInterval timeout fuel))%nat →
  podsGet W (c + j)%nat (PodNamespace pod) (PodName pod) = inr err →
  ((∀ i, (i < j)%nat → ∃ ph, phaseAt W pod (c + i)%nat = Some ph ∧ startPending ph) →
   waitPodStart W k pod checkInterval timeout fuel c
   = mkRes (Returned (Some err)) (c + S j)%nat
       (replicate (S j) (PodsGet InWaitPodStart (PodNamespace pod) (PodName pod))))
  ∧ ((∀ i, (i < j)%nat → ∃ ph, phaseAt W pod (c + i)%nat = Some ph ∧ endPending ph) →
     waitPodEnd W k pod checkInterval timeout fuel c
     = mkRes (Returned (Some err)) (c + S j)%nat
         (replicate (S j) (PodsGet InWaitPodEnd (PodNamespace pod) (PodName pod)))).
Proof.
  intros Hk Hj Herr. split; intros Hbefore.
  - apply waitPodStart_decided with (b := false); try done.
    + intros i Hi. destruct (Hbefore i Hi) as (ph & Hph & Hp).
      by eapply startAnswer_pending.
    + by apply startAnswer_error.
    + by right.
  - apply waitPodEnd_decided with (b := false); try done.
    + intros i Hi. destruct (Hbefore i Hi) as (ph & Hph & Hp).
      by eapply endAnswer_pending.
    + by apply endAnswer_error.
    + by right.
Qed.

Lemma waits_stop_on_read_error_witness :
  waitPodStart More.flaky Sample.client (Sample.podIn Sample.pending)
    (1 * Second) (5 * Minute) 0%nat 0%nat
  = mkRes (Returned (Some (ErrOther "connection refused"))) 3%nat
      (replicate 3 (PodsGet InWaitPodStart "myapp" "release-myapp-1"))
  ∧ waitPodEnd More.flaky Sample.client (Sample.podIn Sample.pending)
      (3 * Second) (30 * Minute) 0%nat 0%nat
    = mkRes (Returned (Some (ErrOther "connection refused"))) 3%nat
        (replicate 3 (PodsGet InWaitPodEnd "myapp" "release-myapp-1")).
Proof.
  destruct (waits_stop_on_read_error
              More.flaky Sample.client (Sample.podIn Sample.pending)
              (1 * Second) (5 * Minute) 0%nat 0%nat 2%nat (ErrOther "connection refused"))
    as (Hstart & _); [reflexivity|vm_compute; lia|reflexivity|].
  destruct (waits_stop_on_read_error
              More.flaky Sample.client (Sample.podIn Sample.pending)
              (3 * Second) (30 * Minute) 0%nat 0%nat 2%nat (ErrOther "connection refused"))
    as (_ & Hend); [reflexivity|vm_compute; lia|reflexivity|].
  split.
  - apply Hstart. intros i Hi. exists PodPending.
    destruct i as [|[|i]]; [by vm_compute|by vm_compute|lia].
  - apply Hend. intros i Hi. exists PodPending.
    destruct i as [|[|i]]; [by vm_compute|by vm_compute|lia].
Defined.

Lemma waitPodStart_started W k pod checkInterval timeout fuel c j ph :
  newForConfig W (conf k) = None →
  (j ≤ S (pollTicks W checkInterval timeout fuel))%nat →
  (∀ i, (i < j)%nat → ∃ q, phaseAt W pod (c + i)%nat = Some q ∧ startPending q) →
  phaseAt W pod (c + j)%nat = Some ph →
  ph = PodRunning ∨ ph = PodSucceeded →
  waitPodStart W k pod checkInterval timeout fuel c
  = mkRes (Returned None) (c + S j)%nat
      (replicate (S j) (PodsGet InWaitPodStart (PodNamespace pod) (PodName pod))).
Proof.
  intros Hk Hj Hbefore Hph Hok.
  apply waitPodStart_decided with (b := true); try done.
  - intros i Hi. destruct (Hbefore i Hi) as (q & Hq & Hp).
    by eapply startAnswer_pending.
  - rewrite (startAnswer_phase _ _ _ _ Hph). by destruct Hok as [-> | ->].
  - by left.
Qed.

(** X4. A start-wait that reads, within its budget, the running or the
    succeeded phase after reads on which it went on polling returns no error
    at that read. *)
Theorem waitPodStart_running_or_succeeded W k pod checkInterval timeout fuel c j ph :
  newForConfig W (conf k) = None →
  (j ≤ S (pollTicks W checkInterval timeout fuel))%nat →
  (∀ i, (i < j)%nat → ∃ q, phaseAt W pod (c + i)%nat = Some q ∧ startPending q) →
  phaseAt W pod (c + j)%nat = Some ph →
  ph = PodRunning ∨ ph = PodSucceeded →
  waitPodStart W k pod checkInterval timeout fuel c
  = mkRes (Returned None) (c + S j)%nat
      (replicate (S j) (PodsGet InWaitPodStart (PodNamespace pod) (PodName pod))).
Proof. apply waitPodStart_started. Qed.

Lemma waitPodStart_running_or_succeeded_witness :
  waitPodStart Sample.helloWorld Sample.client (Sample.podIn Sample.pending)
    (1 * Second) (5 * Minute) 0%nat 0%nat
  = mkRes (Returned None) 2%nat
      (replicate 2 (PodsGet InWaitPodStart "myapp" "release-myapp-1")).
Proof.
  apply (waitPodStart_running_or_succeeded
           Sample.helloWorld Sample.client (Sample.podIn Sample.pending)
           (1 * Second) (5 * Minute) 0%nat 0%nat 1%nat PodRunning).
  - reflexivity.
  - vm_compute. lia.
  - intros i Hi. exists PodPending. destruct i as [|i]; [by vm_compute|lia].
  - by vm_compute.
  - by left.
Defined.

(** The reads of a poll of a client that builds: at least one; with a timeout
    no more than the budget allows, and the poll returns; without one the
    poll is still polling only when it has read for as long as it was
    followed. *)
Lemma PollImmediate_reads W site namespace name answer condition interval timeout fuel c :
  reads site namespace name answer condition →
  ∃ n,
    evs (PollImmediate W interval timeout fuel condition c)
    = replicate n (PodsGet site namespace name)
    ∧ clk (PollImmediate W interval timeout fuel condition c) = (c + n)%nat
    ∧ (1 ≤ n)%nat
    ∧ (timeout ≠ 0 → (n ≤ S (S (timerTicks W interval timeout)))%nat)
    ∧ (val (PollImmediate W interval timeout fuel condition c) = Unfinished →
       timeout = 0 ∧ n = S (S fuel)).
Proof.
  intros Hr. rewrite PollImmediate_WaitFor.
  pose proof (WaitFor_reads_bound _ _ _ _ _ (negb (timeout =? 0)%Z) Hr
                (S (pollTicks W interval timeout fuel)) c) as Hbound.
  pose proof (WaitFor_unfinished _ _ _ _ _ (negb (timeout =? 0)%Z) Hr
                (S (pollTicks W interval timeout fuel)) c) as Hun.
  destruct (WaitFor_events _ _ _ _ _ (negb (timeout =? 0)%Z) Hr
              (S (pollTicks W interval timeout fuel)) c) as (n & He & Hc).
  exists (S n). rewrite He, Hc in *. split; [done|]. split; [done|]. split; [lia|]. split.
  - intros Ht. destruct (pollTicks_timeout W interval timeout fuel Ht) as (Hticks & _).
    rewrite Hticks in Hbound. lia.
  - intros Hu. destruct (Hun Hu) as (Hcl & Hn).
    destruct (Z.eqb_spec timeout 0) as [->|]; [|discriminate].
    rewrite pollTicks_unlimited in Hn. split; [done|lia].
Qed.

(** X5. Whatever the cluster answers, a wait does nothing but read the pod.
    With a client that builds it makes at least one read; with a timeout it
    makes at most two reads more than the ticks of its budget and returns; it
    is found still polling only with a timeout of 0, after as many reads as
    it was followed for.  With a client that does not build it makes no read
    and returns the build error. *)
Theorem waits_only_read_within_budget W k pod checkInterval timeout fuel c :
  (∃ n, evs (waitPodStart W k pod checkInterval timeout fuel c)
        = replicate n (PodsGet InWaitPodStart (PodNamespace pod) (PodName pod))
        ∧ clk (waitPodStart W k pod checkInterval timeout fuel c) = (c + n)%nat
        ∧ (timeout ≠ 0 → (n ≤ S (S (timerTicks W checkInterval timeout)))%nat)
        ∧ (val (waitPodStart W k pod checkInterval timeout fuel c) = Unfinished →
           timeout = 0 ∧ n = S (S fuel))
        ∧ match newForConfig W (conf k) with
          | None => (1 ≤ n)%nat
          | Some e => n = 0%nat
                      ∧ val (waitPodStart W k pod checkInterval timeout fuel c)
                        = Returned (Some (Wrapped e "create k8s client failed"))
          end)
  ∧ (∃ n, evs (waitPodEnd W k pod checkInterval timeout fuel c)
          = replicate n (PodsGet InWaitPodEnd (PodNamespace pod) (PodName pod))
          ∧ clk (waitPodEnd W k pod checkInterval timeout fuel c) = (c + n)%nat
          ∧ (timeout ≠ 0 → (n ≤ S (S (timerTicks W checkInterval timeout)))%nat)
          ∧ (val (waitPodEnd W k pod checkInterval timeout fuel c) = Unfinished →
             timeout = 0 ∧ n = S (S fuel))
          ∧ match newForConfig W (conf k) with
            | None => (1 ≤ n)%nat
            | Some e => n = 0%nat
                        ∧ val (waitPodEnd W k pod checkInterval timeout fuel c)
                          = Returned (Some (Wrapped e "create k8s client failed"))
            end).
Proof.
  destruct (newForConfig W (conf k)) as [e|] eqn:Hk.
  - split; exists 0%nat; unfold waitPodStart, waitPodEnd, buildClient; rewrite Hk; cbn;
      repeat split; (lia || discriminate).
  - split.
    + destruct (waitPodStart_poll W k pod checkInterval timeout fuel Hk) as (cond & Hr & ->).
      destruct (PollImmediate_reads W _ _ _ _ _ checkInterval timeout fuel c Hr)
        as (n & He & Hc & H1 & Hb & Hu).
      exists n. by rewrite He, Hc.
    + destruct (waitPodEnd_poll W k pod checkInterval timeout fuel Hk) as (cond & Hr & ->).
      destruct (PollImmediate_reads W _ _ _ _ _ checkInterval timeout fuel c Hr)
        as (n & He & Hc & H1 & Hb & Hu).
      exists n. by rewrite He, Hc.
Qed.

Lemma waits_only_read_within_budget_witness :
  ∃ n, evs (waitPodEnd Sample.hanging Sample.inCluster (Sample.podIn Sample.pending)
              (3 * Second) 0 3%nat 0%nat)
       = replicate n (PodsGet InWaitPodEnd "myapp" "release-myapp-1")
       ∧ n = 5%nat.
Proof.
  destruct (waits_only_read_within_budget
              Sample.hanging Sample.inCluster (Sample.podIn Sample.pending)
              (3 * Second) 0 3%nat 0%nat) as (_ & n & He & _ & _ & Hu & _).
  exists n. split; [exact He|]. apply Hu. by vm_compute.
Defined.

Lemma firstTerminated_error_value statuses err :
  snd (firstTerminated statuses) = Some err →
  firstTerminated statuses = (1, Some ErrPodStillRunning).
Proof.
  induction statuses as [|s rest IH]; [done|]. cbn.
  destruct (Terminated s); [discriminate|]. apply IH.
Qed.

(** X6. Whenever [podExitCode] returns an error, the exit code it returns
    beside it is 1; the error is the build error, the error of the one read,
    or [ErrPodStillRunning]; and it never makes more than one read. *)
Theorem podExitCode_error_value W k pod c err :
  snd (val (podExitCode W k pod c)) = Some err →
  fst (val (podExitCode W k pod c)) = 1
  ∧ (length (evs (podExitCode W k pod c)) ≤ 1)%nat
  ∧ ((∃ e, newForConfig W (conf k) = Some e ∧ err = Wrapped e "create k8s client failed"
           ∧ evs (podExitCode W k pod c) = [])
     ∨ (newForConfig W (conf k) = None
        ∧ podsGet W c (PodNamespace pod) (PodName pod) = inr err)
     ∨ (newForConfig W (conf k) = None ∧ err = ErrPodStillRunning
        ∧ ∃ p, podsGet W c (PodNamespace pod) (PodName pod) = inl p
               ∧ Forall (λ s, Terminated s = None) (ContainerStatuses (Status p)))).
Proof.
  rewrite podExitCode_run. destruct (newForConfig W (conf k)) as [e|] eqn:Hk; cbn [val evs].
  - intros [= <-]. repeat split; [cbn; lia|]. left. eauto.
  - destruct (podsGet W c _ _) as [p|e] eqn:Hp.
    + intros Herr. pose proof (firstTerminated_error_value _ _ Herr) as Hft.
      rewrite Hft in Herr |- *. injection Herr as <-.
      repeat split; [cbn; lia|]. right. right. repeat split. exists p. split; [done|].
      clear Hp. induction (ContainerStatuses (Status p)) as [|s rest IH]; [done|].
      cbn in Hft. destruct (Terminated s) eqn:Hs; [discriminate|].
      constructor; [done|]. by apply IH.
    + intros [= <-]. repeat split; [cbn; lia|]. right. left. eauto.
Qed.

Lemma podExitCode_error_value_witness :
  fst (val (podExitCode Sample.unreported Sample.client (Sample.podIn Sample.pending) 2%nat))
  = 1.
Proof.
  apply (podExitCode_error_value
           Sample.unreported Sample.client (Sample.podIn Sample.pending) 2%nat
           ErrPodStillRunning).
  by vm_compute.
Defined.

(** ** The run session, further *)

(** X7. When [PodRun] returns an error nothing was started: the error is the
    client's build error, or the conversion error wrapped, with no call made,
    or the error of the pod creation wrapped, with that one call made; no pod
    is read, no log is opened, and neither the pipe nor the channel exists to
    be closed. *)
Theorem PodRun_error_starts_nothing W P k podSpec consumer fuel c err :
  val (PodRun W P k podSpec consumer fuel c) = inr err →
  clk (PodRun W P k podSpec consumer fuel c) = c
  ∧ ((∃ e, newForConfig W (conf k) = Some e
           ∧ err = Wrapped e "create k8s client failed"
           ∧ evs (PodRun W P k podSpec consumer fuel c) = [])
     ∨ (∃ e, podSpecToK8sPod P podSpec = inr e
             ∧ err = Wrapped e "define build pod spec failed"
             ∧ evs (PodRun W P k podSpec consumer fuel c) = [])
     ∨ (∃ podYaml e, podSpecToK8sPod P podSpec = inl podYaml
             ∧ podsCreate W (SpecNamespace podSpec) podYaml = inr e
             ∧ err = Wrapped e "pod create failed"
             ∧ evs (PodRun W P k podSpec consumer fuel c)
               = [PodsCreate (SpecNamespace podSpec) podYaml])).
Proof.
  unfold PodRun, buildClient. destruct (newForConfig W (conf k)) as [e|] eqn:Hk.
  { cbn. intros [= <-]. split; [done|]. left. eauto. }
  destruct (podSpecToK8sPod P podSpec) as [podYaml|e] eqn:Hy.
  2:{ cbn. intros [= <-]. split; [done|]. right. left. eauto. }
  rewrite run_bind. unfold call. cbn [val clk evs].
  destruct (podsCreate W (SpecNamespace podSpec) podYaml) as [pod|e] eqn:Hp.
  { rewrite run_bind. cbn [val clk evs mret M_ret]. discriminate. }
  cbn. intros [= <-]. split; [done|]. right. right. eauto 10.
Qed.

Lemma PodRun_error_starts_nothing_witness :
  clk (PodRun (Sample.world [] (inr (ErrOther "no logs")) (Sample.liveDeployment 1) None)
         {| IsNotFound := IsNotFound Sample.package;
            configMapSpec := configMapSpec Sample.package;
            deploySpecToK8sDeploy := deploySpecToK8sDeploy Sample.package;
            cronJobSpecToK8sCronJob := cronJobSpecToK8sCronJob Sample.package;
            podSpecToK8sPod := λ _, inr (ErrOther "no image") |}
         Sample.client Sample.podSpec Sample.attentive 0%nat 7%nat) = 7%nat.
Proof.
  apply (PodRun_error_starts_nothing
           (Sample.world [] (inr (ErrOther "no logs")) (Sample.liveDeployment 1) None)
           {| IsNotFound := IsNotFound Sample.package;
              configMapSpec := configMapSpec Sample.package;
              deploySpecToK8sDeploy := deploySpecToK8sDeploy Sample.package;
              cronJobSpecToK8sCronJob := cronJobSpecToK8sCronJob Sample.package;
              podSpecToK8sPod := λ _, inr (ErrOther "no image") |}
           Sample.client Sample.podSpec Sample.attentive 0%nat 7%nat
           (Wrapped (ErrOther "no image") "define build pod spec failed")).
  reflexivity.
Defined.


(** What the goroutine writes to the pipe: the chunks the reader takes of the
    log stream, if the start-wait and the log call returned no error. *)
Lemma PodRun_go_written W k podSpec pod consumer fuel c :
  written (evs (PodRun_go W k podSpec pod consumer fuel c))
  = match val (waitPodStart W k pod (1 * Second) (5 * Minute) fuel c) with
    | Returned None =>
        match val (PodLogs W k (SpecNamespace podSpec) (SpecName podSpec) runLogOptions
                     (clk (waitPodStart W k pod (1 * Second) (5 * Minute) fuel c))) with
        | inr _ => []
        | inl stream => accepted (pipeReader consumer) (chunks stream)
        end
    | _ => []
    end.
Proof.
  rewrite PodRun_go_run. cbn zeta.
  destruct (waitPodStart_events W k pod (1 * Second) (5 * Minute) fuel c) as (n1 & E1 & _).
  destruct (val (waitPodStart W k pod (1 * Second) (5 * Minute) fuel c)) as [[e|]|].
  { cbn [evs]. by rewrite written_app, E1, written_replicate_get. }
  2:{ cbn [evs]. by rewrite E1, written_replicate_get. }
  rewrite PodLogs_run. destruct (newForConfig W (conf k)) eqn:Hk; cbn [val clk evs].
  { by rewrite written_app, E1, written_replicate_get. }
  destruct (podLogs W _ _ runLogOptions) as [stream|]; cbn [val clk evs].
  2:{ by rewrite !written_app, E1, written_replicate_get. }
  destruct (copyResult (pipeReader consumer) (chunks stream)) as [copied|].
  2:{ cbn [evs]. rewrite !written_app, E1, written_replicate_get, written_copied. done. }
  destruct (waitPodEnd_events W k pod (3 * Second) (podRunTimeout k) fuel
              (clk (waitPodStart W k pod (1 * Second) (5 * Minute) fuel c))) as (n2 & E2 & _).
  destruct (val (waitPodEnd W k pod (3 * Second) (podRunTimeout k) fuel _)) as [[e|]|].
  { cbn [evs]. rewrite !written_app, E1, E2, !written_replicate_get, written_copied.
    cbn. by rewrite app_nil_r. }
  2:{ cbn [evs]. rewrite !written_app, E1, E2, !written_replicate_get, written_copied.
      cbn. by rewrite app_nil_r. }
  rewrite podExitCode_run, Hk. cbn [val clk evs].
  destruct (match podsGet W _ _ _ with inl _ => _ | inr _ => _ end) as [code [e|]];
    [|destruct (receives consumer)];
    cbn [evs]; rewrite !written_app, E1, E2, !written_replicate_get, written_copied;
    cbn; by rewrite app_nil_r.
Qed.

Lemma accepted_prefix reader stream : accepted reader stream `prefix_of` stream.
Proof.
  destruct reader as [|n|n]; cbn; [done| |];
    exists (drop n stream); by rewrite take_drop.
Qed.

(** X8. The output of a run session is the pod's log stream, as far as the
    caller reads it, and nothing else: when the start-wait returned no error
    and the log endpoint answered with a stream, the chunks written to the
    pipe are the chunks of that stream the caller's reader took, in order, a
    prefix of the stream, and the whole stream for a caller that reads
    whatever is written; whatever happens later adds nothing.  When the
    start-wait or the log call returned an error, nothing is written. *)
Theorem PodRun_output_is_log_stream W P k podSpec podYaml pod consumer fuel c :
  newForConfig W (conf k) = None →
  podSpecToK8sPod P podSpec = inl podYaml →
  podsCreate W (SpecNamespace podSpec) podYaml = inl pod →
  let ws := waitPodStart W k pod (1 * Second) (5 * Minute) fuel c in
  let logs := podLogs W (SpecNamespace podSpec) (SpecName podSpec) runLogOptions in
  let output := written (evs (PodRun W P k podSpec consumer fuel c)) in
  (∀ stream, val ws = Returned None → logs = inl stream →
     output = accepted (pipeReader consumer) (chunks stream)
     ∧ output `prefix_of` chunks stream
     ∧ (pipeReader consumer = ReadsAll → output = chunks stream))
  ∧ (∀ e, val ws = Returned (Some e) → output = [])
  ∧ (val ws = Unfinished → output = [])
  ∧ (∀ e, logs = inr e → output = []).
Proof.
  intros Hk Hy Hp ws logs output. subst ws logs output.
  rewrite (PodRun_run W P k podSpec consumer fuel c podYaml pod Hk Hy Hp). cbn [evs].
  change (written (?e :: ?l)) with (written l).
  rewrite PodRun_go_written, PodLogs_run, Hk. cbn [val].
  split; [|split; [|split]].
  - intros stream -> ->. split; [done|]. split; [apply accepted_prefix|].
    by intros ->.
  - by intros e ->.
  - by intros ->.
  - intros e ->. by destruct (val (waitPodStart W k pod _ _ fuel c)) as [[]|].
Qed.

Lemma PodRun_output_is_log_stream_witness :
  written (evs (PodRun Sample.helloWorld Sample.package Sample.client Sample.podSpec
                  Sample.attentive 0%nat 0%nat))
  = ["hello"; "world"]
  ∧ written (evs (PodRun Sample.helloWorld Sample.package Sample.client Sample.podSpec
                    Sample.hasty 0%nat 0%nat))
    = ["hello"].
Proof.
  split.
  - pose proof (PodRun_output_is_log_stream
                  Sample.helloWorld Sample.package Sample.client Sample.podSpec
                  (Sample.podIn {| Phase := ""; ContainerStatuses := [] |})
                  (Sample.podIn {| Phase := ""; ContainerStatuses := [] |})
                  Sample.attentive 0%nat 0%nat eq_refl eq_refl eq_refl) as H.
    cbn zeta in H. destruct H as (Hstream & _).
    destruct (Hstream {| chunks := ["hello"; "world"] |}) as (_ & _ & Hall);
      [by vm_compute|reflexivity|].
    exact (Hall eq_refl).
  - pose proof (PodRun_output_is_log_stream
                  Sample.helloWorld Sample.package Sample.client Sample.podSpec
                  (Sample.podIn {| Phase := ""; ContainerStatuses := [] |})
                  (Sample.podIn {| Phase := ""; ContainerStatuses := [] |})
                  Sample.hasty 0%nat 0%nat eq_refl eq_refl eq_refl) as H.
    cbn zeta in H. destruct H as (Hstream & _).
    destruct (Hstream {| chunks := ["hello"; "world"] |}) as (Htaken & _);
      [by vm_compute|reflexivity|].
    exact Htaken.
Defined.




Lemma waitPodEnd_terminal W k pod checkInterval timeout fuel c j ph :
  newForConfig W (conf k) = None →
  (j ≤ S (pollTicks W checkInterval timeout fuel))%nat →
  (∀ i, (i < j)%nat → ∃ q, phaseAt W pod (c + i)%nat = Some q ∧ endPending q) →
  phaseAt W pod (c + j)%nat = Some ph →
  ph = PodSucceeded ∨ ph = PodFailed →
  waitPodEnd W k pod checkInterval timeout fuel c
  = mkRes (Returned None) (c + S j)%nat
      (replicate (S j) (PodsGet InWaitPodEnd (PodNamespace pod) (PodName pod))).
Proof.
  intros Hk Hj Hbefore Hph Hterminal.
  apply waitPodEnd_decided with (b := true); try done.
  - intros i Hi. destruct (Hbefore i Hi) as (q & Hq & Hp). by eapply endAnswer_pending.
  - rewrite (endAnswer_phase _ _ _ _ Hph). by destruct Hterminal as [-> | ->].
  - by left.
Qed.

(** X10. A run from creation to exit code: the client builds, the pod is
    created, the start-wait reads the running or succeeded phase within its
    budget, the log endpoint answers with a stream, the caller lets the copy
    return (it reads what is written, or closes its end of the pipe), the
    end-wait then reads the succeeded or the failed phase within its budget
    (the fuel, if the client has no run timeout), the next read shows a
    terminated container, and the caller receives from the channel.  Then
    the session makes exactly these calls, in this order: the creation, the
    start-wait reads, the log call, one write per chunk the caller took, the
    end-wait reads, the exit-code read, the send of that container's exit
    code (for a failed pod too), the start of the deletion, the two closes. *)
Theorem PodRun_runs_to_completion W P k podSpec podYaml pod stream consumer fuel c
    j1 j2 ph1 ph2 r p before s state after :
  newForConfig W (conf k) = None →
  podSpecToK8sPod P podSpec = inl podYaml →
  podsCreate W (SpecNamespace podSpec) podYaml = inl pod →
  (j1 ≤ S (timerTicks W (1 * Second)%Z (5 * Minute)%Z))%nat →
  (∀ i, (i < j1)%nat → ∃ q, phaseAt W pod (c + i)%nat = Some q ∧ startPending q) →
  phaseAt W pod (c + j1)%nat = Some ph1 →
  ph1 = PodRunning ∨ ph1 = PodSucceeded →
  podLogs W (SpecNamespace podSpec) (SpecName podSpec) runLogOptions = inl stream →
  val (io_Copy (pipeReader consumer) (chunks stream) (c + S j1)%nat) = Returned r →
  (j2 ≤ S (pollTicks W (3 * Second)%Z (podRunTimeout k) fuel))%nat →
  (∀ i, (i < j2)%nat → ∃ q, phaseAt W pod (c + S j1 + i)%nat = Some q ∧ endPending q) →
  phaseAt W pod (c + S j1 + j2)%nat = Some ph2 →
  ph2 = PodSucceeded ∨ ph2 = PodFailed →
  podsGet W (c + S j1 + S j2)%nat (PodNamespace pod) (PodName pod) = inl p →
  ContainerStatuses (Status p) = before ++ s :: after →
  Forall (λ s, Terminated s = None) before →
  Terminated s = Some state →
  receives consumer = true →
  PodRun W P k podSpec consumer fuel c
  = mkRes (inl (Returned (Delivered (ExitCode state)))) (S (c + S j1 + S j2))
      (PodsCreate (SpecNamespace podSpec) podYaml
       :: replicate (S j1) (PodsGet InWaitPodStart (PodNamespace pod) (PodName pod))
       ++ [PodLogsOpen (SpecNamespace podSpec) (SpecName podSpec) runLogOptions]
       ++ (PipeWrite <$> accepted (pipeReader consumer) (chunks stream))
       ++ replicate (S j2) (PodsGet InWaitPodEnd (PodNamespace pod) (PodName pod))
       ++ [PodsGet InPodExitCode (PodNamespace pod) (PodName pod);
           ChanSend (ExitCode state);
           GoDeletePod (PodNamespace pod) (PodName pod);
           PipeClose; ChanClose]).
Proof.
  intros Hk Hy Hp Hj1 Hbefore1 Hph1 Hok1 Hlogs Hcopy Hj2 Hbefore2 Hph2 Hok2 Hread Hl Hnone Hs
    Hrecv.
  rewrite (PodRun_run W P k podSpec consumer fuel c podYaml pod Hk Hy Hp).
  rewrite PodRun_go_run. cbn zeta.
  rewrite (waitPodStart_started W k pod _ _ fuel c j1 ph1) by done.
  cbn [val clk evs]. rewrite PodLogs_run, Hk. cbn [val clk evs]. rewrite Hlogs.
  rewrite io_Copy_run in Hcopy. cbn [val] in Hcopy. rewrite Hcopy.
  rewrite (waitPodEnd_terminal W k pod (3 * Second) (podRunTimeout k) fuel
             (c + S j1)%nat j2 ph2 Hk Hj2 Hbefore2 Hph2 Hok2).
  cbn [val clk evs]. rewrite podExitCode_run, Hk. cbn [val clk evs].
  rewrite Hread, Hl, (firstTerminated_some _ _ _ _ Hnone Hs), Hrecv. cbn [val clk evs].
  reflexivity.
Qed.

Lemma PodRun_runs_to_completion_witness :
  PodRun Sample.killed Sample.package Sample.client Sample.podSpec
    Sample.attentive 0%nat 0%nat
  = mkRes (inl (Returned (Delivered 137))) 4%nat
      [ PodsCreate "myapp" (Sample.podIn {| Phase := ""; ContainerStatuses := [] |});
        PodsGet InWaitPodStart "myapp" "release-myapp-1";
        PodsGet InWaitPodStart "myapp" "release-myapp-1";
        PodLogsOpen "myapp" "release-myapp-1" runLogOptions;
        PodsGet InWaitPodEnd "myapp" "release-myapp-1";
        PodsGet InPodExitCode "myapp" "release-myapp-1";
        ChanSend 137;
        GoDeletePod "myapp" "release-myapp-1";
        PipeClose; ChanClose ].
Proof.
  apply (PodRun_runs_to_completion
           Sample.killed Sample.package Sample.client Sample.podSpec
           (Sample.podIn {| Phase := ""; ContainerStatuses := [] |})
           (Sample.podIn {| Phase := ""; ContainerStatuses := [] |})
           {| chunks := [] |} Sample.attentive 0%nat 0%nat 1%nat 0%nat PodRunning PodFailed
           None (Sample.podIn (Sample.ended PodFailed 137)) []
           {| ContainerName := "release-myapp-1";
              Terminated := Some {| ExitCode := 137; Reason := "Completed" |} |}
           {| ExitCode := 137; Reason := "Completed" |} []).
  - reflexivity.
  - reflexivity.
  - reflexivity.
  - vm_compute. lia.
  - intros i Hi. exists PodPending. destruct i as [|i]; [by vm_compute|lia].
  - by vm_compute.
  - by left.
  - reflexivity.
  - reflexivity.
  - vm_compute. lia.
  - intros i Hi. lia.
  - by vm_compute.
  - by right.
  - reflexivity.
  - reflexivity.
  - constructor.
  - reflexivity.
  - reflexivity.
Defined.

(** ** Patches, further *)

(** X11. For every list of variables, the payload that
    [CreateOrUpdateDeployEnvVars] and [CreateOrUpdateCronJobEnvVars] build
    carries as the container's [env] one entry per variable, in order, with
    the variable's key as [name] and its value as [value], and no [$patch]
    member; when the client can be built, that payload is what the one patch
    call sends, as a strategic merge patch. *)
Theorem set_env_vars_carries_each_variable W k namespace name vars c :
  let env := JArray (setEntry <$> vars) in
  prepareEnvVarsPath W name patchDeployEnvVarsTmpl (convertAppEnvVar vars)
  = inl (patchDeployEnvVarsTmpl (now W) name env)
  ∧ prepareEnvVarsPath W name patchCronJobEnvVarsTmpl (convertAppEnvVar vars)
    = inl (patchCronJobEnvVarsTmpl (now W) name env)
  ∧ along deployEnvPath (patchDeployEnvVarsTmpl (now W) name env) = Some env
  ∧ along cronJobEnvPath (patchCronJobEnvVarsTmpl (now W) name env) = Some env
  ∧ (∀ i ev, vars !! i = Some ev →
       (setEntry <$> vars) !! i = Some (setEntry ev)
       ∧ member "name" (setEntry ev) = Some (JString (Key ev))
       ∧ member "value" (setEntry ev) = Some (JString (Value ev))
       ∧ member "$patch" (setEntry ev) = None)
  ∧ length (setEntry <$> vars) = length vars
  ∧ (newForConfig W (conf k) = None →
       evs (CreateOrUpdateDeployEnvVars W k namespace name vars c)
       = [ApiPatch ExtensionsDeployments namespace name StrategicMergePatchType
            (patchDeployEnvVarsTmpl (now W) name env)]
       ∧ evs (CreateOrUpdateCronJobEnvVars W k namespace name vars c)
         = [ApiPatch BatchCronJobs namespace name StrategicMergePatchType
              (patchCronJobEnvVarsTmpl (now W) name env)]).
Proof.
  intros env.
  assert (Hm : json_Marshal (convertAppEnvVar vars) = inl env).
  { unfold convertAppEnvVar, json_Marshal, env. f_equal. f_equal.
    rewrite <- list_fmap_compose. by apply list_fmap_ext. }
  assert (Hd : prepareEnvVarsPath W name patchDeployEnvVarsTmpl (convertAppEnvVar vars)
               = inl (patchDeployEnvVarsTmpl (now W) name env)).
  { unfold prepareEnvVarsPath. by rewrite Hm. }
  assert (Hc : prepareEnvVarsPath W name patchCronJobEnvVarsTmpl (convertAppEnvVar vars)
               = inl (patchCronJobEnvVarsTmpl (now W) name env)).
  { unfold prepareEnvVarsPath. by rewrite Hm. }
  split; [done|]. split; [done|]. split; [by vm_compute|]. split; [by vm_compute|].
  split; [|split].
  - intros i ev Hi. rewrite list_lookup_fmap, Hi. split; [done|]. by vm_compute.
  - by rewrite length_fmap.
  - intros Hk. unfold CreateOrUpdateDeployEnvVars, CreateOrUpdateCronJobEnvVars,
      patchDeployEnvVars, patchCronJobEnvVars, buildClient.
    rewrite Hd, Hc, Hk. by rewrite !run_bind.
Qed.

Lemma set_env_vars_carries_each_variable_witness :
  evs (CreateOrUpdateCronJobEnvVars Sample.helloWorld Sample.client "myapp" "nightly"
         [{| Key := "DEBUG"; Value := "1" |}] 0%nat)
  = [ApiPatch BatchCronJobs "myapp" "nightly" StrategicMergePatchType
       (patchCronJobEnvVarsTmpl (now Sample.helloWorld) "nightly"
          (JArray [JObject [("name", JString "DEBUG"); ("value", JString "1")]]))].
Proof.
  destruct (set_env_vars_carries_each_variable
              Sample.helloWorld Sample.client "myapp" "nightly"
              [{| Key := "DEBUG"; Value := "1" |}] 0%nat)
    as (_ & _ & _ & _ & _ & _ & Hsent).
  destruct (Hsent eq_refl) as (_ & Hcron). exact Hcron.
Defined.

(** X12. Every env-var patch, to set or to delete, carries the time of the
    call at [spec.template.metadata.annotations.date] and the change cause
    ["update env vars"] in the annotations of the resource; the cron job
    patch has that time stamp in the same place and none in the pod template
    of its [jobTemplate], where it carries the container. *)
Theorem env_var_patches_are_stamped W name v :
  ∃ deployData cronJobData,
    prepareEnvVarsPath W name patchDeployEnvVarsTmpl v = inl deployData
    ∧ prepareEnvVarsPath W name patchCronJobEnvVarsTmpl v = inl cronJobData
    ∧ along datePath deployData = Some (JString (now W))
    ∧ along datePath cronJobData = Some (JString (now W))
    ∧ along changeCausePath deployData = Some (JString "update env vars")
    ∧ along changeCausePath cronJobData = Some (JString "update env vars")
    ∧ along [AtKey "spec"; AtKey "jobTemplate"; AtKey "spec"; AtKey "template";
             AtKey "metadata"] cronJobData = None
    ∧ along [AtKey "spec"; AtKey "template"; AtKey "spec"] cronJobData = None.
Proof.
  unfold prepareEnvVarsPath.
  destruct v as [env|env]; cbn [json_Marshal]; do 2 eexists;
    (split; [reflexivity|]); (split; [reflexivity|]); by vm_compute.
Qed.

(** X13. The patch functions make one call and wrap its error: when the
    client builds, [patchDeployEnvVars], [patchCronJobEnvVars],
    [patchServiceAnnotations] and [DeploySetReplicas] send exactly one
    strategic merge patch and return [nil] if the store accepts it,
    otherwise the store's error wrapped with the function's message; when the
    client does not build they send nothing and return the build error. *)
Theorem patches_send_once_and_wrap W k namespace name v annotations replicas c :
  match newForConfig W (conf k) with
  | Some e =>
      let failed := mkRes (Some (Wrapped e "create k8s client failed")) c [] in
      patchDeployEnvVars W k namespace name v c = failed
      ∧ patchCronJobEnvVars W k namespace name v c = failed
      ∧ patchServiceAnnotations W k namespace name annotations c = failed
      ∧ DeploySetReplicas W k namespace name replicas c = failed
  | None =>
      (∃ data, patchDeployEnvVars W k namespace name v c
         = mkRes (Wrap (apiPatch W ExtensionsDeployments namespace name
                          StrategicMergePatchType data) "patch deploy failed") c
             [ApiPatch ExtensionsDeployments namespace name StrategicMergePatchType data])
      ∧ (∃ data, patchCronJobEnvVars W k namespace name v c
           = mkRes (Wrap (apiPatch W BatchCronJobs namespace name
                            StrategicMergePatchType data) "patch cronjob failed") c
               [ApiPatch BatchCronJobs namespace name StrategicMergePatchType data])
      ∧ (∃ data, patchServiceAnnotations W k namespace name annotations c
           = mkRes (Wrap (apiPatch W CoreServices namespace name
                            StrategicMergePatchType data) "patch namespace failed") c
               [ApiPatch CoreServices namespace name StrategicMergePatchType data])
      ∧ DeploySetReplicas W k namespace name replicas c
        = mkRes (Wrap (apiPatch W ExtensionsDeployments namespace name
                         StrategicMergePatchType (patchDeployReplicasTmpl replicas))
                   "patch deploy failed") c
            [ApiPatch ExtensionsDeployments namespace name StrategicMergePatchType
               (patchDeployReplicasTmpl replicas)]
  end.
Proof.
  destruct (newForConfig W (conf k)) as [e|] eqn:Hk.
  - unfold patchDeployEnvVars, patchCronJobEnvVars, patchServiceAnnotations,
      DeploySetReplicas, prepareEnvVarsPath, prepareServiceAnnotations, buildClient.
    rewrite Hk. cbn zeta.
    repeat split; try (destruct v; reflexivity); by destruct annotations.
  - unfold patchDeployEnvVars, patchCronJobEnvVars, patchServiceAnnotations,
      DeploySetReplicas, prepareEnvVarsPath, prepareServiceAnnotations, buildClient.
    rewrite Hk.
    split; [destruct v; eexists; reflexivity|].
    split; [destruct v; eexists; reflexivity|].
    split; [destruct annotations; eexists; reflexivity|].
    reflexivity.
Qed.

(** ** The cloud provider's name *)

Lemma substring_prefix_app name rest :
  String.substring 0 (String.length name) (name +:+ rest) = name.
Proof.
  induction name as [|a name IH]; simpl.
  - by destruct rest.
  - f_equal. exact IH.
Qed.

Lemma substring_head_split k : ∀ s,
  String.length (String.substring 0 k s) = k →
  ∃ rest, s = String.substring 0 k s +:+ rest.
Proof.
  induction k as [|k IH]; intros s Hk.
  - exists s. by destruct s.
  - destruct s as [|a s]; [discriminate|].
    simpl in Hk. injection Hk as Hk. destruct (IH s Hk) as (rest & Hrest).
    exists rest.
    change (String a s = String a (String.substring 0 k s +:+ rest)).
    by f_equal.
Qed.

Lemma substring_split s : ∀ m k,
  String.length (String.substring m k s) = k →
  ∃ rest, s = String.substring 0 m s +:+ String.substring m k s +:+ rest.
Proof.
  induction s as [|a s IH]; intros m k Hk.
  - destruct m, k; simpl in *; try discriminate; by exists "".
  - destruct m as [|m].
    + destruct (substring_head_split k (String a s) Hk) as (rest & Hrest).
      exists rest. exact Hrest.
    + change (String.substring (S m) k (String a s)) with (String.substring m k s) in *.
      destruct (IH m k Hk) as (rest & Hrest). exists rest.
      change (String a s
              = String a (String.substring 0 m s +:+ String.substring m k s +:+ rest)).
      by f_equal.
Qed.

Lemma prefix_scheme_other a s :
  a ≠ ":"%char → String.prefix "://" (String a s) = false.
Proof.
  intros Ha.
  change (String.prefix "://" (String a s))
    with (if Ascii.ascii_dec ":" a then String.prefix "//" s else false).
  by destruct (Ascii.ascii_dec ":" a) as [<-|].
Qed.

Lemma index_scheme name rest :
  Forall (λ a, a ≠ ":"%char) (String.list_ascii_of_string name) →
  String.index 0 "://" (name +:+ "://" +:+ rest) = Some (String.length name).
Proof.
  induction name as [|a name IH]; intros Hname.
  - simpl. by destruct rest.
  - apply Forall_cons in Hname as (Ha & Hname).
    change (String a name +:+ "://" +:+ rest) with (String a (name +:+ "://" +:+ rest)).
    change (String.index 0 "://" (String a (name +:+ "://" +:+ rest)))
      with (if String.prefix "://" (String a (name +:+ "://" +:+ rest)) then Some 0%nat
            else match String.index 0 "://" (name +:+ "://" +:+ rest) with
                 | Some n => Some (S n)
                 | None => None
                 end).
    rewrite (IH Hname). by rewrite (prefix_scheme_other _ _ Ha).
Qed.

Lemma index_no_colon s :
  Forall (λ a, a ≠ ":"%char) (String.list_ascii_of_string s) →
  String.index 0 "://" s = None.
Proof.
  induction s as [|a s IH]; intros Hs; [reflexivity|].
  apply Forall_cons in Hs as (Ha & Hs).
  change (String.index 0 "://" (String a s))
    with (if String.prefix "://" (String a s) then Some 0%nat
          else match String.index 0 "://" s with
               | Some n => Some (S n)
               | None => None
               end).
  rewrite (IH Hs). by rewrite (prefix_scheme_other _ _ Ha).
Qed.

(** X14. With a client that builds and a non-empty node list,
    [CloudProviderName] looks at the first node only: if its provider id is a
    non-empty name without colon followed by ["://"], the name is returned
    with no error. *)
Theorem CloudProviderName_scheme W C c first others name rest :
  newForConfig W (conf c) = None →
  nodesList C "kubernetes.io/role=master" = inl (first :: others) →
  ProviderID first = name +:+ "://" +:+ rest →
  name ≠ "" →
  Forall (λ a, a ≠ ":"%char) (String.list_ascii_of_string name) →
  CloudProviderName W C c = ((name, None), [NodesList "kubernetes.io/role=master"]).
Proof.
  intros Hk Hnodes Hid Hne Hname.
  unfold CloudProviderName, buildClient. rewrite Hk. cbn. rewrite Hnodes. cbn.
  unfold strings_Index. rewrite Hid, (index_scheme name rest Hname).
  destruct name as [|a name]; [done|].
  replace (Z.of_nat (String.length (String a name)) <=? 0)%Z with false
    by (symmetry; apply Z.leb_gt; cbn; lia).
  rewrite Nat2Z.id. by rewrite substring_prefix_app.
Qed.

Lemma CloudProviderName_scheme_witness :
  CloudProviderName Sample.helloWorld
    (More.cluster (More.ns None None) "aws:///us-east-1a/i-0abc123" None None
       More.noAutoscaler)
    Sample.client
  = (("aws", None), [NodesList "kubernetes.io/role=master"]).
Proof.
  apply (CloudProviderName_scheme Sample.helloWorld
           (More.cluster (More.ns None None) "aws:///us-east-1a/i-0abc123" None None
              More.noAutoscaler)
           Sample.client {| ProviderID := "aws:///us-east-1a/i-0abc123" |}
           [{| ProviderID := "gce://other" |}] "aws" "/us-east-1a/i-0abc123").
  - reflexivity.
  - reflexivity.
  - reflexivity.
  - discriminate.
  - repeat constructor; discriminate.
Defined.

(** X15. Whenever [CloudProviderName] returns no error, the name it returns
    is not empty and the provider id of the first master node is that name
    followed by ["://"] and a rest; the name is the part before the first
    ["://"] of the id. *)
Theorem CloudProviderName_sound W C c name calls :
  CloudProviderName W C c = ((name, None), calls) →
  name ≠ ""
  ∧ calls = [NodesList "kubernetes.io/role=master"]
  ∧ ∃ first others rest,
      nodesList C "kubernetes.io/role=master" = inl (first :: others)
      ∧ ProviderID first = name +:+ "://" +:+ rest
      ∧ String.index 0 "://" (ProviderID first) = Some (String.length name).
Proof.
  unfold CloudProviderName, buildClient.
  destruct (newForConfig W (conf c)); [discriminate|]. cbn.
  destruct (nodesList C "kubernetes.io/role=master") as [[|first others]|e] eqn:Hnodes;
    cbn; try discriminate.
  unfold strings_Index.
  destruct (String.index 0 "://" (ProviderID first)) as [m|] eqn:Hidx; [|discriminate].
  destruct (Z.leb_spec (Z.of_nat m) 0) as [|Hpos]; [discriminate|].
  cbn. rewrite Nat2Z.id. intros [= <- <-].
  pose proof (String.index_correct1 _ _ _ _ Hidx) as Hsub. cbn [String.length] in Hsub.
  destruct (substring_split (ProviderID first) m 3) as (rest & Hrest);
    [by rewrite Hsub|].
  rewrite Hsub in Hrest.
  assert (Hlen : String.length (String.substring 0 m (ProviderID first)) = m).
  { clear -Hsub. revert m Hsub. induction (ProviderID first) as [|a s IH]; intros m Hsub.
    - destruct m; cbn in Hsub; discriminate.
    - destruct m as [|m]; [reflexivity|]. cbn in Hsub |- *. f_equal. by apply IH. }
  split; [|split; [done|]].
  - intros Hempty. rewrite Hempty in Hlen. cbn in Hlen. lia.
  - exists first, others, rest. split; [done|]. split; [exact Hrest|]. by rewrite Hlen.
Qed.

Lemma CloudProviderName_sound_witness :
  "aws" ≠ ""
  ∧ ∃ rest, "aws:///us-east-1a/i-0abc123" = "aws" +:+ "://" +:+ rest.
Proof.
  destruct (CloudProviderName_sound Sample.helloWorld
              (More.cluster (More.ns None None) "aws:///us-east-1a/i-0abc123" None None
                 More.noAutoscaler)
              Sample.client "aws" [NodesList "kubernetes.io/role=master"] eq_refl)
    as (Hne & _ & first & others & rest & Hnodes & Hid & _).
  split; [exact Hne|]. exists rest. injection Hnodes as <- _. exact Hid.
Defined.

(** X16. [CloudProviderName] fails, with a client that builds: on an empty
    node list with the error ["empty cluster"]; on a first node whose
    provider id has no colon at all, or starts with ["://"], with the error
    ["invalid provider id"]; on a failed node list with that failure wrapped.
    In each case the name returned is empty. *)
Theorem CloudProviderName_errors W C c :
  newForConfig W (conf c) = None →
  (nodesList C "kubernetes.io/role=master" = inl [] →
   fst (CloudProviderName W C c) = ("", Some (ErrOther "empty cluster")))
  ∧ (∀ first others,
       nodesList C "kubernetes.io/role=master" = inl (first :: others) →
       Forall (λ a, a ≠ ":"%char) (String.list_ascii_of_string (ProviderID first))
       ∨ (∃ rest, ProviderID first = "://" +:+ rest) →
       fst (CloudProviderName W C c) = ("", Some (ErrOther "invalid provider id")))
  ∧ (∀ e, nodesList C "kubernetes.io/role=master" = inr e →
       fst (CloudProviderName W C c) = ("", Some (Wrapped e "node list failed"))).
Proof.
  intros Hk. unfold CloudProviderName, buildClient. rewrite Hk. cbn.
  split; [|split].
  - by intros ->.
  - intros first others -> Hid. cbn. unfold strings_Index.
    destruct Hid as [Hno|(rest & ->)].
    + by rewrite (index_no_colon _ Hno).
    + cbn. by destruct rest.
  - by intros e ->.
Qed.

Lemma CloudProviderName_errors_witness :
  fst (CloudProviderName Sample.helloWorld
         (More.cluster (More.ns None None) "minikube" None None More.noAutoscaler)
         Sample.client)
  = ("", Some (ErrOther "invalid provider id")).
Proof.
  destruct (CloudProviderName_errors Sample.helloWorld
              (More.cluster (More.ns None None) "minikube" None None More.noAutoscaler)
              Sample.client eq_refl) as (_ & Hinvalid & _).
  apply (Hinvalid {| ProviderID := "minikube" |} [{| ProviderID := "gce://other" |}]);
    [reflexivity|].
  left. repeat constructor; discriminate.
Defined.

(** ** Namespaces *)

Lemma assignEach_some (entries : list (string * string)) : ∀ t : gmap string string,
  NoDup entries.*1 →
  assignEach entries (Some t) = Some (Some (list_to_map entries ∪ t)).
Proof.
  induction entries as [|[key value] entries IH]; intros t Hnodup.
  - cbn. by rewrite (left_id_L ∅ (∪)).
  - cbn in Hnodup. apply NoDup_cons in Hnodup as (Hfresh & Hnodup).
    cbn. rewrite (IH _ Hnodup). do 2 f_equal.
    assert (Hnone : (list_to_map entries : gmap string string) !! key = None)
      by by apply not_elem_of_list_to_map_1.
    by rewrite <- insert_union_r, insert_union_l.
Qed.

Lemma assignEach_map (src t : gmap string string) :
  assignEach (map_to_list src) (Some t) = Some (Some (src ∪ t)).
Proof.
  rewrite assignEach_some by apply NoDup_fst_map_to_list.
  by rewrite list_to_map_to_list.
Qed.

Lemma assignEach_nil_map (src : gmap string string) :
  assignEach (map_to_list src) None = if decide (src = ∅) then Some None else None.
Proof.
  destruct (decide (src = ∅)) as [->|Hne].
  - by rewrite map_to_list_empty.
  - destruct (map_to_list src) as [|[key value] rest] eqn:Hl; [|reflexivity].
    by apply map_to_list_empty_iff in Hl.
Qed.

Lemma getNamespace_run W C k namespace :
  newForConfig W (conf k) = None →
  getNamespace W C k namespace = (namespacesGet C namespace, [NamespacesGet namespace]).
Proof.
  intros Hk. unfold getNamespace, buildClient. rewrite Hk. cbn.
  by destruct (namespacesGet C namespace).
Qed.

(** X17. [SetNamespaceAnnotations] and [SetNamespaceLabels] merge on the
    client: on a namespace that has the map, the namespace sent in the one
    update carries the supplied entries laid over the stored ones (a supplied
    key takes the supplied value, a stored key that is not supplied is kept),
    the other map and the name are as read, and the answer of the update is
    returned as it is. *)
Theorem SetNamespace_merges_into_stored W C k namespace (supplied : gmap string string) ns :
  newForConfig W (conf k) = None →
  namespacesGet C namespace = inl ns →
  (∀ stored, Annotations ns = Some stored →
     let ns' := {| NamespaceName := NamespaceName ns; Labels := Labels ns;
                   Annotations := Some (supplied ∪ stored) |} in
     SetNamespaceAnnotations W C k namespace supplied
     = (Returns (namespacesUpdate C ns'), [NamespacesGet namespace; NamespacesUpdate ns'])
     ∧ (∀ key v, supplied !! key = Some v → (supplied ∪ stored) !! key = Some v)
     ∧ (∀ key, supplied !! key = None → (supplied ∪ stored) !! key = stored !! key))
  ∧ (∀ stored, Labels ns = Some stored →
       let ns' := {| NamespaceName := NamespaceName ns; Labels := Some (supplied ∪ stored);
                     Annotations := Annotations ns |} in
       SetNamespaceLabels W C k namespace supplied
       = (Returns (namespacesUpdate C ns'), [NamespacesGet namespace; NamespacesUpdate ns'])).
Proof.
  intros Hk Hget. split.
  - intros stored Hstored ns'. split; [|split].
    + unfold SetNamespaceAnnotations. unfold buildClient at 1. rewrite Hk.
      unfold mbind, Log_bind. rewrite (getNamespace_run W C k namespace Hk), Hget.
      cbn [fst snd]. rewrite Hstored, assignEach_map. reflexivity.
    + intros key v Hv. by apply lookup_union_Some_l.
    + intros key Hnone. by apply lookup_union_r.
  - intros stored Hstored ns'.
    unfold SetNamespaceLabels. unfold buildClient at 1. rewrite Hk.
    unfold mbind, Log_bind. rewrite (getNamespace_run W C k namespace Hk), Hget.
    cbn [fst snd]. rewrite Hstored, assignEach_map. reflexivity.
Qed.

Lemma SetNamespace_merges_into_stored_witness :
  SetNamespaceAnnotations Sample.helloWorld
    (More.cluster (More.ns None (Some Sample.storedAnnotations)) "aws:///a" None None
       More.noAutoscaler)
    Sample.client "myapp" Sample.suppliedAnnotations
  = (Returns None,
     [NamespacesGet "myapp";
      NamespacesUpdate
        (More.ns None (Some (Sample.suppliedAnnotations ∪ Sample.storedAnnotations)))]).
Proof.
  destruct (SetNamespace_merges_into_stored Sample.helloWorld
              (More.cluster (More.ns None (Some Sample.storedAnnotations)) "aws:///a"
                 None None More.noAutoscaler)
              Sample.client "myapp" Sample.suppliedAnnotations
              (More.ns None (Some Sample.storedAnnotations)) eq_refl eq_refl)
    as (Hannotations & _).
  destruct (Hannotations Sample.storedAnnotations eq_refl) as (Hrun & _).
  exact Hrun.
Defined.

(** X18. On a namespace read without the map (a [nil] map),
    [SetNamespaceAnnotations], and likewise [SetNamespaceLabels], panics as
    soon as one entry is supplied, after the read and before any update; with
    no entry supplied it updates the namespace as it was read. *)
Theorem SetNamespace_on_nil_map W C k namespace ns :
  newForConfig W (conf k) = None →
  namespacesGet C namespace = inl ns →
  (Annotations ns = None →
     (∀ supplied : gmap string string, supplied ≠ ∅ →
        SetNamespaceAnnotations W C k namespace supplied
        = (Panics, [NamespacesGet namespace]))
     ∧ SetNamespaceAnnotations W C k namespace ∅
       = (Returns (namespacesUpdate C ns), [NamespacesGet namespace; NamespacesUpdate ns]))
  ∧ (Labels ns = None →
       (∀ supplied : gmap string string, supplied ≠ ∅ →
          SetNamespaceLabels W C k namespace supplied
          = (Panics, [NamespacesGet namespace]))
       ∧ SetNamespaceLabels W C k namespace ∅
         = (Returns (namespacesUpdate C ns), [NamespacesGet namespace; NamespacesUpdate ns])).
Proof.
  intros Hk Hget. split; intros Hnil; split.
  - intros supplied Hne. unfold SetNamespaceAnnotations. unfold buildClient at 1.
    rewrite Hk. unfold mbind, Log_bind. rewrite (getNamespace_run W C k namespace Hk), Hget.
    cbn [fst snd]. rewrite Hnil, assignEach_nil_map.
    by destruct (decide (supplied = ∅)).
  - unfold SetNamespaceAnnotations. unfold buildClient at 1.
    rewrite Hk. unfold mbind, Log_bind. rewrite (getNamespace_run W C k namespace Hk), Hget.
    cbn [fst snd]. rewrite Hnil, assignEach_nil_map.
    destruct (decide ((∅ : gmap string string) = ∅)); [|done].
    destruct ns as [n l a]. cbn in Hnil. subst a. reflexivity.
  - intros supplied Hne. unfold SetNamespaceLabels. unfold buildClient at 1.
    rewrite Hk. unfold mbind, Log_bind. rewrite (getNamespace_run W C k namespace Hk), Hget.
    cbn [fst snd]. rewrite Hnil, assignEach_nil_map.
    by destruct (decide (supplied = ∅)).
  - unfold SetNamespaceLabels. unfold buildClient at 1.
    rewrite Hk. unfold mbind, Log_bind. rewrite (getNamespace_run W C k namespace Hk), Hget.
    cbn [fst snd]. rewrite Hnil, assignEach_nil_map.
    destruct (decide ((∅ : gmap string string) = ∅)); [|done].
    destruct ns as [n l a]. cbn in Hnil. subst l. reflexivity.
Qed.

Lemma SetNamespace_on_nil_map_witness :
  SetNamespaceAnnotations Sample.helloWorld
    (More.cluster (More.ns None None) "aws:///a" None None More.noAutoscaler)
    Sample.client "myapp" Sample.suppliedAnnotations
  = (Panics, [NamespacesGet "myapp"]).
Proof.
  destruct (SetNamespace_on_nil_map Sample.helloWorld
              (More.cluster (More.ns None None) "aws:///a" None None More.noAutoscaler)
              Sample.client "myapp" (More.ns None None) eq_refl eq_refl)
    as (Hannotations & _).
  destruct (Hannotations eq_refl) as (Hpanic & _).
  apply Hpanic. intros Hempty.
  assert (H : Sample.suppliedAnnotations !! "teresa.io/owner" = Some "team-a")
    by (by vm_compute).
  rewrite Hempty in H. by rewrite lookup_empty in H.
Defined.

(** X19. [NamespaceAnnotation] and [NamespaceLabel] cannot tell a missing key
    from an empty value: with a client that builds and a namespace that is
    read, a key that the map holds gives its value, and a key that the map
    does not hold, or any key of a namespace without the map, gives the empty
    string, each time without error; a failed read gives the empty string and
    the read's error wrapped. *)
Theorem Namespace_lookup_missing_key W C k namespace key :
  newForConfig W (conf k) = None →
  (∀ ns, namespacesGet C namespace = inl ns →
     fst (NamespaceAnnotation W C k namespace key)
     = (match Annotations ns with
        | Some m => match m !! key with Some v => v | None => "" end
        | None => ""
        end, None)
     ∧ fst (NamespaceLabel W C k namespace key)
       = (match Labels ns with
          | Some m => match m !! key with Some v => v | None => "" end
          | None => ""
          end, None))
  ∧ (∀ err, namespacesGet C namespace = inr err →
       fst (NamespaceAnnotation W C k namespace key)
       = ("", Some (Wrapped err "get annotation failed"))
       ∧ fst (NamespaceLabel W C k namespace key)
         = ("", Some (Wrapped err "get label failed"))).
Proof.
  intros Hk. unfold NamespaceAnnotation, NamespaceLabel.
  unfold mbind, Log_bind. rewrite (getNamespace_run W C k namespace Hk). cbn [fst snd].
  split.
  - intros ns ->. cbn. unfold mapIndex.
    split; [destruct (Annotations ns) as [m|]|destruct (Labels ns) as [m|]];
      cbn; try done; by destruct (m !! key).
  - by intros err ->.
Qed.

Lemma Namespace_lookup_missing_key_witness :
  fst (NamespaceAnnotation Sample.helloWorld
         (More.cluster (More.ns None (Some Sample.storedAnnotations)) "aws:///a" None None
            More.noAutoscaler)
         Sample.client "myapp" "teresa.io/owner")
  = ("", None)
  ∧ fst (NamespaceLabel Sample.helloWorld
           (More.cluster (More.ns None (Some Sample.storedAnnotations)) "aws:///a" None None
              More.noAutoscaler)
           Sample.client "myapp" "teresa.io/team")
    = ("", None).
Proof.
  destruct (Namespace_lookup_missing_key Sample.helloWorld
              (More.cluster (More.ns None (Some Sample.storedAnnotations)) "aws:///a"
                 None None More.noAutoscaler)
              Sample.client "myapp" "teresa.io/owner" eq_refl) as (Hread & _).
  destruct (Namespace_lookup_missing_key Sample.helloWorld
              (More.cluster (More.ns None (Some Sample.storedAnnotations)) "aws:///a"
                 None None More.noAutoscaler)
              Sample.client "myapp" "teresa.io/team" eq_refl) as (Hread' & _).
  destruct (Hread (More.ns None (Some Sample.storedAnnotations)) eq_refl) as (Ha & _).
  destruct (Hread' (More.ns None (Some Sample.storedAnnotations)) eq_refl) as (_ & Hl).
  split; [exact Ha|exact Hl].
Defined.

(** ** Exposing a deployment *)

(** X20. [ExposeDeploy] creates nothing that is there: with a client that
    builds and a service that is read without error, it creates no service
    and prints nothing; with ingresses off it makes no further call, and with
    ingresses on and an ingress that is read without error it only makes
    that read.  It returns no error. *)
Theorem ExposeDeploy_keeps_what_exists W P C B k namespace appName vHost svcType :
  newForConfig W (conf k) = None →
  servicesGet C namespace appName = None →
  (ingress k = false →
   ExposeDeploy W P C B k namespace appName vHost svcType
   = (None, [ServicesGet namespace appName]))
  ∧ (ingress k = true →
     ingressesGet C namespace appName = None →
     ExposeDeploy W P C B k namespace appName vHost svcType
     = (None, [ServicesGet namespace appName; IngressesGet namespace appName])).
Proof.
  intros Hk Hsvc. split.
  - intros Hoff. unfold ExposeDeploy, hasService, buildClient, mbind, Log_bind, ask.
    rewrite Hk. cbn [fst snd]. rewrite Hsvc. cbn. rewrite Hoff. reflexivity.
  - intros Hon Higs.
    unfold ExposeDeploy, hasService, HasIngress, buildClient, mbind, Log_bind, ask.
    rewrite Hk. cbn [fst snd]. rewrite Hsvc. cbn. rewrite Hon. cbn. rewrite Higs.
    reflexivity.
Qed.

Lemma ExposeDeploy_keeps_what_exists_witness :
  ExposeDeploy Sample.helloWorld Sample.package
    (More.cluster (More.ns None None) "aws:///a" None None More.noAutoscaler)
    More.builders More.withIngress "myapp" "myapp" "myapp.example.com" "LoadBalancer"
  = (None, [ServicesGet "myapp" "myapp"; IngressesGet "myapp" "myapp"]).
Proof.
  destruct (ExposeDeploy_keeps_what_exists Sample.helloWorld Sample.package
              (More.cluster (More.ns None None) "aws:///a" None None More.noAutoscaler)
              More.builders More.withIngress "myapp" "myapp" "myapp.example.com"
              "LoadBalancer" eq_refl eq_refl) as (_ & Hon).
  apply Hon; reflexivity.
Defined.

(** X21. With ingresses off, [ExposeDeploy] never reads or creates an ingress
    and never announces one, whatever the cluster answers and whether or not
    the client builds. *)
Theorem ExposeDeploy_ingress_off W P C B k namespace appName vHost svcType :
  ingress k = false →
  Forall (λ c, isIngressCall c = false)
         (snd (ExposeDeploy W P C B k namespace appName vHost svcType)).
Proof.
  intros Hoff.
  unfold ExposeDeploy, hasService, createService, buildClient, mbind, Log_bind, ask.
  destruct (newForConfig W (conf k)) as [e|]; cbn [fst snd]; [by constructor|].
  destruct (servicesGet C namespace appName) as [e|]; cbn [fst snd].
  - destruct (IsNotFound P (Some e)); cbn [fst snd negb]; [|by repeat constructor].
    destruct (servicesCreate C namespace _) as [e'|]; cbn [fst snd Wrap];
      rewrite ?Hoff; cbn; by repeat constructor.
  - cbn. rewrite Hoff. cbn. by repeat constructor.
Qed.

Lemma ExposeDeploy_ingress_off_witness :
  Forall (λ c, isIngressCall c = false)
    (snd (ExposeDeploy Sample.helloWorld Sample.package
            (More.cluster (More.ns None None) "aws:///a" (Some Sample.notFound)
               (Some Sample.notFound) More.noAutoscaler)
            More.builders Sample.client "myapp" "myapp" "myapp.example.com" "LoadBalancer")).
Proof.
  apply (ExposeDeploy_ingress_off Sample.helloWorld Sample.package
           (More.cluster (More.ns None None) "aws:///a" (Some Sample.notFound)
              (Some Sample.notFound) More.noAutoscaler)
           More.builders Sample.client "myapp" "myapp" "myapp.example.com" "LoadBalancer").
  reflexivity.
Defined.

(** X22. When the read of the service fails, with a client that builds:
    an error that is not not-found is returned wrapped and nothing else is
    done; on not-found the creation is announced and made, and if it fails
    its error is returned wrapped and no ingress is read or created; if it
    succeeds and ingresses are on and the ingress is not found either, the
    ingress is announced and created after the service, and the answer of
    that creation is returned, wrapped if it is an error. *)
Theorem ExposeDeploy_creates_what_is_missing W P C B k namespace appName vHost svcType e :
  newForConfig W (conf k) = None →
  servicesGet C namespace appName = Some e →
  (IsNotFound P (Some e) = false →
   ExposeDeploy W P C B k namespace appName vHost svcType
   = (Some (Wrapped e "get service failed"), [ServicesGet namespace appName]))
  ∧ (IsNotFound P (Some e) = true →
     (∀ e', servicesCreate C namespace (serviceSpec B namespace appName svcType) = Some e' →
        ExposeDeploy W P C B k namespace appName vHost svcType
        = (Some (Wrapped e' "create service failed"),
           [ServicesGet namespace appName; Fprintln "Exposing service";
            ServicesCreate namespace (serviceSpec B namespace appName svcType)]))
     ∧ (servicesCreate C namespace (serviceSpec B namespace appName svcType) = None →
        ingress k = true →
        ∀ e2, ingressesGet C namespace appName = Some e2 →
              IsNotFound P (Some e2) = true →
              ExposeDeploy W P C B k namespace appName vHost svcType
              = (Wrap (ingressesCreate C namespace (ingressSpec B namespace appName vHost))
                      "create ingress failed",
                 [ServicesGet namespace appName; Fprintln "Exposing service";
                  ServicesCreate namespace (serviceSpec B namespace appName svcType);
                  IngressesGet namespace appName; Fprintln "Creating ingress";
                  IngressesCreate namespace (ingressSpec B namespace appName vHost)]))).
Proof.
  intros Hk Hsvc. split; [|intros Hfound; split].
  - intros Hnf. unfold ExposeDeploy, hasService, buildClient, mbind, Log_bind, ask.
    rewrite Hk. cbn [fst snd]. rewrite Hsvc. cbn [fst snd]. rewrite Hnf. reflexivity.
  - intros e' Hcreate.
    unfold ExposeDeploy, hasService, createService, buildClient, mbind, Log_bind, ask.
    rewrite Hk. cbn [fst snd]. rewrite Hsvc. cbn [fst snd]. rewrite Hfound. cbn [fst snd negb].
    rewrite Hcreate. reflexivity.
  - intros Hcreate Hon e2 Higs Hnf2.
    unfold ExposeDeploy, hasService, createService, HasIngress, createIngress,
      buildClient, mbind, Log_bind, ask.
    rewrite Hk. cbn [fst snd]. rewrite Hsvc. cbn [fst snd]. rewrite Hfound. cbn [fst snd negb].
    rewrite Hcreate. cbn [fst snd Wrap]. rewrite Hon. cbn [fst snd negb].
    rewrite Higs. cbn [fst snd]. rewrite Hnf2. reflexivity.
Qed.

Lemma ExposeDeploy_creates_what_is_missing_witness :
  ExposeDeploy Sample.helloWorld Sample.package
    (More.cluster (More.ns None None) "aws:///a" (Some Sample.notFound)
       (Some Sample.notFound) More.noAutoscaler)
    More.builders More.withIngress "myapp" "myapp" "myapp.example.com" "LoadBalancer"
  = (None,
     [ServicesGet "myapp" "myapp"; Fprintln "Exposing service";
      ServicesCreate "myapp" (serviceSpec More.builders "myapp" "myapp" "LoadBalancer");
      IngressesGet "myapp" "myapp"; Fprintln "Creating ingress";
      IngressesCreate "myapp" (ingressSpec More.builders "myapp" "myapp" "myapp.example.com")]).
Proof.
  destruct (ExposeDeploy_creates_what_is_missing Sample.helloWorld Sample.package
              (More.cluster (More.ns None None) "aws:///a" (Some Sample.notFound)
                 (Some Sample.notFound) More.noAutoscaler)
              More.builders More.withIngress "myapp" "myapp" "myapp.example.com"
              "LoadBalancer" Sample.notFound eq_refl eq_refl) as (_ & Hmissing).
  destruct (Hmissing eq_refl) as (_ & Hboth).
  apply (Hboth eq_refl eq_refl Sample.notFound); reflexivity.
Defined.

(** ** Pod lists, status and autoscaler *)

(** One round of the loop of [PodList] on a pod without state so far. *)
Lemma scanStatuses_step status rest p :
  State p = "" →
  scanStatuses (status :: rest) p
  = let p2 := {| Name := Name p; Age := Age p; State := stateOf status;
                 Restarts := RestartCount status; Ready := IsReady status |} in
    if bool_decide (stateOf status ≠ "") then p2 else scanStatuses rest p2.
Proof.
  intros Hp. cbn [scanStatuses]. unfold stateOf.
  destruct (WaitingReason status) as [reason|]; [reflexivity|].
  destruct (TerminatedReason status) as [reason|]; [reflexivity|].
  destruct (IsRunning status); [reflexivity|]. cbn. by rewrite Hp.
Qed.

Lemma scanStatuses_first before : ∀ s after p,
  State p = "" →
  Forall (λ c, stateOf c = "") before →
  stateOf s ≠ "" →
  scanStatuses (before ++ s :: after) p
  = {| Name := Name p; Age := Age p; State := stateOf s;
       Restarts := RestartCount s; Ready := IsReady s |}.
Proof.
  induction before as [|b before IH]; intros s after p Hp Hbefore Hs.
  - cbn [app]. rewrite scanStatuses_step by done. cbn zeta.
    by rewrite bool_decide_eq_true_2.
  - apply Forall_cons in Hbefore as (Hb & Hbefore).
    change ((b :: before) ++ s :: after) with (b :: (before ++ s :: after)).
    rewrite scanStatuses_step by done. cbn zeta.
    rewrite bool_decide_eq_false_2 by (by intros []).
    by rewrite IH.
Qed.

Lemma scanStatuses_none statuses : ∀ p,
  State p = "" →
  Forall (λ c, stateOf c = "") statuses →
  scanStatuses statuses p
  = {| Name := Name p; Age := Age p; State := "";
       Restarts := default (Restarts p) (RestartCount <$> last statuses);
       Ready := default (Ready p) (IsReady <$> last statuses) |}.
Proof.
  induction statuses as [|s statuses IH]; intros p Hp Hall.
  - cbn. destruct p; cbn in *; by subst.
  - apply Forall_cons in Hall as (Hs & Hall).
    rewrite scanStatuses_step by done. cbn zeta.
    rewrite bool_decide_eq_false_2 by (by intros []).
    rewrite IH by done. cbn [Name Age State Restarts Ready].
    destruct statuses as [|s' statuses]; [reflexivity|].
    rewrite last_cons_cons.
    destruct (last (s' :: statuses)) eqn:Hl; [reflexivity|].
    by apply last_None in Hl.
Qed.

Lemma scanStatuses_name_age statuses : ∀ p,
  Name (scanStatuses statuses p) = Name p ∧ Age (scanStatuses statuses p) = Age p.
Proof.
  induction statuses as [|s statuses IH]; intros p; [done|].
  cbn [scanStatuses]. cbn zeta.
  destruct (bool_decide _); [|rewrite !(proj1 (IH _)), !(proj2 (IH _))];
    cbn [Name Age];
    destruct (WaitingReason s), (TerminatedReason s), (IsRunning s); done.
Qed.

(** X23. [PodList] keeps the pods in order under their names, and for each
    pod takes the state from the first container status that gives a
    non-empty one (the reason of its waiting state if it is waiting, else
    the reason of its terminated state, else ["Running"] if it is running),
    together with the restart count and the readiness of that same status;
    later statuses are not looked at.  If no status gives a state, the state
    is empty and the restart count and readiness are those of the last
    status, or zero and false for a pod without statuses.  The age is that of
    the start time, or zero without one. *)
Theorem PodList_takes_first_state {PodListOptions K8sListOptions : Type}
    (appPodListOptsToK8s : PodListOptions → K8sListOptions)
    (podsList : string → K8sListOptions → list PodItem + error) (since : Z → Z)
    W k namespace opts items :
  newForConfig W (conf k) = None →
  podsList namespace (appPodListOptsToK8s opts) = inl items →
  ∃ pods,
    PodList appPodListOptsToK8s podsList since W k namespace opts
    = ((Some pods, None), [PodsList namespace])
    ∧ Name <$> pods = ItemName <$> items
    ∧ ∀ i pod, items !! i = Some pod →
        ∃ p, pods !! i = Some p
          ∧ Age p = match StartTime pod with Some t => since t | None => 0 end
          ∧ (∀ before s after,
               ItemStatuses pod = before ++ s :: after →
               Forall (λ c, stateOf c = "") before →
               stateOf s ≠ "" →
               State p = stateOf s ∧ Restarts p = RestartCount s ∧ Ready p = IsReady s)
          ∧ (Forall (λ c, stateOf c = "") (ItemStatuses pod) →
               State p = ""
               ∧ Restarts p = lastRestarts (ItemStatuses pod)
               ∧ Ready p = lastReady (ItemStatuses pod)).
Proof.
  intros Hk Hlist. exists (appPodOf since <$> items). split; [|split].
  - unfold PodList, buildClient, mbind, Log_bind, ask. rewrite Hk. cbn [fst snd].
    by rewrite Hlist.
  - rewrite <- list_fmap_compose. apply list_fmap_ext. intros i pod _.
    unfold appPodOf. cbn. rewrite (proj1 (scanStatuses_name_age _ _)).
    by destruct (StartTime pod).
  - intros i pod Hi. exists (appPodOf since pod). split; [by rewrite list_lookup_fmap, Hi|].
    unfold appPodOf. cbn zeta. split; [|split].
    + rewrite (proj2 (scanStatuses_name_age _ _)). by destruct (StartTime pod).
    + intros before s after -> Hbefore Hs.
      rewrite scanStatuses_first by (try done; by destruct (StartTime pod)).
      done.
    + intros Hall. rewrite scanStatuses_none by (try done; by destruct (StartTime pod)).
      unfold lastRestarts, lastReady. by destruct (StartTime pod).
Qed.

Lemma PodList_takes_first_state_witness :
  ∃ pods p,
    PodList (λ o : unit, o) More.podsList More.since Sample.helloWorld Sample.client
      "myapp" tt
    = ((Some pods, None), [PodsList "myapp"])
    ∧ pods !! 0%nat = Some p
    ∧ Age p = 900
    ∧ State p = "CrashLoopBackOff" ∧ Restarts p = 12 ∧ Ready p = false.
Proof.
  destruct (PodList_takes_first_state (λ o : unit, o) More.podsList More.since
              Sample.helloWorld Sample.client "myapp" tt More.podItems eq_refl eq_refl)
    as (pods & Hrun & _ & Hitems).
  destruct (Hitems 0%nat _ eq_refl) as (p & Hp & Hage & Hfirst & _).
  exists pods, p. split; [exact Hrun|]. split; [exact Hp|]. split; [exact Hage|].
  apply (Hfirst [More.starting] More.crashLoop [More.serving]).
  - reflexivity.
  - by repeat constructor.
  - discriminate.
Defined.

(** X24. [Status] reports the CPU utilisation as -1 when there is none to
    report: with a client that builds and a pod list that is read, an
    autoscaler that is not found is no error and gives -1, as does an
    autoscaler whose status has no current utilisation; one that has it gives
    that value; any other error of the autoscaler read, and any error of the
    pod list, is returned wrapped with ["get status failed"], and after a
    failed pod list the autoscaler is not read. *)
Theorem Status_cpu_defaults {PodListOptions K8sListOptions : Type}
    (appPodListOptsToK8s : PodListOptions → K8sListOptions) (noOptions : PodListOptions)
    (podsList : string → K8sListOptions → list PodItem + error) (since : Z → Z)
    W P C k namespace :
  newForConfig W (conf k) = None →
  (∀ e, podsList namespace (appPodListOptsToK8s noOptions) = inr e →
     Status_ appPodListOptsToK8s noOptions podsList since W P C k namespace
     = ((None, Some (Wrapped e "get status failed")), [PodsList namespace]))
  ∧ (∀ items, podsList namespace (appPodListOptsToK8s noOptions) = inl items →
       let pods := appPodOf since <$> items in
       let calls := [PodsList namespace; AutoscalersGet namespace namespace] in
       (∀ e, autoscalersGet C namespace namespace = inr e →
          Status_ appPodListOptsToK8s noOptions podsList since W P C k namespace
          = if IsNotFound P (Some e)
            then ((Some {| CPU := -1; Pods := pods |}, None), calls)
            else ((None, Some (Wrapped e "get status failed")), calls))
       ∧ (∀ hpa, autoscalersGet C namespace namespace = inl (hpa, None) →
            Status_ appPodListOptsToK8s noOptions podsList since W P C k namespace
            = ((Some {| CPU := -1; Pods := pods |}, None), calls))
       ∧ (∀ hpa current, autoscalersGet C namespace namespace = inl (hpa, Some current) →
            Status_ appPodListOptsToK8s noOptions podsList since W P C k namespace
            = ((Some {| CPU := current; Pods := pods |}, None), calls))).
Proof.
  intros Hk. split.
  - intros e He. unfold Status_, PodList, buildClient, mbind, Log_bind, ask.
    rewrite Hk. cbn [fst snd]. rewrite He. reflexivity.
  - intros items Hitems pods calls.
    assert (Hrun : ∀ h, autoscalersGet C namespace namespace = h →
      Status_ appPodListOptsToK8s noOptions podsList since W P C k namespace
      = (fst (match h with
              | inr err =>
                  if negb (IsNotFound P (Some err))
                  then mret (None, Some (Wrapped err "get status failed"))
                  else mret (Some {| CPU := -1; Pods := pods |}, None)
              | inl (_, current) =>
                  mret (Some {| CPU := default (-1) current; Pods := pods |}, None)
              end : Log (option AppStatus * option error)), calls)).
    { intros h <-. unfold Status_, PodList, buildClient, mbind, Log_bind, ask.
      rewrite Hk. cbn [fst snd]. rewrite Hitems. cbn [fst snd].
      destruct (autoscalersGet C namespace namespace) as [[hpa current]|e]; [reflexivity|].
      by destruct (IsNotFound P (Some e)). }
    split; [|split].
    + intros e He. rewrite (Hrun _ He). by destruct (IsNotFound P (Some e)).
    + intros hpa He. by rewrite (Hrun _ He).
    + intros hpa current He. by rewrite (Hrun _ He).
Qed.

Lemma Status_cpu_defaults_witness :
  fst (fst (Status_ (λ o : unit, o) tt More.podsList More.since Sample.helloWorld
              Sample.package
              (More.cluster (More.ns None None) "aws:///a" None None More.noAutoscaler)
              Sample.client "myapp"))
  = Some {| CPU := -1; Pods := appPodOf More.since <$> More.podItems |}.
Proof.
  destruct (Status_cpu_defaults (λ o : unit, o) tt More.podsList More.since
              Sample.helloWorld Sample.package
              (More.cluster (More.ns None None) "aws:///a" None None More.noAutoscaler)
              Sample.client "myapp" eq_refl) as (_ & Hread).
  destruct (Hread More.podItems eq_refl) as (Hmissing & _).
  rewrite (Hmissing Sample.notFound eq_refl). reflexivity.
Defined.

(** X25. [Autoscale] reads back what [newHPA] wrote: with a client that
    builds, when the autoscaler stored for an application is the manifest
    [newHPA] builds for it, [Autoscale] on the application's namespace returns
    the application's autoscale settings; an autoscaler that is not found
    gives neither settings nor error, any other error is returned wrapped,
    and a manifest without target or minimum gives zero for them. *)
Theorem Autoscale_reads_back_newHPA W P C k namespace :
  newForConfig W (conf k) = None →
  (∀ a current,
     namespace = AppName a →
     autoscalersGet C namespace namespace = inl (newHPA a, current) →
     Autoscale_ W P C k namespace
     = ((Some (AppAutoscale a), None), [AutoscalersGet namespace namespace]))
  ∧ (∀ e, autoscalersGet C namespace namespace = inr e →
       Autoscale_ W P C k namespace
       = ((None, if IsNotFound P (Some e) then None
                 else Some (Wrapped e "get autoscale failed")),
          [AutoscalersGet namespace namespace]))
  ∧ (∀ hpa current, autoscalersGet C namespace namespace = inl (hpa, current) →
       TargetCPUUtilizationPercentage hpa = None →
       MinReplicas hpa = None →
       Autoscale_ W P C k namespace
       = ((Some {| CPUTargetUtilization := 0; Min := 0; Max := MaxReplicas hpa |}, None),
          [AutoscalersGet namespace namespace])).
Proof.
  intros Hk. unfold Autoscale_, buildClient, mbind, Log_bind, ask. rewrite Hk.
  cbn [fst snd]. split; [|split].
  - intros a current -> ->. cbn. by destruct (AppAutoscale a).
  - intros e ->. by destruct (IsNotFound P (Some e)).
  - intros hpa current -> Htarget Hmin. cbn. by rewrite Htarget, Hmin.
Qed.

Lemma Autoscale_reads_back_newHPA_witness :
  Autoscale_ Sample.helloWorld Sample.package
    (More.cluster (More.ns None None) "aws:///a" None None (inl (newHPA More.app, Some 35)))
    Sample.client "myapp"
  = ((Some {| CPUTargetUtilization := 70; Min := 2; Max := 10 |}, None),
     [AutoscalersGet "myapp" "myapp"]).
Proof.
  destruct (Autoscale_reads_back_newHPA Sample.helloWorld Sample.package
              (More.cluster (More.ns None None) "aws:///a" None None
                 (inl (newHPA More.app, Some 35)))
              Sample.client "myapp" eq_refl) as (Hback & _).
  apply (Hback More.app (Some 35)); reflexivity.
Defined.

(** ** Addresses and namespace lists *)

(** X26. [AddressList] gives one address per ingress point of every load
    balancer, in the order of the services and of their points: the host
    name of the point if it has one, its IP otherwise.  A service without
    ingress point adds nothing; a point with neither host name nor IP adds an
    empty address.  A failed list is returned wrapped. *)
Theorem AddressList_one_per_ingress_point W C k namespace :
  newForConfig W (conf k) = None →
  (∀ srvs, servicesList C namespace = inl srvs →
     ∃ addrs,
       AddressList W C k namespace = ((Some addrs, None), [ServicesList namespace])
       ∧ addrs = concat ((λ srv, addressOf <$> Ingress srv) <$> srvs)
       ∧ length addrs = sum_list ((λ srv, length (Ingress srv)) <$> srvs)
       ∧ (∀ h, h ∈ addrs ↔
               ∃ srv i, srv ∈ srvs ∧ i ∈ Ingress srv
                        ∧ ((Hostname i ≠ "" ∧ h = Hostname i)
                           ∨ (Hostname i = "" ∧ h = IP i))))
  ∧ (∀ e, servicesList C namespace = inr e →
       AddressList W C k namespace
       = ((None, Some (Wrapped e "get addr list failed")), [ServicesList namespace])).
Proof.
  intros Hk. unfold AddressList, buildClient, mbind at 1, Log_bind, ask. rewrite Hk.
  cbn [fst snd]. split.
  - intros srvs ->. eexists. split; [reflexivity|].
    assert (Hc : (srvs ≫= λ srv, (λ i, if bool_decide (Hostname i = "") then IP i
                                         else Hostname i) <$> Ingress srv)
                 = concat ((λ srv, addressOf <$> Ingress srv) <$> srvs)).
    { induction srvs as [|srv srvs IH]; [done|]. cbn. by rewrite <- IH. }
    rewrite Hc. split; [done|]. split.
    + clear. induction srvs as [|srv srvs IH]; [done|].
      cbn. rewrite length_app, length_fmap, IH. done.
    + intros h. rewrite list_elem_of_In, in_concat. split.
      * intros (l & Hl & Hh). apply list_elem_of_In, list_elem_of_fmap in Hl
          as (srv & -> & Hsrv).
        apply list_elem_of_In, list_elem_of_fmap in Hh as (i & -> & Hi).
        exists srv, i. split; [done|]. split; [done|]. unfold addressOf.
        destruct (decide (Hostname i = "")) as [He|Hne].
        -- right. by rewrite bool_decide_eq_true_2.
        -- left. by rewrite bool_decide_eq_false_2.
      * intros (srv & i & Hsrv & Hi & Hh).
        exists (addressOf <$> Ingress srv). split.
        -- apply list_elem_of_In, list_elem_of_fmap. by exists srv.
        -- apply list_elem_of_In, list_elem_of_fmap. exists i. split; [|done].
           unfold addressOf. destruct Hh as [(Hne & ->)|(He & ->)].
           ++ by rewrite bool_decide_eq_false_2.
           ++ by rewrite bool_decide_eq_true_2.
  - by intros e ->.
Qed.

Lemma AddressList_one_per_ingress_point_witness :
  fst (AddressList Sample.helloWorld
         (More.cluster (More.ns None None) "aws:///a" None None More.noAutoscaler)
         Sample.client "myapp")
  = (Some ["10.1.2.3"; "lb.example.com"], None).
Proof.
  destruct (AddressList_one_per_ingress_point Sample.helloWorld
              (More.cluster (More.ns None None) "aws:///a" None None More.noAutoscaler)
              Sample.client "myapp" eq_refl) as (Hlist & _).
  destruct (Hlist _ eq_refl) as (addrs & -> & -> & _).
  reflexivity.
Defined.

(** X27. [NamespaceListByLabel] selects by the label alone when the value is
    empty and by [label=value] otherwise, and returns the names of the
    namespaces the cluster lists, in order; a failed list is returned as it
    is, unwrapped. *)
Theorem NamespaceListByLabel_selector W C k label value :
  newForConfig W (conf k) = None →
  ∃ selector,
    (value = "" → selector = label)
    ∧ (value ≠ "" → selector = label +:+ "=" +:+ value)
    ∧ (∀ items, namespacesList C selector = inl items →
         NamespaceListByLabel W C k label value
         = ((Some (NamespaceName <$> items), None), [NamespacesList selector]))
    ∧ (∀ e, namespacesList C selector = inr e →
         NamespaceListByLabel W C k label value
         = ((None, Some e), [NamespacesList selector])).
Proof.
  intros Hk. unfold NamespaceListByLabel, buildClient, mbind, Log_bind, ask. rewrite Hk.
  cbn [fst snd].
  exists (if bool_decide (value = "") then label else label +:+ "=" +:+ value).
  split; [by intros ->|]. split; [intros Hne; by rewrite bool_decide_eq_false_2|].
  split.
  - by intros items ->.
  - by intros e ->.
Qed.

Lemma NamespaceListByLabel_selector_witness :
  NamespaceListByLabel Sample.helloWorld
    (More.cluster (More.ns None None) "aws:///a" None None More.noAutoscaler)
    Sample.client "teresa.io/team" ""
  = ((Some ["myapp"], None), [NamespacesList "teresa.io/team"]).
Proof.
  destruct (NamespaceListByLabel_selector Sample.helloWorld
              (More.cluster (More.ns None None) "aws:///a" None None More.noAutoscaler)
              Sample.client "teresa.io/team" "" eq_refl)
    as (selector & Hempty & _ & Hlist & _).
  rewrite (Hempty eq_refl) in Hlist. apply (Hlist [More.ns None None]). reflexivity.
Defined.
